(** * LRU caches of package [lru]: a shallow embedding and its properties

    The package holds two caches built on Go's [container/list] and a
    [map]: [Cache] bounds the number of unpinned entries, [SegmentCache]
    bounds the cumulative [int64] weight of its entries.  Both are
    embedded below as pure functions on explicit states.

    Conventions of the embedding:
    - a Go [string] key is a [string], a Go [interface{}] payload is an
      [option V] ([None] is the [nil] interface), [int] and [int64] are
      [Z], with the wrap-around of [int64] arithmetic written out;
    - a run-time panic (nil pointer dereference inside [container/list])
      is the outcome [Panic];
    - the eviction callback is a caller-supplied [func(key string)]; the
      record keeps whether it is non-nil, and every operation returns the
      sequence of keys the callback was called with during that call;
    - lru.go holds [Cache] twice, without a mutex and with one; the
      copy without is [Cache] below, and the copy with its
      [sync.RWMutex] is [LockedCache], where a [Lock] on a mutex that
      is held is the outcome [Blocks];
    - the mutex of [SegmentCache] and the text that [PrintStats] writes
      to standard output are outside the embedding. *)

From stdpp Require Import gmap strings list fin_maps.
From Equations Require Import Equations.

(** ** Outcomes: normal return or panic *)

Inductive outcome (A : Type) : Type :=
| Done (a : A)
| Panic.
Arguments Done {A} a.
Arguments Panic {A}.

Definition outcome_bind {A B} (f : A → outcome B) (m : outcome A) : outcome B :=
  match m with
  | Done a => f a
  | Panic => Panic
  end.

#[global] Instance outcome_mbind : MBind outcome := @outcome_bind.
#[global] Instance outcome_mret : MRet outcome := @Done.

(** Exposes the equation [x = y] to a match on [x]. *)
Definition inspect {A : Type} (x : A) : {y : A | x = y} := exist _ x eq_refl.

(** ** [int64] arithmetic *)

Definition int64_min : Z := - 2 ^ 63.
Definition int64_max : Z := 2 ^ 63 - 1.

Definition is_int64 (z : Z) : Prop := (int64_min ≤ z ≤ int64_max)%Z.

(** The value an [int64] variable holds after being assigned the exact
    result [z]: Go's signed arithmetic wraps modulo [2^64]. *)
Definition wrap64 (z : Z) : Z := ((z + 2 ^ 63) `mod` 2 ^ 64 - 2 ^ 63)%Z.

(** ** [container/list]

    A list is the sequence of its elements, front first.  An element has
    an identity (its address in Go, a [handle] here) and a [Value].  The
    [Value] stored by the caches is a pointer to the cache entry; the
    caches read through it only fields that are never assigned after the
    entry is built, so an element carries those fields themselves. *)

Definition handle := positive.

Record Element (A : Type) : Type := mkElement {
  elt_id : handle;
  Value : A
}.
Arguments mkElement {A} _ _.
Arguments elt_id {A} _.
Arguments Value {A} _.

Module ContainerList.
Section container_list.
Context {A : Type}.

(** [l.Len()] *)
Definition Len (l : list (Element A)) : Z := Z.of_nat (length l).

(** [l.Back()]: the last element, [nil] on an empty list. *)
Definition Back (l : list (Element A)) : option (Element A) := last l.

(** [l.PushFront(v)], the new element being allocated at [fresh]. *)
Definition PushFront (v : A) (fresh : handle) (l : list (Element A))
  : list (Element A) :=
  mkElement fresh v :: l.

(** Unlinks the element of identity [h], when it belongs to [l]. *)
Fixpoint unlink (h : handle) (l : list (Element A))
  : option (Element A * list (Element A)) :=
  match l with
  | [] => None
  | x :: l' =>
      if decide (elt_id x = h) then Some (x, l')
      else '(y, r) ← unlink h l'; Some (y, x :: r)
  end.

(** [l.MoveToFront(e)]: dereferences [e]; does nothing when [e] is not
    an element of [l]. *)
Definition MoveToFront (e : option handle) (l : list (Element A))
  : outcome (list (Element A)) :=
  match e with
  | None => Panic
  | Some h =>
      match unlink h l with
      | Some (x, r) => Done (x :: r)
      | None => Done l
      end
  end.

(** [l.Remove(e)]: dereferences [e]; unlinks it when it is an element
    of [l]. *)
Definition Remove (e : option handle) (l : list (Element A))
  : outcome (list (Element A)) :=
  match e with
  | None => Panic
  | Some h =>
      match unlink h l with
      | Some (_, r) => Done r
      | None => Done l
      end
  end.
End container_list.
End ContainerList.
Import ContainerList.

(** ** What a public method returns

    [RetFound] is a [(interface{}, bool)] pair and [RetChecked] a
    [(bool, error)] pair whose error is [None] for [nil]. *)

Inductive reply (V : Type) : Type :=
| RetNothing
| RetInt (n : Z)
| RetBool (b : bool)
| RetFound (v : option V) (ok : bool)
| RetChecked (b : bool) (err : option string).
Arguments RetNothing {V}.
Arguments RetInt {V} n.
Arguments RetBool {V} b.
Arguments RetFound {V} v ok.
Arguments RetChecked {V} b err.

(** The error a reply carries, if any. *)
Definition reply_error {V} (r : reply V) : option string :=
  match r with
  | RetChecked _ err => err
  | _ => None
  end.

(** ** [Cache]: the count-bounded cache with pinned members (lru.go) *)

Module Cache.

(** [cacheEntry].  [position] is the element of the queue that points
    to the entry, [None] ([nil]) while the entry is pinned. *)
Record cacheEntry (V : Type) : Type := mkEntry {
  key : string;
  data : option V;
  pinned : bool;
  position : option handle
}.
Arguments mkEntry {V} _ _ _ _.
Arguments key {V} _.
Arguments data {V} _.
Arguments pinned {V} _.
Arguments position {V} _.

(** [Cache].  [cache] is the Go map from keys to entries; an element
    of [q] carries the key of the entry it points to.
    [evictedCallback] tells whether the callback is non-nil, and
    [fresh] is the identity the next allocated queue element gets. *)
Record t (V : Type) : Type := mkCache {
  size : Z;
  cache : gmap string (cacheEntry V);
  q : list (Element string);
  evictedCallback : bool;
  fresh : handle
}.
Arguments mkCache {V} _ _ _ _ _.
Arguments size {V} _.
Arguments cache {V} _.
Arguments q {V} _.
Arguments evictedCallback {V} _.
Arguments fresh {V} _.

Section operations.
Context {V : Type}.

Definition NewCache (size : Z) (evictedCallback : bool) : t V :=
  mkCache size ∅ [] evictedCallback 1%positive.

(** [len(lru.cache)] *)
Definition Len (lru : t V) : Z := Z.of_nat (base.size (cache lru)).

Definition Size (lru : t V) : Z := size lru.

Definition Get (key : string) (lru : t V)
  : outcome (option V * bool * t V) :=
  match cache lru !! key with
  | Some e =>
      q' ← (if pinned e then Done (q lru)
            else MoveToFront (position e) (q lru));
      Done (data e, true,
            mkCache (size lru) (cache lru) q'
                    (evictedCallback lru) (fresh lru))
  | None => Done (None, false, lru)
  end.

Definition HasKey (key : string) (lru : t V) : bool :=
  bool_decide (is_Some (cache lru !! key)).

(** The calls [if lru.evictedCallback != nil { lru.evictedCallback(k) }]
    makes. *)
Definition notify (lru : t V) (k : string) : list string :=
  if evictedCallback lru then [k] else [].

(** [evict]: a single conditional step. *)
Definition evict (lru : t V) : outcome (t V * list string) :=
  if bool_decide (size lru < ContainerList.Len (q lru))%Z then
    match Back (q lru) with
    | None => Panic
    | Some x =>
        q' ← Remove (Some (elt_id x)) (q lru);
        Done (mkCache (size lru) (delete (Value x) (cache lru)) q'
                      (evictedCallback lru) (fresh lru),
              notify lru (Value x))
    end
  else Done (lru, []).

Definition Add (key : string) (data : option V) (lru : t V)
  : outcome (t V * list string) :=
  match cache lru !! key with
  | Some e =>
      q' ← (if pinned e then Done (q lru)
            else MoveToFront (position e) (q lru));
      Done (mkCache (size lru)
                    (<[key := mkEntry (Cache.key e) data (pinned e)
                                      (position e)]> (cache lru))
                    q' (evictedCallback lru) (fresh lru),
            [])
  | None =>
      let entry := mkEntry key data false (Some (fresh lru)) in
      evict (mkCache (size lru) (<[key := entry]> (cache lru))
                     (PushFront key (fresh lru) (q lru))
                     (evictedCallback lru) (Pos.succ (fresh lru)))
  end.

Definition Pin (key : string) (lru : t V) : outcome (t V) :=
  match cache lru !! key with
  | Some e =>
      if pinned e then Done lru
      else
        q' ← Remove (position e) (q lru);
        Done (mkCache (size lru)
                      (<[key := mkEntry (Cache.key e) (data e) true None]>
                         (cache lru))
                      q' (evictedCallback lru) (fresh lru))
  | None => Done lru
  end.

Definition Unpin (key : string) (lru : t V)
  : outcome (t V * list string) :=
  match cache lru !! key with
  | Some e =>
      if pinned e then
        let e' := mkEntry (Cache.key e) (data e) false
                          (Some (fresh lru)) in
        evict (mkCache (size lru) (<[key := e']> (cache lru))
                       (PushFront (Cache.key e) (fresh lru) (q lru))
                       (evictedCallback lru) (Pos.succ (fresh lru)))
      else Done (lru, [])
  | None => Done (lru, [])
  end.

(** [IsPinned]: the second component is the error, [None] for [nil]. *)
Definition IsPinned (key : string) (lru : t V) : bool * option string :=
  match cache lru !! key with
  | Some e => (pinned e, None)
  | None => (false, Some (key +:+ ": not in cache"))
  end.

(** [PrintStats] only writes to standard output. *)
Definition PrintStats (lru : t V) : t V := lru.
End operations.

(** The public methods, as calls a client can make. *)
Inductive call (V : Type) : Type :=
| CallLen
| CallSize
| CallGet (key : string)
| CallHasKey (key : string)
| CallAdd (key : string) (data : option V)
| CallPin (key : string)
| CallUnpin (key : string)
| CallIsPinned (key : string)
| CallPrintStats.
Arguments CallLen {V}.
Arguments CallSize {V}.
Arguments CallGet {V} key.
Arguments CallHasKey {V} key.
Arguments CallAdd {V} key data.
Arguments CallPin {V} key.
Arguments CallUnpin {V} key.
Arguments CallIsPinned {V} key.
Arguments CallPrintStats {V}.

Section client.
Context {V : Type}.

(** One public call: what it returns, the cache it leaves and the
    callback calls made before it returns. *)
Definition invoke (c : call V) (lru : t V)
  : outcome (reply V * t V * list string) :=
  match c with
  | CallLen => Done (RetInt (Len lru), lru, [])
  | CallSize => Done (RetInt (Size lru), lru, [])
  | CallGet key =>
      '(v, ok, lru') ← Get key lru; Done (RetFound v ok, lru', [])
  | CallHasKey key => Done (RetBool (HasKey key lru), lru, [])
  | CallAdd key data =>
      '(lru', calls) ← Add key data lru; Done (RetNothing, lru', calls)
  | CallPin key => lru' ← Pin key lru; Done (RetNothing, lru', [])
  | CallUnpin key =>
      '(lru', calls) ← Unpin key lru; Done (RetNothing, lru', calls)
  | CallIsPinned key =>
      let '(b, err) := IsPinned key lru in
      Done (RetChecked b err, lru, [])
  | CallPrintStats => Done (RetNothing, PrintStats lru, [])
  end.

(** A sequence of public calls, with all the callback calls made. *)
Fixpoint run (cs : list (call V)) (lru : t V)
  : outcome (t V * list string) :=
  match cs with
  | [] => Done (lru, [])
  | c :: cs' =>
      '(_, lru', calls) ← invoke c lru;
      '(lru'', calls') ← run cs' lru';
      Done (lru'', calls ++ calls')
  end.

(** The caches a client can observe between two calls. *)
Definition reachable (size : Z) (evictedCallback : bool) (lru : t V)
  : Prop :=
  ∃ cs calls, run cs (NewCache size evictedCallback) = Done (lru, calls).
End client.
End Cache.

(** ** [SegmentCache]: the weight-bounded cache (lru_segment.go) *)

Module SegmentCache.

(** What a queue element of this cache points to: the entry's [key]
    and [size], both fixed when the entry is built. *)
Record entryRef : Type := mkRef {
  ref_key : string;
  ref_size : Z
}.

(** [cacheSegmentEntry] *)
Record cacheSegmentEntry (V : Type) : Type := mkEntry {
  key : string;
  size : Z;
  data : option V;
  position : option handle
}.
Arguments mkEntry {V} _ _ _ _.
Arguments key {V} _.
Arguments size {V} _.
Arguments data {V} _.
Arguments position {V} _.

(** [SegmentCache]; [evictedCallback] and [fresh] as in [Cache.t]. *)
Record t (V : Type) : Type := mkCache {
  capacity : Z;
  usedCapacity : Z;
  cache : gmap string (cacheSegmentEntry V);
  q : list (Element entryRef);
  evictedCallback : bool;
  fresh : handle
}.
Arguments mkCache {V} _ _ _ _ _ _.
Arguments capacity {V} _.
Arguments usedCapacity {V} _.
Arguments cache {V} _.
Arguments q {V} _.
Arguments evictedCallback {V} _.
Arguments fresh {V} _.

Section operations.
Context {V : Type}.

Definition NewSegmentCache (capacity : Z) (evictedCallback : bool) : t V :=
  mkCache capacity 0 ∅ [] evictedCallback 1%positive.

Definition Len (lru : t V) : Z := Z.of_nat (base.size (cache lru)).

Definition Capacity (lru : t V) : Z := capacity lru.

Definition UsedCapacity (lru : t V) : Z := usedCapacity lru.

Definition Get (key : string) (lru : t V)
  : outcome (option V * bool * t V) :=
  match cache lru !! key with
  | Some e =>
      q' ← MoveToFront (position e) (q lru);
      Done (data e, true,
            mkCache (capacity lru) (usedCapacity lru) (cache lru) q'
                    (evictedCallback lru) (fresh lru))
  | None => Done (None, false, lru)
  end.

Definition HasKey (key : string) (lru : t V) : bool :=
  bool_decide (is_Some (cache lru !! key)).

Definition notify (lru : t V) (k : string) : list string :=
  if evictedCallback lru then [k] else [].

(** [PrintStats] only writes to standard output. *)
Definition PrintStats (lru : t V) : t V := lru.

(** One iteration of the loop of [evict]: the body run on the back
    element [x]. *)
Definition evict_body (x : Element entryRef) (q' : list (Element entryRef))
    (lru : t V) : t V :=
  mkCache (capacity lru)
          (wrap64 (usedCapacity lru - ref_size (Value x)))
          (delete (ref_key (Value x)) (cache lru))
          q' (evictedCallback lru) (fresh lru).

(** [evict]: the [for lru.usedCapacity > lru.capacity] loop.  Every
    iteration unlinks the back element, so the length of the queue
    is a variant of the loop. *)
Equations? evict (lru : t V) : outcome (t V * list string)
  by wf (length (q lru)) lt :=
  evict lru with inspect (bool_decide (capacity lru < usedCapacity lru)%Z) := {
    | exist _ false _ => Done (PrintStats lru, [])
    | exist _ true _ with inspect (Back (q lru)) := {
      | exist _ None _ => Panic
      | exist _ (Some x) Hback
          with inspect (Remove (Some (elt_id x)) (q lru)) := {
        | exist _ Panic _ => Panic
        | exist _ (Done q') Hrem =>
            '(lru', calls) ← evict (evict_body x q' lru);
            Done (lru', notify lru (ref_key (Value x)) ++ calls) } } }.
Proof.
  simpl. clear evict.
  assert (Hin : x ∈ q lru).
  { unfold Back in Hback.
    by apply last_Some_elem_of in Hback. }
  revert Hrem. unfold Remove. generalize (q lru) q' Hin.
  clear. intros l. induction l as [|y l IH]; intros q' Hin.
  - by apply elem_of_nil in Hin.
  - simpl. destruct (decide (elt_id y = elt_id x)) as [|Hne].
    + intros [= <-]. lia.
    + apply elem_of_cons in Hin as [->|Hin]; [done|].
      destruct (unlink (elt_id x) l) as [[z r]|]; simpl.
      * intros [= <-]. specialize (IH r Hin eq_refl). simpl. lia.
      * intros [= <-]. specialize (IH l Hin eq_refl). lia.
Qed.

(** The same loop cut off after [n] iterations: [None] when the
    condition still holds with the [n] iterations used up. *)
Fixpoint evict_upto (n : nat) (lru : t V)
  : option (outcome (t V * list string)) :=
  if bool_decide (capacity lru < usedCapacity lru)%Z then
    match n with
    | O => None
    | S n' =>
        match Back (q lru) with
        | None => Some Panic
        | Some x =>
            match Remove (Some (elt_id x)) (q lru) with
            | Panic => Some Panic
            | Done q' =>
                r ← evict_upto n' (evict_body x q' lru);
                Some ('(lru', calls) ← r;
                      Done (lru', notify lru (ref_key (Value x)) ++ calls))
            end
        end
    end
  else Some (Done (PrintStats lru, [])).

Definition Add (key : string) (data : option V) (size : Z) (lru : t V)
  : outcome (t V * list string) :=
  match cache lru !! key with
  | Some e =>
      q' ← MoveToFront (position e) (q lru);
      Done (mkCache (capacity lru) (usedCapacity lru)
                    (<[key := mkEntry (SegmentCache.key e)
                                      (SegmentCache.size e) data
                                      (position e)]> (cache lru))
                    q' (evictedCallback lru) (fresh lru),
            [])
  | None =>
      let entry := mkEntry key size data (Some (fresh lru)) in
      evict (mkCache (capacity lru) (wrap64 (usedCapacity lru + size))
                     (<[key := entry]> (cache lru))
                     (PushFront (mkRef key size) (fresh lru) (q lru))
                     (evictedCallback lru) (Pos.succ (fresh lru)))
  end.
End operations.

(** The public methods, as calls a client can make. *)
Inductive call (V : Type) : Type :=
| CallLen
| CallCapacity
| CallUsedCapacity
| CallGet (key : string)
| CallHasKey (key : string)
| CallAdd (key : string) (data : option V) (size : Z)
| CallPrintStats.
Arguments CallLen {V}.
Arguments CallCapacity {V}.
Arguments CallUsedCapacity {V}.
Arguments CallGet {V} key.
Arguments CallHasKey {V} key.
Arguments CallAdd {V} key data size.
Arguments CallPrintStats {V}.

(** The weight a call hands to the cache, if any. *)
Definition call_weight {V} (c : call V) : option Z :=
  match c with
  | CallAdd _ _ size => Some size
  | _ => None
  end.

(** A call whose weight, if any, is an [int64] that is not negative. *)
Definition admissible {V} (c : call V) : Prop :=
  ∀ w, call_weight c = Some w → (0 ≤ w ≤ int64_max)%Z.

Section client.
Context {V : Type}.

Definition invoke (c : call V) (lru : t V)
  : outcome (reply V * t V * list string) :=
  match c with
  | CallLen => Done (RetInt (Len lru), lru, [])
  | CallCapacity => Done (RetInt (Capacity lru), lru, [])
  | CallUsedCapacity => Done (RetInt (UsedCapacity lru), lru, [])
  | CallGet key =>
      '(v, ok, lru') ← Get key lru; Done (RetFound v ok, lru', [])
  | CallHasKey key => Done (RetBool (HasKey key lru), lru, [])
  | CallAdd key data size =>
      '(lru', calls) ← Add key data size lru;
      Done (RetNothing, lru', calls)
  | CallPrintStats => Done (RetNothing, PrintStats lru, [])
  end.

Fixpoint run (cs : list (call V)) (lru : t V)
  : outcome (t V * list string) :=
  match cs with
  | [] => Done (lru, [])
  | c :: cs' =>
      '(_, lru', calls) ← invoke c lru;
      '(lru'', calls') ← run cs' lru';
      Done (lru'', calls ++ calls')
  end.

(** The caches a client can observe between two calls when every
    weight it supplies is admissible. *)
Definition reachable (capacity : Z) (evictedCallback : bool) (lru : t V)
  : Prop :=
  ∃ cs calls,
    Forall admissible cs ∧
    run cs (NewSegmentCache capacity evictedCallback) = Done (lru, calls).

(** The exact sum of the weights of the entries of an index. *)
Definition weight_of (m : gmap string (cacheSegmentEntry V)) : Z :=
  map_fold (λ _ e acc, (size e + acc)%Z) 0%Z m.

Definition total_weight (lru : t V) : Z := weight_of (cache lru).
End client.
End SegmentCache.


(** ** [Cache] behind its mutex: the locked copy (lru.go, lines 1 to 185)

    The locked copy has the fields and the method bodies of [Cache] and
    a [sync.RWMutex], taken with [Lock] by every method.  A call can now
    end in a third way: it waits in [Lock] for a mutex that is held.
    Only the methods of the cache release the mutex, so once a method
    has returned with the mutex held the wait of a later call, from
    whatever goroutine, does not end. *)

Inductive progress (A : Type) : Type :=
| Returns (a : A)
| Panics
| Blocks.
Arguments Returns {A} a.
Arguments Panics {A}.
Arguments Blocks {A}.

Definition progress_bind {A B} (f : A → progress B) (m : progress A)
  : progress B :=
  match m with
  | Returns a => f a
  | Panics => Panics
  | Blocks => Blocks
  end.

#[global] Instance progress_mbind : MBind progress := @progress_bind.
#[global] Instance progress_mret : MRet progress := @Returns.

(** A step that does not touch the mutex. *)
Definition of_outcome {A} (m : outcome A) : progress A :=
  match m with
  | Done a => Returns a
  | Panic => Panics
  end.

Module LockedCache.

(** [Cache] of the locked copy: the fields of [Cache.t], and [lock],
    which tells whether the mutex is held. *)
Record t (V : Type) : Type := mkLocked {
  fields : Cache.t V;
  lock : bool
}.
Arguments mkLocked {V} _ _.
Arguments fields {V} _.
Arguments lock {V} _.

Section operations.
Context {V : Type}.

(** [lru.lock.Lock()] *)
Definition Lock (lru : t V) : progress (t V) :=
  if lock lru then Blocks else Returns (mkLocked (fields lru) true).

(** [lru.lock.Unlock()]; on a mutex that is not held the Go run
    time stops the program. *)
Definition Unlock (lru : t V) : progress (t V) :=
  if lock lru then Returns (mkLocked (fields lru) false) else Panics.

(** [lru.lock.Lock(); defer lru.lock.Unlock()] and then [body], the
    statements that follow, which are those of the copy without
    mutex. *)
Definition guarded {A} (body : Cache.t V → outcome (A * Cache.t V))
    (lru : t V) : progress (A * t V) :=
  lru1 ← Lock lru;
  '(a, s) ← of_outcome (body (fields lru1));
  lru2 ← Unlock (mkLocked s (lock lru1));
  Returns (a, lru2).

Definition NewCache (size : Z) (evictedCallback : bool) : t V :=
  mkLocked (Cache.NewCache size evictedCallback) false.

Definition Len : t V → progress (Z * t V) :=
  guarded (λ s, Done (Cache.Len s, s)).

Definition Size : t V → progress (Z * t V) :=
  guarded (λ s, Done (Cache.Size s, s)).

Definition Get (key : string) : t V → progress (option V * bool * t V) :=
  guarded (λ s, '(v, ok, s') ← Cache.Get key s; Done ((v, ok), s')).

Definition HasKey (key : string) : t V → progress (bool * t V) :=
  guarded (λ s, Done (Cache.HasKey key s, s)).

(** [evict] takes the mutex itself: its callers release it first. *)
Definition evict (lru : t V) : progress (t V * list string) :=
  '(calls, lru') ←
    guarded (λ s, '(s', calls) ← Cache.evict s; Done (calls, s')) lru;
  Returns (lru', calls).

(** [Add] releases the mutex by hand, before it returns on a key
    that is present and before it calls [evict] otherwise. *)
Definition Add (key : string) (data : option V) (lru : t V)
  : progress (t V * list string) :=
  lru1 ← Lock lru;
  let s := fields lru1 in
  match Cache.cache s !! key with
  | Some e =>
      q' ← of_outcome (if Cache.pinned e then Done (Cache.q s)
                       else MoveToFront (Cache.position e) (Cache.q s));
      lru2 ← Unlock
               (mkLocked
                  (Cache.mkCache (Cache.size s)
                     (<[key := Cache.mkEntry (Cache.key e) data
                                 (Cache.pinned e) (Cache.position e)]>
                        (Cache.cache s))
                     q' (Cache.evictedCallback s) (Cache.fresh s))
                  (lock lru1));
      Returns (lru2, [])
  | None =>
      let entry := Cache.mkEntry key data false (Some (Cache.fresh s)) in
      lru2 ← Unlock
               (mkLocked
                  (Cache.mkCache (Cache.size s)
                     (<[key := entry]> (Cache.cache s))
                     (PushFront key (Cache.fresh s) (Cache.q s))
                     (Cache.evictedCallback s) (Pos.succ (Cache.fresh s)))
                  (lock lru1));
      evict lru2
  end.

Definition Pin (key : string) : t V → progress (unit * t V) :=
  guarded (λ s, s' ← Cache.Pin key s; Done ((), s')).

(** [Unpin] releases the mutex by hand too, but only where the key
    is pinned, before it calls [evict]: on a key that is absent or
    not pinned it returns with the mutex as [Lock] left it. *)
Definition Unpin (key : string) (lru : t V)
  : progress (t V * list string) :=
  lru1 ← Lock lru;
  let s := fields lru1 in
  match Cache.cache s !! key with
  | Some e =>
      if Cache.pinned e then
        let e' := Cache.mkEntry (Cache.key e) (Cache.data e) false
                    (Some (Cache.fresh s)) in
        lru2 ← Unlock
                 (mkLocked
                    (Cache.mkCache (Cache.size s)
                       (<[key := e']> (Cache.cache s))
                       (PushFront (Cache.key e) (Cache.fresh s) (Cache.q s))
                       (Cache.evictedCallback s)
                       (Pos.succ (Cache.fresh s)))
                    (lock lru1));
        evict lru2
      else Returns (lru1, [])
  | None => Returns (lru1, [])
  end.

Definition IsPinned (key : string)
  : t V → progress (bool * option string * t V) :=
  guarded (λ s, Done (Cache.IsPinned key s, s)).

Definition PrintStats : t V → progress (unit * t V) :=
  guarded (λ s, Done ((), Cache.PrintStats s)).

(** One public call on the locked copy. *)
Definition invoke (c : Cache.call V) (lru : t V)
  : progress (reply V * t V * list string) :=
  match c with
  | Cache.CallLen => '(n, lru') ← Len lru; Returns (RetInt n, lru', [])
  | Cache.CallSize => '(n, lru') ← Size lru; Returns (RetInt n, lru', [])
  | Cache.CallGet key =>
      '(v, ok, lru') ← Get key lru; Returns (RetFound v ok, lru', [])
  | Cache.CallHasKey key =>
      '(b, lru') ← HasKey key lru; Returns (RetBool b, lru', [])
  | Cache.CallAdd key data =>
      '(lru', calls) ← Add key data lru; Returns (RetNothing, lru', calls)
  | Cache.CallPin key =>
      '(_, lru') ← Pin key lru; Returns (RetNothing, lru', [])
  | Cache.CallUnpin key =>
      '(lru', calls) ← Unpin key lru; Returns (RetNothing, lru', calls)
  | Cache.CallIsPinned key =>
      '(b, err, lru') ← IsPinned key lru;
      Returns (RetChecked b err, lru', [])
  | Cache.CallPrintStats =>
      '(_, lru') ← PrintStats lru; Returns (RetNothing, lru', [])
  end.

(** A sequence of public calls, made one after the other. *)
Fixpoint run (cs : list (Cache.call V)) (lru : t V)
  : progress (t V * list string) :=
  match cs with
  | [] => Returns (lru, [])
  | c :: cs' =>
      '(_, lru', calls) ← invoke c lru;
      '(lru'', calls') ← run cs' lru';
      Returns (lru'', calls ++ calls')
  end.
End operations.
End LockedCache.
(** * Properties *)

(** ** Facts on [int64] *)

Lemma wrap64_id (z : Z) : is_int64 z → wrap64 z = z.
Proof.
  unfold is_int64, int64_min, int64_max, wrap64. intros Hz.
  rewrite Z.mod_small; lia.
Qed.

Lemma wrap64_range (z : Z) : is_int64 (wrap64 z).
Proof.
  unfold is_int64, int64_min, int64_max, wrap64.
  pose proof (Z.mod_pos_bound (z + 2 ^ 63) (2 ^ 64)). lia.
Qed.

Lemma wrap64_add_l (a b : Z) : wrap64 (wrap64 a + b) = wrap64 (a + b).
Proof.
  unfold wrap64. f_equal.
  replace (((a + 2 ^ 63) `mod` 2 ^ 64 - 2 ^ 63 + b + 2 ^ 63))%Z
    with ((a + 2 ^ 63) `mod` 2 ^ 64 + b)%Z by lia.
  rewrite Zplus_mod_idemp_l. f_equal. lia.
Qed.

Lemma wrap64_sub_l (a b : Z) : wrap64 (wrap64 a - b) = wrap64 (a - b).
Proof. apply (wrap64_add_l a (- b)). Qed.

(** ** Facts on [container/list] *)

Section container_list_facts.
Context {A : Type}.
Implicit Types (l r : list (Element A)) (x y : Element A) (h : handle).

Lemma unlink_Some h l x r :
  unlink h l = Some (x, r) →
  ∃ l1 l2, l = l1 ++ x :: l2 ∧ r = l1 ++ l2 ∧ elt_id x = h ∧
           h ∉ elt_id <$> l1.
Proof.
  revert r. induction l as [|y l IH]; intros r; simpl; [done|].
  destruct (decide (elt_id y = h)) as [Hy|Hy].
  - intros [= -> ->]. exists [], r. simpl. split_and!; try done.
    apply not_elem_of_nil.
  - destruct (unlink h l) as [[z r']|] eqn:Hu; simpl; [|done].
    intros [= -> <-]. destruct (IH r' eq_refl) as (l1 & l2 & -> & -> & Hx & Hl1).
    exists (y :: l1), l2. split_and!; try done.
    rewrite fmap_cons. rewrite not_elem_of_cons. done.
Qed.

Lemma unlink_None h l : unlink h l = None ↔ h ∉ elt_id <$> l.
Proof.
  induction l as [|y l IH]; simpl.
  - split; [intros _; apply not_elem_of_nil | done].
  - rewrite not_elem_of_cons. destruct (decide (elt_id y = h)) as [Hy|Hy].
    + split; [done | intros [? _]; congruence].
    + destruct (unlink h l) as [[z r']|]; simpl.
      * split; [done|]. intros [_ Hl]. by apply IH in Hl.
      * split; [|done]. intros _. split; [congruence | by apply IH].
Qed.

Lemma unlink_middle l1 x l2 :
  elt_id x ∉ elt_id <$> l1 →
  unlink (elt_id x) (l1 ++ x :: l2) = Some (x, l1 ++ l2).
Proof.
  induction l1 as [|y l1 IH]; simpl.
  - intros _. by rewrite decide_True.
  - rewrite not_elem_of_cons. intros [Hy Hl1].
    rewrite decide_False; [|done]. by rewrite IH.
Qed.

Lemma unlink_elem l x :
  NoDup (elt_id <$> l) → x ∈ l →
  ∃ l1 l2, l = l1 ++ x :: l2 ∧ unlink (elt_id x) l = Some (x, l1 ++ l2).
Proof.
  intros Hnd (l1 & l2 & ->)%list_elem_of_split.
  exists l1, l2. split; [done|]. apply unlink_middle.
  rewrite fmap_app, fmap_cons in Hnd.
  apply NoDup_app in Hnd as (_ & Hdisj & _).
  intros Hin. apply (Hdisj _ Hin). apply elem_of_cons. by left.
Qed.

Lemma unlink_perm h l x r : unlink h l = Some (x, r) → l ≡ₚ x :: r.
Proof.
  intros (l1 & l2 & -> & -> & _)%unlink_Some.
  by rewrite Permutation_middle.
Qed.

(** Removing the back element of a list of distinct elements leaves
    the list without its last element. *)
Lemma Remove_Back l x :
  NoDup (elt_id <$> l) → Back l = Some x →
  ∃ l', l = l' ++ [x] ∧ Remove (Some (elt_id x)) l = Done l'.
Proof.
  intros Hnd [l' ->]%last_Some. exists l'. split; [done|].
  unfold Remove. rewrite unlink_middle, app_nil_r; [done|].
  rewrite fmap_app in Hnd. apply NoDup_app in Hnd as (_ & Hdisj & _).
  intros Hin. apply (Hdisj _ Hin). simpl. apply elem_of_cons. by left.
Qed.
End container_list_facts.


(** ** Evictions, as a client sees them

    [queue_before] lists, front first, the keys of the queue as it is
    when eviction starts and [queue_after] those of the queue it leaves;
    [index_before] and [index_after] are the key sets of the index.  The
    evicted keys [gone] are a suffix of the queue, they are distinct keys
    of the index and exactly the keys that leave it, and the callback,
    when there is one, is called once for each, the back of the queue
    first. *)
Definition evicts_in_order (cb : bool)
    (queue_before queue_after : list string)
    (index_before index_after : gset string) (calls : list string) : Prop :=
  ∃ gone,
    queue_before = queue_after ++ gone ∧
    calls = (if cb then reverse gone else []) ∧
    NoDup gone ∧
    index_after = index_before ∖ list_to_set gone ∧
    ∀ k, k ∈ gone → k ∈ index_before.
(** ** Facts on [Cache] *)

Module CacheFacts.
Import Cache.

Section facts.
Context {V : Type}.
Implicit Types (lru : t V) (e : cacheEntry V) (x : Element string).
Implicit Types (k key : string) (h : handle).

(** The representation invariant: the queue holds distinct elements,
    and an element of identity [h] pointing to key [k] is in the
    queue exactly when the index holds an unpinned entry for [k]
    whose [position] is [h]; the entries without a position are the
    pinned ones; every entry is filed under its own key. *)
Record wf lru : Prop := mkWf {
  wf_ids : NoDup (elt_id <$> q lru);
  wf_sync : ∀ h k,
    mkElement h k ∈ q lru ↔
    ∃ e, cache lru !! k = Some e ∧ pinned e = false ∧
         position e = Some h;
  wf_index : ∀ k e,
    cache lru !! k = Some e →
    Cache.key e = k ∧ (position e = None ↔ pinned e = true);
  wf_fresh : ∀ x, x ∈ q lru → (elt_id x < fresh lru)%positive
}.

(** The size limit holds. *)
Definition bounded lru : Prop :=
  (ContainerList.Len (q lru) ≤ size lru)%Z.

(** The number of pinned entries. *)
Definition pinned_count lru : nat :=
  base.size (filter (λ ke, pinned ke.2 = true) (cache lru)).

Lemma wf_NewCache sz cb : wf (NewCache (V:=V) sz cb).
Proof.
  split; simpl.
  - constructor.
  - intros h k. split.
    + by intros ?%elem_of_nil.
    + intros (e & He & _). by rewrite lookup_empty in He.
  - intros k e He. by rewrite lookup_empty in He.
  - by intros x ?%elem_of_nil.
Qed.

Lemma wf_elem lru x :
  wf lru → x ∈ q lru →
  ∃ e, cache lru !! Value x = Some e ∧ pinned e = false ∧
       position e = Some (elt_id x).
Proof. intros Hwf Hx. apply (wf_sync _ Hwf). by destruct x. Qed.

Lemma wf_keys_inj lru x y :
  wf lru → x ∈ q lru → y ∈ q lru → Value x = Value y → x = y.
Proof.
  intros Hwf Hx Hy Hxy.
  destruct (wf_elem _ _ Hwf Hx) as (e & He & _ & Hpx).
  destruct (wf_elem _ _ Hwf Hy) as (e' & He' & _ & Hpy).
  rewrite Hxy, He' in He. injection He as ->.
  rewrite Hpx in Hpy. injection Hpy as Hid.
  destruct x, y; simpl in *. by subst.
Qed.

Lemma wf_keys_NoDup lru : wf lru → NoDup (Value <$> q lru).
Proof.
  intros Hwf. apply NoDup_fmap_2_strong.
  - intros x y. by apply wf_keys_inj.
  - eapply NoDup_fmap_1, wf_ids, Hwf.
Qed.

(** The invariant does not depend on the order of the queue. *)
Lemma wf_reorder lru q' :
  wf lru → q lru ≡ₚ q' →
  wf (mkCache (size lru) (cache lru) q' (evictedCallback lru) (fresh lru)).
Proof.
  intros [Hids Hsync Hidx Hfr] Hp. split; simpl.
  - by rewrite <- Hp.
  - intros h k. by rewrite <- Hp.
  - done.
  - intros x. rewrite <- Hp. apply Hfr.
Qed.

Lemma eta lru :
  mkCache (size lru) (cache lru) (q lru) (evictedCallback lru) (fresh lru)
  = lru.
Proof. by destruct lru. Qed.
Lemma wf_position lru k e :
  wf lru → cache lru !! k = Some e → pinned e = false →
  ∃ h, position e = Some h ∧ mkElement h k ∈ q lru.
Proof.
  intros Hwf He Hp. destruct (wf_index _ Hwf _ _ He) as [_ Hpos].
  destruct (position e) as [h|] eqn:Hh.
  - exists h. split; [done|]. apply (wf_sync _ Hwf). by exists e.
  - destruct Hpos as [Hpos _]. rewrite Hpos in Hp; done.
Qed.

(** Moving the element of an unpinned entry to the front. *)
Lemma touch lru k e :
  wf lru → cache lru !! k = Some e → pinned e = false →
  ∃ h l1 l2,
    q lru = l1 ++ mkElement h k :: l2 ∧
    MoveToFront (position e) (q lru) = Done (mkElement h k :: l1 ++ l2).
Proof.
  intros Hwf He Hp.
  destruct (wf_position _ _ _ Hwf He Hp) as (h & Hh & Hin).
  destruct (unlink_elem _ _ (wf_ids _ Hwf) Hin) as (l1 & l2 & Hq & Hu).
  exists h, l1, l2. split; [done|].
  rewrite Hh. unfold MoveToFront. simpl in Hu. by rewrite Hu.
Qed.

Lemma Get_absent lru k :
  cache lru !! k = None → Get k lru = Done (None, false, lru).
Proof. intros Hk. unfold Get. by rewrite Hk. Qed.

Lemma Get_pinned lru k e :
  cache lru !! k = Some e → pinned e = true →
  Get k lru = Done (data e, true, lru).
Proof. intros He Hp. unfold Get. rewrite He, Hp. simpl. by rewrite eta. Qed.

Lemma Get_unpinned lru k e :
  wf lru → cache lru !! k = Some e → pinned e = false →
  ∃ h l1 l2,
    q lru = l1 ++ mkElement h k :: l2 ∧
    Get k lru =
      Done (data e, true,
            mkCache (size lru) (cache lru) (mkElement h k :: l1 ++ l2)
                    (evictedCallback lru) (fresh lru)).
Proof.
  intros Hwf He Hp.
  destruct (touch _ _ _ Hwf He Hp) as (h & l1 & l2 & Hq & Hm).
  exists h, l1, l2. split; [done|].
  unfold Get. rewrite He, Hp, Hm. done.
Qed.

Lemma evict_within lru : bounded lru → evict lru = Done (lru, []).
Proof.
  unfold bounded, evict. intros Hb.
  rewrite bool_decide_eq_false_2; [done | lia].
Qed.

Lemma evict_over lru l x :
  wf lru → q lru = l ++ [x] → ¬ bounded lru →
  evict lru =
    Done (mkCache (size lru) (delete (Value x) (cache lru)) l
                  (evictedCallback lru) (fresh lru),
          notify lru (Value x)).
Proof.
  unfold bounded, evict. intros Hwf Hq Hb.
  rewrite bool_decide_eq_true_2; [|lia].
  assert (Back (q lru) = Some x) as Hback.
  { unfold Back. rewrite Hq. apply last_snoc. }
  rewrite Hback.
  destruct (Remove_Back _ _ (wf_ids _ Hwf) Hback) as (l' & Hq' & ->).
  rewrite Hq in Hq'. apply app_inj_tail in Hq' as [-> _]. done.
Qed.

Lemma wf_evicted lru l x :
  wf lru → q lru = l ++ [x] →
  wf (mkCache (size lru) (delete (Value x) (cache lru)) l
              (evictedCallback lru) (fresh lru)).
Proof.
  intros Hwf Hq. pose proof (wf_keys_NoDup _ Hwf) as Hnd.
  rewrite Hq, fmap_app in Hnd.
  destruct Hwf as [Hids Hsync Hidx Hfr]. rewrite Hq in *.
  rewrite fmap_app in Hids.
  apply NoDup_app in Hids as (Hids & _ & _).
  apply NoDup_app in Hnd as (_ & Hdisj & _).
  split; simpl.
  - done.
  - intros h k. split.
    + intros Hin. assert (k ≠ Value x) as Hne.
      { intros ->. apply (Hdisj (Value x)).
        - apply list_elem_of_fmap. by exists (mkElement h (Value x)).
        - simpl. apply elem_of_cons. by left. }
      rewrite lookup_delete_ne; [|done]. apply Hsync.
      apply elem_of_app. by left.
    + intros (e & He & Hp & Hh). apply lookup_delete_Some in He as [Hne He].
      assert (mkElement h k ∈ l ++ [x]) as Hin by (apply Hsync; eauto).
      apply elem_of_app in Hin as [Hin|Hin]; [done|].
      apply list_elem_of_singleton in Hin. subst x. done.
  - intros k e [Hne He]%lookup_delete_Some. by apply Hidx.
  - intros y Hy. apply Hfr. apply elem_of_app. by left.
Qed.

(** *** The invariant through the updates the methods make *)

Lemma wf_pushed lru k e :
  wf lru →
  (∀ e0, cache lru !! k = Some e0 → pinned e0 = true) →
  Cache.key e = k → pinned e = false →
  position e = Some (fresh lru) →
  wf (mkCache (size lru) (<[k := e]> (cache lru))
              (PushFront k (fresh lru) (q lru))
              (evictedCallback lru) (Pos.succ (fresh lru))).
Proof.
  intros [Hids Hsync Hidx Hfr] Hk Hkey Hpin Hpos.
  unfold PushFront. split; simpl.
  - apply NoDup_cons. split; [|done].
    intros (y & Hy & Hin)%list_elem_of_fmap. apply Hfr in Hin. lia.
  - intros h k'. rewrite elem_of_cons. split.
    + intros [[= -> ->]|Hin].
      * exists e. by rewrite lookup_insert_eq.
      * apply Hsync in Hin as (e' & He' & Hp' & Hh').
        destruct (decide (k = k')) as [<-|Hne].
        { apply Hk in He'. congruence. }
        exists e'. by rewrite lookup_insert_ne.
    + intros (e' & He' & Hp' & Hh').
      destruct (decide (k = k')) as [<-|Hne].
      * rewrite lookup_insert_eq in He'. injection He' as <-.
        left. congruence.
      * rewrite lookup_insert_ne in He' by done. right.
        apply Hsync. eauto.
  - intros k' e'. destruct (decide (k = k')) as [<-|Hne].
    + rewrite lookup_insert_eq. intros [= <-]. split; [done|].
      rewrite Hpos, Hpin. done.
    + rewrite lookup_insert_ne by done. apply Hidx.
  - intros y [->|Hin]%elem_of_cons; simpl; [lia|].
    apply Hfr in Hin. lia.
Qed.

Lemma wf_set_data lru k e d :
  wf lru → cache lru !! k = Some e →
  wf (mkCache (size lru)
              (<[k := mkEntry (Cache.key e) d (pinned e) (position e)]>
                 (cache lru))
              (q lru) (evictedCallback lru) (fresh lru)).
Proof.
  intros [Hids Hsync Hidx Hfr] He. split; simpl; try done.
  - intros h k'. rewrite Hsync. destruct (decide (k = k')) as [<-|Hne].
    + rewrite lookup_insert_eq. split.
      * intros (e' & He' & Hp' & Hh'). rewrite He in He'.
        injection He' as <-. eexists. split; [done|]. done.
      * intros (e' & [= <-] & Hp' & Hh'). exists e. done.
    + by rewrite lookup_insert_ne.
  - intros k' e'. destruct (decide (k = k')) as [<-|Hne].
    + rewrite lookup_insert_eq. intros [= <-]. simpl. by apply Hidx.
    + rewrite lookup_insert_ne by done. apply Hidx.
Qed.

Lemma wf_pinned lru k e h l1 l2 :
  wf lru → cache lru !! k = Some e → pinned e = false →
  q lru = l1 ++ mkElement h k :: l2 →
  wf (mkCache (size lru)
              (<[k := mkEntry (Cache.key e) (data e) true None]>
                 (cache lru))
              (l1 ++ l2) (evictedCallback lru) (fresh lru)).
Proof.
  intros Hwf He Hp Hq.
  assert (∀ h', mkElement h' k ∉ l1 ++ l2) as Hgone.
  { intros h' Hin.
    assert (mkElement h' k = mkElement h k) as [= ->].
    { apply (wf_keys_inj lru); try done; rewrite Hq.
      - rewrite elem_of_app, elem_of_cons in *. tauto.
      - rewrite elem_of_app, elem_of_cons. tauto. }
    pose proof (wf_ids _ Hwf) as Hnd. rewrite Hq in Hnd.
    rewrite fmap_app, fmap_cons in Hnd.
    apply NoDup_app in Hnd as (_ & Hdisj & [Hnot _]%NoDup_cons).
    apply elem_of_app in Hin as [Hin|Hin].
    - apply (Hdisj h); [by apply (list_elem_of_fmap_2 elt_id) in Hin|].
      apply elem_of_cons. by left.
    - by apply (list_elem_of_fmap_2 elt_id) in Hin. }
  destruct Hwf as [Hids Hsync Hidx Hfr]. rewrite Hq in *.
  split; simpl.
  - rewrite fmap_app, fmap_cons in Hids. rewrite fmap_app.
    apply NoDup_app in Hids as (H1 & Hdisj & [_ H2]%NoDup_cons).
    apply NoDup_app. split_and!; try done.
    intros z Hz Hz'. apply (Hdisj z Hz). apply elem_of_cons. by right.
  - intros h' k'. destruct (decide (k = k')) as [<-|Hne].
    + rewrite lookup_insert_eq. split.
      * intros Hin. by apply Hgone in Hin.
      * intros (e' & [= <-] & Hp' & _). done.
    + rewrite lookup_insert_ne by done. rewrite <- Hsync.
      rewrite !elem_of_app, elem_of_cons. split; [tauto|].
      intros [?|[[= _ Heq]|?]]; [tauto| congruence |tauto].
  - intros k' e'. destruct (decide (k = k')) as [<-|Hne].
    + rewrite lookup_insert_eq. intros [= <-]. simpl.
      split; [by apply (Hidx k e)|done].
    + rewrite lookup_insert_ne by done. apply Hidx.
  - intros y Hy. apply Hfr. rewrite elem_of_app, elem_of_cons.
    apply elem_of_app in Hy. tauto.
Qed.

(** *** The methods on well-formed caches *)

(** [evict] after a push: the queue is not empty, so [Back] is not
    [nil]; at most one entry goes. *)
Lemma evict_spec lru :
  wf lru → q lru ≠ [] →
  (bounded lru ∧ evict lru = Done (lru, [])) ∨
  (¬ bounded lru ∧ ∃ l x,
     q lru = l ++ [x] ∧
     evict lru =
       Done (mkCache (size lru) (delete (Value x) (cache lru)) l
                     (evictedCallback lru) (fresh lru),
             notify lru (Value x))).
Proof.
  intros Hwf Hne. destruct (decide (bounded lru)) as [Hb|Hb].
  - left. split; [done|]. by apply evict_within.
  - right. split; [done|].
    destruct (q lru) as [|y l] eqn:Hq using rev_ind; [done|].
    exists l, y. split; [done|]. by apply evict_over.
Qed.

Lemma Add_present lru k e d :
  wf lru → cache lru !! k = Some e →
  ∃ q',
    Add k d lru =
      Done (mkCache (size lru)
              (<[k := mkEntry (Cache.key e) d (pinned e) (position e)]>
                 (cache lru))
              q' (evictedCallback lru) (fresh lru), []) ∧
    if pinned e then q' = q lru
    else ∃ h l1 l2, q lru = l1 ++ mkElement h k :: l2 ∧
                    q' = mkElement h k :: l1 ++ l2.
Proof.
  intros Hwf He. unfold Add. rewrite He.
  destruct (pinned e) eqn:Hp; simpl.
  - by exists (q lru).
  - destruct (touch _ _ _ Hwf He Hp) as (h & l1 & l2 & Hq & ->). simpl.
    exists (mkElement h k :: l1 ++ l2). split; [done|]. eauto.
Qed.

Lemma Add_absent lru k d :
  cache lru !! k = None →
  Add k d lru =
    evict (mkCache (size lru)
             (<[k := mkEntry k d false (Some (fresh lru))]> (cache lru))
             (PushFront k (fresh lru) (q lru))
             (evictedCallback lru) (Pos.succ (fresh lru))).
Proof. intros Hk. unfold Add. by rewrite Hk. Qed.

Lemma Unpin_pinned lru k e :
  cache lru !! k = Some e → pinned e = true →
  Unpin k lru =
    evict (mkCache (size lru)
             (<[k := mkEntry (Cache.key e) (data e) false
                             (Some (fresh lru))]> (cache lru))
             (PushFront (Cache.key e) (fresh lru) (q lru))
             (evictedCallback lru) (Pos.succ (fresh lru))).
Proof. intros He Hp. unfold Unpin. by rewrite He, Hp. Qed.

Lemma Unpin_noop lru k :
  (∀ e, cache lru !! k = Some e → pinned e = false) →
  Unpin k lru = Done (lru, []).
Proof.
  intros Hk. unfold Unpin. destruct (cache lru !! k) as [e|]; [|done].
  by rewrite (Hk e eq_refl).
Qed.

Lemma Pin_unpinned lru k e :
  wf lru → cache lru !! k = Some e → pinned e = false →
  ∃ h l1 l2,
    q lru = l1 ++ mkElement h k :: l2 ∧
    Pin k lru =
      Done (mkCache (size lru)
              (<[k := mkEntry (Cache.key e) (data e) true None]>
                 (cache lru))
              (l1 ++ l2) (evictedCallback lru) (fresh lru)).
Proof.
  intros Hwf He Hp.
  destruct (wf_position _ _ _ Hwf He Hp) as (h & Hh & Hin).
  destruct (unlink_elem _ _ (wf_ids _ Hwf) Hin) as (l1 & l2 & Hq & Hu).
  exists h, l1, l2. split; [done|].
  unfold Pin. rewrite He, Hp, Hh. unfold Remove.
  simpl in Hu. by rewrite Hu.
Qed.

Lemma Pin_noop lru k :
  (∀ e, cache lru !! k = Some e → pinned e = true) →
  Pin k lru = Done lru.
Proof.
  intros Hk. unfold Pin. destruct (cache lru !! k) as [e|]; [|done].
  by rewrite (Hk e eq_refl).
Qed.

(** *** Every call returns and keeps the invariant *)

(** What a call keeps: the invariant, the configuration, and the
    size limit when it held before. *)
Definition kept lru lru' : Prop :=
  wf lru' ∧ size lru' = size lru ∧
  evictedCallback lru' = evictedCallback lru ∧
  (bounded lru → bounded lru').

Lemma kept_refl lru : wf lru → kept lru lru.
Proof. by intros Hwf. Qed.

(** Closes a goal on a call that leaves the cache as it is. *)
Ltac unchanged :=
  repeat (match goal with |- ∃ _, _ => eexists end);
  split; [done|];
  first [by apply kept_refl | split; [by apply kept_refl | simpl; lia]].

(** A push followed by [evict]. *)
Lemma evict_kept lru mid :
  wf mid → size mid = size lru →
  evictedCallback mid = evictedCallback lru →
  (∃ x, q mid = x :: q lru) →
  ∃ lru' calls, evict mid = Done (lru', calls) ∧ kept lru lru' ∧
                (length calls ≤ 1)%nat.
Proof.
  intros Hwf Hsz Hcb [x Hq].
  destruct (evict_spec mid Hwf) as [[Hb ->]|(Hb & l & y & Hl & ->)].
  - by rewrite Hq.
  - exists mid, []. split; [done|]. split; [|simpl; lia].
    unfold kept. split_and!; done.
  - eexists _, _. split; [done|]. split.
    + unfold kept. split_and!; simpl; try done.
      * by apply wf_evicted.
      * unfold bounded, ContainerList.Len in *. simpl.
        rewrite Hq in Hl. apply (f_equal length) in Hl.
        rewrite length_app in Hl. simpl in Hl. lia.
    + unfold notify. destruct (evictedCallback mid); simpl; lia.
Qed.

Lemma Get_kept lru k :
  wf lru → ∃ v ok lru', Get k lru = Done (v, ok, lru') ∧ kept lru lru'.
Proof.
  intros Hwf. destruct (cache lru !! k) as [e|] eqn:He.
  - destruct (pinned e) eqn:Hp.
    + rewrite (Get_pinned _ _ _ He Hp). unchanged.
    + destruct (Get_unpinned _ _ _ Hwf He Hp)
        as (h & l1 & l2 & Hq & ->).
      eexists _, _, _. split; [done|].
      assert (q lru ≡ₚ mkElement h k :: l1 ++ l2) as Hperm.
      { rewrite Hq. by rewrite Permutation_middle. }
      split_and!; simpl; try done.
      * by apply wf_reorder.
      * unfold bounded, ContainerList.Len. simpl.
        apply Permutation_length in Hperm. simpl in Hperm. lia.
  - rewrite (Get_absent _ _ He). unchanged.
Qed.

Lemma Add_kept lru k d :
  wf lru →
  ∃ lru' calls, Add k d lru = Done (lru', calls) ∧ kept lru lru' ∧
                (length calls ≤ 1)%nat.
Proof.
  intros Hwf. destruct (cache lru !! k) as [e|] eqn:He.
  - destruct (Add_present _ _ _ d Hwf He) as (q' & -> & Hq').
    eexists _, _. split; [done|]. split; [|simpl; lia].
    assert (q lru ≡ₚ q') as Hperm.
    { destruct (pinned e); [by subst|].
      destruct Hq' as (h & l1 & l2 & -> & ->).
      by rewrite Permutation_middle. }
    split_and!; simpl; try done.
    + apply (wf_reorder
               (mkCache (size lru) _ (q lru) (evictedCallback lru)
                        (fresh lru))); [|done].
      by apply wf_set_data.
    + unfold bounded, ContainerList.Len. simpl.
      apply Permutation_length in Hperm. lia.
  - rewrite (Add_absent _ _ _ He). apply evict_kept; simpl; try done.
    + apply wf_pushed; try done. intros e0. by rewrite He.
    + by eexists.
Qed.

Lemma Pin_kept lru k : wf lru → ∃ lru', Pin k lru = Done lru' ∧ kept lru lru'.
Proof.
  intros Hwf. destruct (cache lru !! k) as [e|] eqn:He.
  - destruct (pinned e) eqn:Hp.
    + rewrite Pin_noop; [unchanged|].
      intros e'. rewrite He. by intros [= <-].
    + destruct (Pin_unpinned _ _ _ Hwf He Hp)
        as (h & l1 & l2 & Hq & ->).
      eexists. split; [done|]. split_and!; simpl; try done.
      * by eapply wf_pinned.
      * unfold bounded, ContainerList.Len. simpl. rewrite Hq.
        rewrite !length_app. simpl. lia.
  - rewrite Pin_noop; [unchanged|].
    intros e'. by rewrite He.
Qed.

Lemma Unpin_kept lru k :
  wf lru →
  ∃ lru' calls, Unpin k lru = Done (lru', calls) ∧ kept lru lru' ∧
                (length calls ≤ 1)%nat.
Proof.
  intros Hwf. destruct (cache lru !! k) as [e|] eqn:He.
  - destruct (pinned e) eqn:Hp.
    + rewrite (Unpin_pinned _ _ _ He Hp).
      destruct (wf_index _ Hwf _ _ He) as [Hkey _].
      apply evict_kept; simpl; try done.
      * rewrite Hkey. apply wf_pushed; try done.
        intros e0. rewrite He. by intros [= <-].
      * by eexists.
    + rewrite Unpin_noop.
      * unchanged.
      * intros e'. rewrite He. by intros [= <-].
  - rewrite Unpin_noop.
    + unchanged.
    + intros e'. by rewrite He.
Qed.

Lemma invoke_kept c lru :
  wf lru →
  ∃ r lru' calls, invoke c lru = Done (r, lru', calls) ∧ kept lru lru'.
Proof.
  intros Hwf. destruct c as [| |k|k|k d|k|k|k|]; simpl;
    try (eexists _, _, _; split; [done|]; by apply kept_refl).
  - destruct (Get_kept lru k Hwf) as (v & ok & lru' & -> & Hk).
    simpl. eauto.
  - destruct (Add_kept lru k d Hwf) as (lru' & calls & -> & Hk & _).
    simpl. eauto.
  - destruct (Pin_kept lru k Hwf) as (lru' & -> & Hk). simpl. eauto.
  - destruct (Unpin_kept lru k Hwf) as (lru' & calls & -> & Hk & _).
    simpl. eauto.
  - destruct (IsPinned k lru). eexists _, _, _. split; [done|].
    by apply kept_refl.
Qed.

Lemma run_kept cs lru :
  wf lru → ∃ lru' calls, run cs lru = Done (lru', calls) ∧ kept lru lru'.
Proof.
  revert lru. induction cs as [|c cs IH]; intros lru Hwf; simpl.
  - exists lru, []. split; [done|]. by apply kept_refl.
  - destruct (invoke_kept c lru Hwf) as (r & lru1 & calls1 & -> & Hk1).
    simpl. destruct Hk1 as (Hwf1 & Hsz1 & Hcb1 & Hb1).
    destruct (IH lru1 Hwf1) as (lru2 & calls2 & -> & Hk2). simpl.
    destruct Hk2 as (Hwf2 & Hsz2 & Hcb2 & Hb2).
    eexists _, _. split; [done|]. split_and!; try done; try congruence.
    tauto.
Qed.

Lemma reachable_kept sz cb lru :
  reachable sz cb lru →
  wf lru ∧ size lru = sz ∧ evictedCallback lru = cb ∧
  ((0 ≤ sz)%Z → bounded lru).
Proof.
  intros (cs & calls & Hrun).
  destruct (run_kept cs (NewCache sz cb) (wf_NewCache sz cb))
    as (lru' & calls' & Hrun' & Hwf & Hsz & Hcb & Hb).
  rewrite Hrun in Hrun'. injection Hrun' as <- <-.
  split_and!; try done; intros Hsz'; apply Hb;
    unfold bounded, ContainerList.Len; simpl; lia.
Qed.

Lemma reachable_step sz cb lru c r lru' calls :
  reachable sz cb lru → invoke c lru = Done (r, lru', calls) →
  reachable sz cb lru'.
Proof.
  intros (cs & calls0 & Hrun) Hc. exists (cs ++ [c]).
  revert Hrun. generalize (NewCache (V:=V) sz cb) calls0.
  induction cs as [|c' cs IH]; intros s0 calls1; simpl.
  - intros [= -> <-]. rewrite Hc. simpl. eauto.
  - destruct (invoke c' s0) as [[[r1 s1] calls2]|]; simpl; [|done].
    destruct (run cs s1) as [[s2 calls3]|] eqn:Hrun; simpl; [|done].
    intros [= -> <-]. destruct (IH s1 calls3 Hrun) as [calls4 ->].
    simpl. eauto.
Qed.

(** *** Counting: the index is the queue plus the pinned entries *)

Lemma unpinned_dom lru :
  wf lru →
  dom (filter (λ ke, ¬ pinned ke.2 = true) (cache lru))
  = list_to_set (C:=gset string) (Value <$> q lru).
Proof.
  intros Hwf. apply set_eq. intros k.
  rewrite elem_of_dom, elem_of_list_to_set, list_elem_of_fmap. split.
  - intros [e [He Hp]%map_lookup_filter_Some]. simpl in Hp.
    apply not_true_is_false in Hp.
    destruct (wf_position _ _ _ Hwf He Hp) as (h & _ & Hin).
    by exists (mkElement h k).
  - intros (x & -> & Hx).
    destruct (wf_elem _ _ Hwf Hx) as (e & He & Hp & _).
    exists e. apply map_lookup_filter_Some. split; [done|].
    simpl. by rewrite Hp.
Qed.

Lemma Len_split lru :
  wf lru →
  Len lru = (ContainerList.Len (q lru) + Z.of_nat (pinned_count lru))%Z.
Proof.
  intros Hwf. unfold Len, ContainerList.Len, pinned_count.
  rewrite <- (map_filter_union_complement (λ ke, pinned ke.2 = true)
                (cache lru)) at 1.
  rewrite map_size_disj_union
    by apply map_disjoint_filter_complement.
  rewrite <- (size_dom (D:=gset string) (filter (λ ke, ¬ _) _)).
  rewrite (unpinned_dom _ Hwf).
  rewrite size_list_to_set by by apply wf_keys_NoDup.
  rewrite length_fmap. lia.
Qed.

(** *** What [evict] does after a push *)

Lemma evict_in_order mid lru' calls :
  wf mid → q mid ≠ [] → evict mid = Done (lru', calls) →
  evicts_in_order (evictedCallback mid)
    (Value <$> q mid) (Value <$> q lru')
    (dom (cache mid)) (dom (cache lru')) calls.
Proof.
  intros Hwf Hne Hev.
  destruct (evict_spec mid Hwf Hne) as [[Hb Hev']|(Hb & l & x & Hl & Hev')];
    rewrite Hev in Hev'; injection Hev' as [= -> ->].
  - exists []. rewrite app_nil_r. split_and!; try done.
    + by destruct (evictedCallback mid).
    + constructor.
    + simpl. by rewrite difference_empty_L.
    + by intros k ?%elem_of_nil.
  - exists [Value x]. simpl. split_and!.
    + by rewrite Hl, fmap_app.
    + done.
    + apply NoDup_singleton.
    + rewrite dom_delete_L. simpl. by rewrite union_empty_r_L.
    + intros k ->%list_elem_of_singleton. apply elem_of_dom.
      destruct (wf_elem mid x Hwf) as (e & He & _); [|by exists e].
      rewrite Hl. apply elem_of_app. right. by apply elem_of_cons; left.
Qed.

(** With a positive size a freshly added entry survives its own
    insertion. *)
Lemma Add_absent_stays lru k d lru' calls :
  wf lru → bounded lru → (0 < size lru)%Z → cache lru !! k = None →
  Add k d lru = Done (lru', calls) →
  wf lru' ∧ cache lru' !! k = Some (mkEntry k d false (Some (fresh lru))).
Proof.
  intros Hwf Hb Hsz Hk. rewrite (Add_absent _ _ _ Hk).
  set (mid := mkCache _ _ _ _ _).
  assert (wf mid) as Hwfm.
  { apply wf_pushed; try done. intros e0. by rewrite Hk. }
  destruct (evict_spec mid Hwfm) as [[_ ->]|(Hnb & l & x & Hl & ->)];
    [done| |]; intros [= <- <-].
  - split; [done|]. simpl. by rewrite lookup_insert_eq.
  - split; [by apply (wf_evicted mid)|]. simpl.
    rewrite lookup_delete_ne; [by rewrite lookup_insert_eq|].
    intros Hx. simpl in Hl. unfold PushFront in Hl.
    destruct l as [|y l].
    + simpl in Hl. injection Hl as _ Hq.
      unfold bounded, ContainerList.Len in Hnb. simpl in Hnb.
      rewrite Hq in Hnb. simpl in Hnb. lia.
    + simpl in Hl. injection Hl as <- Hq.
      assert (x = mkElement (fresh lru) k) as ->.
      { apply (wf_keys_inj mid); try done; simpl; unfold PushFront.
        - rewrite Hq. rewrite elem_of_cons, elem_of_app.
          right. right. by apply elem_of_cons; left.
        - apply elem_of_cons. by left. }
      pose proof (wf_ids _ Hwfm) as Hnd. simpl in Hnd.
      unfold PushFront in Hnd. rewrite Hq in Hnd. simpl in Hnd.
      apply NoDup_cons in Hnd as [Hnot _]. apply Hnot.
      rewrite fmap_app. apply elem_of_app. right. simpl.
      apply elem_of_cons. by left.
Qed.

(** *** Invariants of runs *)

Lemma run_invariant (P : t V → Prop) :
  (∀ c (s : t V) r s' calls,
     P s → invoke c s = Done (r, s', calls) → P s') →
  ∀ cs (s s' : t V) calls, P s → run cs s = Done (s', calls) → P s'.
Proof.
  intros Hstep cs. induction cs as [|c cs IH]; intros s s' calls Hs; simpl.
  - by intros [= <- <-].
  - destruct (invoke c s) as [[[r s1] calls1]|] eqn:Hinv; simpl; [|done].
    destruct (run cs s1) as [[s2 calls2]|] eqn:Hrun; simpl; [|done].
    intros [= <- <-]. eapply IH; [|done]. by eapply Hstep.
Qed.

Lemma run_app cs1 cs2 (s : t V) :
  run (cs1 ++ cs2) s =
    '(s1, calls1) ← run cs1 s;
    '(s2, calls2) ← run cs2 s1;
    Done (s2, calls1 ++ calls2).
Proof.
  revert s. induction cs1 as [|c cs1 IH]; intros s; simpl.
  - by destruct (run cs2 s) as [[s2 calls2]|].
  - destruct (invoke c s) as [[[r s1] calls1]|]; simpl; [|done].
    rewrite IH. destruct (run cs1 s1) as [[s2 calls2]|]; simpl; [|done].
    destruct (run cs2 s2) as [[s3 calls3]|]; simpl; [|done].
    by rewrite app_assoc.
Qed.

(** *** Pinned entries stay *)

Lemma Get_cache lru k v ok lru' :
  Get k lru = Done (v, ok, lru') → cache lru' = cache lru.
Proof.
  unfold Get. destruct (cache lru !! k) as [e0|].
  - destruct (if pinned e0 then _ else _); simpl; [|done].
    by intros [= _ _ <-].
  - by intros [= _ _ <-].
Qed.

(** [evict] after a push never takes a pinned entry. *)
Lemma evict_keeps_pinned mid lru' calls k e :
  wf mid → q mid ≠ [] →
  cache mid !! k = Some e → pinned e = true →
  evict mid = Done (lru', calls) →
  (k ∉ calls) ∧ cache lru' !! k = Some e.
Proof.
  intros Hwf Hne He Hp Hev.
  destruct (evict_spec mid Hwf Hne) as [[_ Hev']|(_ & l & x & Hl & Hev')];
    rewrite Hev in Hev'; injection Hev' as [= -> ->].
  - split; [apply not_elem_of_nil | done].
  - assert (Value x ≠ k) as Hx.
    { intros <-. destruct (wf_elem mid x Hwf) as (e' & He' & Hp' & _).
      - rewrite Hl. apply elem_of_app. right. by apply elem_of_cons; left.
      - congruence. }
    split.
    + unfold notify. destruct (evictedCallback mid).
      * intros ->%list_elem_of_singleton. done.
      * apply not_elem_of_nil.
    + simpl. by rewrite lookup_delete_ne.
Qed.

(** No call but [Unpin] of that key unpins or removes a pinned entry,
    and no call but [Add] of that key changes its value. *)
Lemma invoke_keeps_pinned c lru r lru' calls k e :
  wf lru → cache lru !! k = Some e → pinned e = true →
  c ≠ CallUnpin k → invoke c lru = Done (r, lru', calls) →
  (k ∉ calls) ∧
  ∃ e', cache lru' !! k = Some e' ∧ pinned e' = true ∧
        ((∀ d, c ≠ CallAdd k d) → data e' = data e).
Proof.
  intros Hwf He Hp Hc.
  assert (∀ k' e1 s calls',
            k' ≠ k →
            (∀ e0, cache lru !! k' = Some e0 → pinned e0 = true) →
            Cache.key e1 = k' → pinned e1 = false →
            position e1 = Some (fresh lru) →
            evict (mkCache (size lru) (<[k' := e1]> (cache lru))
                     (PushFront k' (fresh lru) (q lru))
                     (evictedCallback lru) (Pos.succ (fresh lru)))
            = Done (s, calls') →
            (k ∉ calls') ∧ cache s !! k = Some e) as Hpush.
  { intros k' e1 s calls' Hne Hk' Hk1 Hp1 Hpos1 Hev.
    eapply (evict_keeps_pinned _ _ _ k e); [| | |exact Hp|exact Hev].
    - by apply wf_pushed.
    - done.
    - simpl. by rewrite lookup_insert_ne. }
  destruct c as [| |k'|k'|k' d|k'|k'|k'|]; simpl;
    try (intros [= _ <- <-]; split; [apply not_elem_of_nil | by eauto]).
  - destruct (Get_kept lru k' Hwf) as (v & ok & s & Hget & _).
    rewrite Hget. simpl. intros [= _ <- <-].
    split; [apply not_elem_of_nil|]. exists e. split_and!; try done.
    by rewrite (Get_cache _ _ _ _ _ Hget).
  - destruct (cache lru !! k') as [e0|] eqn:Hk'.
    + destruct (Add_present _ _ _ d Hwf Hk') as (q' & -> & _). simpl.
      intros [= _ <- <-]. split; [apply not_elem_of_nil|]. simpl.
      destruct (decide (k' = k)) as [->|Hne].
      * rewrite lookup_insert_eq. rewrite He in Hk'. injection Hk' as <-.
        eexists. split_and!; [done|done|]. intros Hd. by destruct (Hd d).
      * rewrite lookup_insert_ne by done. eauto.
    + rewrite (Add_absent _ _ _ Hk').
      destruct (evict _) as [[s calls']|] eqn:Hev; simpl; [|done].
      intros [= _ <- <-].
      assert (k' ≠ k) as Hne by congruence.
      destruct (Hpush k' (mkEntry k' d false (Some (fresh lru))) _ _ Hne
                  ltac:(intros e2; by rewrite Hk')
                  eq_refl eq_refl eq_refl Hev) as [Hnot Hk].
      split; [done|]. eauto.
  - destruct (Pin_kept lru k' Hwf) as (s & Hpin & _). rewrite Hpin. simpl.
    intros [= _ <- <-]. split; [apply not_elem_of_nil|].
    unfold Pin in Hpin. destruct (cache lru !! k') as [e0|] eqn:Hk';
      [|injection Hpin as [= <-]; eauto].
    destruct (pinned e0) eqn:Hp0; [injection Hpin as [= <-]; eauto|].
    destruct (Remove _ _); simpl in Hpin; [|done].
    injection Hpin as [= <-]. simpl.
    rewrite lookup_insert_ne by congruence. eauto.
  - assert (k' ≠ k) as Hne by congruence.
    destruct (cache lru !! k') as [e0|] eqn:Hk'.
    + destruct (pinned e0) eqn:Hp0.
      * rewrite (Unpin_pinned _ _ _ Hk' Hp0).
        destruct (wf_index _ Hwf _ _ Hk') as [Hkey _]. rewrite Hkey.
        destruct (evict _) as [[s calls']|] eqn:Hev; simpl; [|done].
        intros [= _ <- <-].
        destruct (Hpush k'
                    (mkEntry k' (data e0) false (Some (fresh lru))) _ _
                    Hne
                    ltac:(intros e2; rewrite Hk'; by intros [= <-])
                    eq_refl eq_refl eq_refl Hev) as [Hnot Hk].
        split; [done|]. eauto.
      * rewrite Unpin_noop.
        -- simpl. intros [= _ <- <-].
           split; [apply not_elem_of_nil | eauto].
        -- intros e1. rewrite Hk'. by intros [= <-].
    + rewrite Unpin_noop.
      * simpl. intros [= _ <- <-].
        split; [apply not_elem_of_nil | eauto].
      * intros e1. by rewrite Hk'.
  - destruct (IsPinned k' lru). intros [= _ <- <-].
    split; [apply not_elem_of_nil | eauto].
Qed.
End facts.
End CacheFacts.

(** ** Facts on [LockedCache] *)

Module LockedFacts.
Import LockedCache.

Section facts.
Context {V : Type}.
Implicit Types (s : Cache.t V) (lru : t V) (key : string).

Lemma locked_eta lru : mkLocked (fields lru) (lock lru) = lru.
Proof. by destruct lru. Qed.

(** With the mutex free a guarded body runs, and the mutex is free
    again when the method returns. *)
Lemma guarded_free {A} (body : Cache.t V → outcome (A * Cache.t V)) s :
  guarded body (mkLocked s false) =
    '(a, s') ← of_outcome (body s); Returns (a, mkLocked s' false).
Proof. unfold guarded. simpl. by destruct (body s) as [[a s']|]. Qed.

(** With the mutex held the method waits in [Lock]. *)
Lemma guarded_held {A} (body : Cache.t V → outcome (A * Cache.t V)) s :
  guarded body (mkLocked s true) = Blocks.
Proof. done. Qed.

Lemma locked_evict_free s :
  evict (mkLocked s false) =
    '(s', calls) ← of_outcome (Cache.evict s);
    Returns (mkLocked s' false, calls).
Proof.
  unfold evict. rewrite guarded_free.
  by destruct (Cache.evict s) as [[s' calls]|].
Qed.

Lemma locked_Add_free key data s :
  Add key data (mkLocked s false) =
    '(s', calls) ← of_outcome (Cache.Add key data s);
    Returns (mkLocked s' false, calls).
Proof.
  unfold Add, Cache.Add. simpl.
  destruct (Cache.cache s !! key) as [e|].
  - by destruct (if Cache.pinned e then _ else _).
  - by rewrite locked_evict_free.
Qed.

Lemma locked_Unpin_pinned key s e :
  Cache.cache s !! key = Some e → Cache.pinned e = true →
  Unpin key (mkLocked s false) =
    '(s', calls) ← of_outcome (Cache.Unpin key s);
    Returns (mkLocked s' false, calls).
Proof.
  intros He Hp. unfold Unpin, Cache.Unpin. simpl. rewrite He, Hp.
  by rewrite locked_evict_free.
Qed.

(** Where [Unpin] has nothing to do it returns with the mutex
    held. *)
Lemma locked_Unpin_noop key s :
  (∀ e, Cache.cache s !! key = Some e → Cache.pinned e = false) →
  Unpin key (mkLocked s false) = Returns (mkLocked s true, []).
Proof.
  intros Hkey. unfold Unpin. simpl.
  destruct (Cache.cache s !! key) as [e|] eqn:He; [|done].
  by rewrite (Hkey e eq_refl).
Qed.

(** Every public method starts with [Lock]. *)
Lemma invoke_held (c : Cache.call V) s :
  invoke c (mkLocked s true) = Blocks.
Proof. by destruct c. Qed.

(** A call that is not an [Unpin] with nothing to do is the call of
    the copy without mutex, and leaves the mutex free. *)
Lemma invoke_free (c : Cache.call V) s :
  (∀ key, c = Cache.CallUnpin key →
          ∃ e, Cache.cache s !! key = Some e ∧ Cache.pinned e = true) →
  invoke c (mkLocked s false) =
    '(r, s', calls) ← of_outcome (Cache.invoke c s);
    Returns (r, mkLocked s' false, calls).
Proof.
  intros Hc. destruct c as [| |k|k|k d|k|k|k|];
    unfold invoke, Cache.invoke.
  - unfold Len. by rewrite guarded_free.
  - unfold Size. by rewrite guarded_free.
  - unfold Get. rewrite guarded_free.
    by destruct (Cache.Get k s) as [[[v ok] s']|].
  - unfold HasKey. by rewrite guarded_free.
  - rewrite locked_Add_free.
    by destruct (Cache.Add k d s) as [[s' calls]|].
  - unfold Pin. rewrite guarded_free.
    by destruct (Cache.Pin k s) as [s'|].
  - destruct (Hc k eq_refl) as (e & He & Hp).
    rewrite (locked_Unpin_pinned _ _ _ He Hp).
    by destruct (Cache.Unpin k s) as [[s' calls]|].
  - unfold IsPinned. rewrite guarded_free.
    by destruct (Cache.IsPinned k s).
  - unfold PrintStats. by rewrite guarded_free.
Qed.

(** Once the mutex is held between two calls, no sequence of calls
    that makes a call returns. *)
Lemma run_held (c : Cache.call V) cs s :
  run (c :: cs) (mkLocked s true) = Blocks.
Proof. simpl. by rewrite invoke_held. Qed.
End facts.
End LockedFacts.

(** ** Facts on [SegmentCache] *)

Module SegmentFacts.
Import SegmentCache.

Section facts.
Context {V : Type}.
Implicit Types (lru : t V) (e : cacheSegmentEntry V).
Implicit Types (x : Element entryRef) (k key : string) (h : handle).

(** The loop of [evict], one iteration unfolded. *)
Lemma evict_unfold lru :
  evict lru =
    if bool_decide (capacity lru < usedCapacity lru)%Z then
      match Back (q lru) with
      | None => Panic
      | Some x =>
          q' ← Remove (Some (elt_id x)) (q lru);
          '(lru', calls) ← evict (evict_body x q' lru);
          Done (lru', notify lru (ref_key (Value x)) ++ calls)
      end
    else Done (lru, []).
Proof.
  rewrite evict_equation_1. unfold evict_clause_1. simpl.
  destruct (bool_decide _); [|done].
  destruct (Back (q lru)) as [x|]; [|done].
  destruct (unlink (elt_id x) (q lru)) as [[y r]|]; done.
Qed.

(** The representation invariant: the queue holds distinct elements;
    an element of identity [h] pointing to an entry of key [k] and
    size [w] is in the queue exactly when the index holds, for [k],
    an entry of size [w] whose [position] is [h]; every entry is
    filed under its own key and has a position; and [usedCapacity]
    is the [int64] the exact sum of the weights wraps to. *)
Record wf lru : Prop := mkWf {
  wf_ids : NoDup (elt_id <$> q lru);
  wf_sync : ∀ h k w,
    mkElement h (mkRef k w) ∈ q lru ↔
    ∃ e, cache lru !! k = Some e ∧ size e = w ∧ position e = Some h;
  wf_index : ∀ k e,
    cache lru !! k = Some e →
    SegmentCache.key e = k ∧ is_Some (position e);
  wf_fresh : ∀ x, x ∈ q lru → (elt_id x < fresh lru)%positive;
  wf_used : usedCapacity lru = wrap64 (total_weight lru)
}.

(** The capacity limit holds. *)
Definition within lru : Prop := (usedCapacity lru ≤ capacity lru)%Z.

(** Every stored weight is an [int64] that is not negative. *)
Definition weights_nonneg lru : Prop :=
  ∀ k e, cache lru !! k = Some e → (0 ≤ size e ≤ int64_max)%Z.

Lemma seg_eta lru :
  mkCache (capacity lru) (usedCapacity lru) (cache lru) (q lru)
          (evictedCallback lru) (fresh lru) = lru.
Proof. by destruct lru. Qed.

Lemma wf_NewSegmentCache cap cb : wf (NewSegmentCache (V:=V) cap cb).
Proof.
  split; simpl.
  - constructor.
  - intros h k w. split.
    + by intros ?%elem_of_nil.
    + intros (e & He & _). by rewrite lookup_empty in He.
  - intros k e He. by rewrite lookup_empty in He.
  - by intros x ?%elem_of_nil.
  - done.
Qed.

Lemma seg_wf_elem lru x :
  wf lru → x ∈ q lru →
  ∃ e, cache lru !! ref_key (Value x) = Some e ∧
       size e = ref_size (Value x) ∧ position e = Some (elt_id x).
Proof. intros Hwf Hx. apply (wf_sync _ Hwf). by destruct x as [h []]. Qed.

Lemma seg_wf_position lru k e :
  wf lru → cache lru !! k = Some e →
  ∃ h, position e = Some h ∧ mkElement h (mkRef k (size e)) ∈ q lru.
Proof.
  intros Hwf He. destruct (wf_index _ Hwf _ _ He) as [_ [h Hh]].
  exists h. split; [done|]. apply (wf_sync _ Hwf). by exists e.
Qed.

Lemma seg_wf_keys_inj lru x y :
  wf lru → x ∈ q lru → y ∈ q lru →
  ref_key (Value x) = ref_key (Value y) → x = y.
Proof.
  intros Hwf Hx Hy Hxy.
  destruct (seg_wf_elem _ _ Hwf Hx) as (e & He & Hsx & Hpx).
  destruct (seg_wf_elem _ _ Hwf Hy) as (e' & He' & Hsy & Hpy).
  rewrite Hxy, He' in He. injection He as ->.
  rewrite Hpx in Hpy. injection Hpy as Hid.
  destruct x as [hx [kx wx]], y as [hy [ky wy]]; simpl in *.
  by subst.
Qed.

Lemma seg_wf_keys_NoDup lru :
  wf lru → NoDup ((λ x, ref_key (Value x)) <$> q lru).
Proof.
  intros Hwf. apply NoDup_fmap_2_strong.
  - intros x y. by apply seg_wf_keys_inj.
  - eapply NoDup_fmap_1, wf_ids, Hwf.
Qed.

Lemma seg_wf_reorder lru q' :
  wf lru → q lru ≡ₚ q' →
  wf (mkCache (capacity lru) (usedCapacity lru) (cache lru) q'
              (evictedCallback lru) (fresh lru)).
Proof.
  intros [Hids Hsync Hidx Hfr Hused] Hp. split; simpl.
  - by rewrite <- Hp.
  - intros h k w. by rewrite <- Hp.
  - done.
  - intros x. rewrite <- Hp. apply Hfr.
  - done.
Qed.

Lemma wf_empty_queue lru : wf lru → q lru = [] → cache lru = ∅.
Proof.
  intros Hwf Hq. apply map_empty. intros k.
  destruct (cache lru !! k) as [e|] eqn:He; [|done].
  destruct (seg_wf_position _ _ _ Hwf He) as (h & _ & Hin).
  rewrite Hq in Hin. by apply elem_of_nil in Hin.
Qed.

(** With nothing queued nothing is used: an empty queue is never
    over a capacity that is not negative. *)
Lemma empty_queue_within lru :
  wf lru → q lru = [] → usedCapacity lru = 0%Z.
Proof.
  intros Hwf Hq. rewrite (wf_used _ Hwf). unfold total_weight.
  rewrite (wf_empty_queue _ Hwf Hq). done.
Qed.

Lemma weight_of_insert (m : gmap string (cacheSegmentEntry V)) k e :
  m !! k = None → weight_of (<[k := e]> m) = (size e + weight_of m)%Z.
Proof.
  intros Hk. unfold weight_of.
  rewrite map_fold_insert_L; [done| |done]. intros. lia.
Qed.

Lemma weight_of_delete (m : gmap string (cacheSegmentEntry V)) k e :
  m !! k = Some e → weight_of m = (size e + weight_of (delete k m))%Z.
Proof.
  intros Hk. unfold weight_of.
  rewrite (map_fold_delete_L _ _ k e); [done| |done]. intros. lia.
Qed.

Lemma weight_of_set_data (m : gmap string (cacheSegmentEntry V)) k e d :
  m !! k = Some e →
  weight_of (<[k := mkEntry (SegmentCache.key e) (size e) d
                            (position e)]> m)
  = weight_of m.
Proof.
  intros Hk. rewrite <- insert_delete_eq.
  rewrite weight_of_insert by apply lookup_delete_eq.
  simpl. by rewrite <- weight_of_delete.
Qed.

(** *** The invariant through the updates the methods make *)

Lemma wf_evict_body lru l x :
  wf lru → q lru = l ++ [x] → wf (evict_body x l lru).
Proof.
  intros Hwf Hq. pose proof (seg_wf_keys_NoDup _ Hwf) as Hnd.
  rewrite Hq, fmap_app in Hnd.
  apply NoDup_app in Hnd as (_ & Hdisj & _).
  assert (x ∈ q lru) as Hx.
  { rewrite Hq. apply elem_of_app. right. by apply elem_of_cons; left. }
  destruct (seg_wf_elem _ _ Hwf Hx) as (ex & Hex & Hsx & Hpx).
  pose proof (weight_of_delete _ _ _ Hex) as Htot.
  destruct Hwf as [Hids Hsync Hidx Hfr Hused]. rewrite Hq in *.
  rewrite fmap_app in Hids. apply NoDup_app in Hids as (Hids & _ & _).
  unfold evict_body. split; simpl.
  - done.
  - intros h k w. split.
    + intros Hin. assert (k ≠ ref_key (Value x)) as Hne.
      { intros ->. apply (Hdisj (ref_key (Value x))).
        - apply list_elem_of_fmap.
          by exists (mkElement h (mkRef (ref_key (Value x)) w)).
        - simpl. apply elem_of_cons. by left. }
      rewrite lookup_delete_ne; [|done]. apply Hsync.
      apply elem_of_app. by left.
    + intros (e & He & Hw & Hh).
      apply lookup_delete_Some in He as [Hne He].
      assert (mkElement h (mkRef k w) ∈ l ++ [x]) as Hin
        by (apply Hsync; eauto).
      apply elem_of_app in Hin as [Hin|Hin]; [done|].
      apply list_elem_of_singleton in Hin. subst x. done.
  - intros k e [Hne He]%lookup_delete_Some. by apply Hidx.
  - intros y Hy. apply Hfr. apply elem_of_app. by left.
  - rewrite Hused, wrap64_sub_l. f_equal. unfold total_weight.
    simpl. rewrite Htot, <- Hsx. lia.
Qed.

Lemma seg_wf_pushed lru k d w :
  wf lru → cache lru !! k = None →
  wf (mkCache (capacity lru) (wrap64 (usedCapacity lru + w))
              (<[k := mkEntry k w d (Some (fresh lru))]> (cache lru))
              (PushFront (mkRef k w) (fresh lru) (q lru))
              (evictedCallback lru) (Pos.succ (fresh lru))).
Proof.
  intros [Hids Hsync Hidx Hfr Hused] Hk.
  unfold PushFront. split; simpl.
  - apply NoDup_cons. split; [|done].
    intros (y & Hy & Hin)%list_elem_of_fmap. apply Hfr in Hin. lia.
  - intros h k' w'. rewrite elem_of_cons. split.
    + intros [[= -> -> ->]|Hin].
      * eexists. by rewrite lookup_insert_eq.
      * apply Hsync in Hin as (e' & He' & Hw' & Hh').
        destruct (decide (k = k')) as [<-|Hne]; [congruence|].
        exists e'. by rewrite lookup_insert_ne.
    + intros (e' & He' & Hw' & Hh').
      destruct (decide (k = k')) as [<-|Hne].
      * rewrite lookup_insert_eq in He'. injection He' as <-.
        simpl in *. left. congruence.
      * rewrite lookup_insert_ne in He' by done. right.
        apply Hsync. eauto.
  - intros k' e'. destruct (decide (k = k')) as [<-|Hne].
    + rewrite lookup_insert_eq. intros [= <-]. simpl. eauto.
    + rewrite lookup_insert_ne by done. apply Hidx.
  - intros y [->|Hin]%elem_of_cons; simpl; [lia|].
    apply Hfr in Hin. lia.
  - rewrite Hused, wrap64_add_l. f_equal. unfold total_weight. simpl.
    rewrite weight_of_insert by done. simpl. lia.
Qed.

Lemma seg_wf_set_data lru k e d :
  wf lru → cache lru !! k = Some e →
  wf (mkCache (capacity lru) (usedCapacity lru)
              (<[k := mkEntry (SegmentCache.key e) (size e) d
                              (position e)]> (cache lru))
              (q lru) (evictedCallback lru) (fresh lru)).
Proof.
  intros [Hids Hsync Hidx Hfr Hused] He. split; simpl; try done.
  - intros h k' w. rewrite Hsync. destruct (decide (k = k')) as [<-|Hne].
    + rewrite lookup_insert_eq. split.
      * intros (e' & He' & Hw' & Hh'). rewrite He in He'.
        injection He' as <-. eexists. split; [done|]. done.
      * intros (e' & [= <-] & Hw' & Hh'). exists e. done.
    + by rewrite lookup_insert_ne.
  - intros k' e'. destruct (decide (k = k')) as [<-|Hne].
    + rewrite lookup_insert_eq. intros [= <-]. simpl. by apply Hidx.
    + rewrite lookup_insert_ne by done. apply Hidx.
  - rewrite Hused. f_equal. unfold total_weight. simpl.
    by rewrite weight_of_set_data.
Qed.

(** *** The weights, read off the queue *)

(** The exact sum of the weights of the entries a queue points to. *)
Definition queue_weight (l : list (Element entryRef)) : Z :=
  foldr (λ x acc, (ref_size (Value x) + acc)%Z) 0%Z l.

Lemma queue_weight_app l1 l2 :
  queue_weight (l1 ++ l2) = (queue_weight l1 + queue_weight l2)%Z.
Proof.
  induction l1 as [|x l1 IH]; simpl; [done|]. rewrite IH. lia.
Qed.

Lemma total_weight_queue lru :
  wf lru → total_weight lru = queue_weight (q lru).
Proof.
  remember (q lru) as l eqn:Hq. revert lru Hq.
  induction l as [|x l IH] using rev_ind; intros lru Hq Hwf.
  - unfold total_weight. by rewrite (wf_empty_queue _ Hwf).
  - symmetry in Hq. pose proof (wf_evict_body _ _ _ Hwf Hq) as Hwf'.
    assert (x ∈ q lru) as Hx.
    { rewrite Hq. apply elem_of_app. right. by apply elem_of_cons; left. }
    destruct (seg_wf_elem _ _ Hwf Hx) as (ex & Hex & Hsx & _).
    unfold total_weight. rewrite (weight_of_delete _ _ _ Hex).
    specialize (IH (evict_body x l lru) eq_refl Hwf').
    unfold total_weight in IH. simpl in IH.
    rewrite IH, queue_weight_app, Hsx. simpl. lia.
Qed.

Lemma used_queue lru :
  wf lru → usedCapacity lru = wrap64 (queue_weight (q lru)).
Proof. intros Hwf. by rewrite (wf_used _ Hwf), total_weight_queue. Qed.

(** *** The loop of [evict] *)

(** The callback calls made for the keys [keys], in order. *)
Definition callbacks (cb : bool) (keys : list string) : list string :=
  if cb then keys else [].

Lemma callbacks_cons lru k keys :
  notify lru k ++ callbacks (evictedCallback lru) keys
  = callbacks (evictedCallback lru) (k :: keys).
Proof. unfold notify, callbacks. by destruct (evictedCallback lru). Qed.

Lemma seg_evict_within lru : within lru → evict lru = Done (lru, []).
Proof.
  unfold within. intros Hw. rewrite evict_unfold.
  rewrite bool_decide_eq_false_2; [done | lia].
Qed.

(** One iteration on a cache over its capacity. *)
Lemma seg_evict_over lru l x :
  wf lru → q lru = l ++ [x] → ¬ within lru →
  evict lru =
    '(lru', calls) ← evict (evict_body x l lru);
    Done (lru', notify lru (ref_key (Value x)) ++ calls).
Proof.
  unfold within. intros Hwf Hq Hw. rewrite evict_unfold.
  rewrite bool_decide_eq_true_2; [|lia].
  assert (Back (q lru) = Some x) as Hback.
  { unfold Back. rewrite Hq. apply last_snoc. }
  rewrite Hback.
  destruct (Remove_Back _ _ (wf_ids _ Hwf) Hback) as (l' & Hq' & ->).
  rewrite Hq in Hq'. apply app_inj_tail in Hq' as [-> _]. done.
Qed.

(** From an empty queue the loop panics when the capacity is
    negative: [Back] is [nil]. *)
Lemma evict_empty_panics lru :
  wf lru → q lru = [] → (capacity lru < 0)%Z → evict lru = Panic.
Proof.
  intros Hwf Hq Hcap. rewrite evict_unfold.
  rewrite (empty_queue_within _ Hwf Hq), Hq.
  rewrite bool_decide_eq_true_2; [done | lia].
Qed.

(** What the loop leaves: it has unlinked a suffix [gone] of the
    queue, back element first, and called the callback for each in
    that order; the cache left is well-formed and within its
    capacity, and its entries are entries of the cache the loop
    started from.  The loop ran [length gone] times, and an element
    went only when the queue up to it was over the capacity. *)
Definition evicted_to lru lru' (calls : list string) : Prop :=
  ∃ gone,
    calls = callbacks (evictedCallback lru)
              ((λ x, ref_key (Value x)) <$> reverse gone) ∧
    q lru = q lru' ++ gone ∧
    wf lru' ∧ within lru' ∧
    capacity lru' = capacity lru ∧
    evictedCallback lru' = evictedCallback lru ∧
    cache lru' ⊆ cache lru ∧
    ∀ p x s,
      gone = p ++ x :: s →
      (capacity lru < wrap64 (queue_weight (q lru' ++ p ++ [x])))%Z.

Lemma evicted_to_refl lru : wf lru → within lru → evicted_to lru lru [].
Proof.
  intros Hwf Hw. exists []. simpl. rewrite app_nil_r.
  split_and!; try done.
  - by destruct (evictedCallback lru).
  - by intros [|??] ???.
Qed.

(** On a well-formed cache the loop either panics, which takes a
    negative capacity, or returns as [evicted_to] says. *)
Lemma evict_loop lru :
  wf lru →
  ((capacity lru < 0)%Z ∧ evict lru = Panic) ∨
  ∃ lru' calls, evict lru = Done (lru', calls) ∧ evicted_to lru lru' calls.
Proof.
  intros Hwf. remember (length (q lru)) as n eqn:Hn.
  revert lru Hwf Hn.
  induction n as [|n IH]; intros lru Hwf Hn.
  - symmetry in Hn. apply nil_length_inv in Hn.
    destruct (decide (capacity lru < 0)%Z) as [Hcap|Hcap].
    + left. split; [done|]. by apply evict_empty_panics.
    + right. assert (within lru) as Hw.
      { unfold within. rewrite (empty_queue_within _ Hwf Hn). lia. }
      exists lru, []. rewrite (seg_evict_within _ Hw).
      split; [done|]. by apply evicted_to_refl.
  - destruct (decide (within lru)) as [Hw|Hw].
    + right. exists lru, []. rewrite (seg_evict_within _ Hw).
      split; [done|]. by apply evicted_to_refl.
    + destruct (q lru) as [|y l _] eqn:Hq using rev_ind; [done|].
      rewrite length_app in Hn. simpl in Hn.
      pose proof (wf_evict_body _ _ _ Hwf Hq) as Hwf'.
      rewrite (seg_evict_over _ _ _ Hwf Hq Hw).
      destruct (IH (evict_body y l lru) Hwf')
        as [[Hcap ->]|(lru' & calls & -> & gone & -> & Hq' & Hwf''
                       & Hw' & Hc' & Hcb' & Hsub & Hover)].
      { simpl. lia. }
      { left. by split. }
      right. eexists _, _. split; [done|]. exists (gone ++ [y]).
      simpl in *.
      rewrite reverse_snoc, fmap_cons, callbacks_cons.
      split_and!; try done.
      * by rewrite Hq, Hq', <- app_assoc.
      * etrans; [done|]. apply delete_subseteq.
      * intros p x s Hgone.
        destruct s as [|z s _] using rev_ind.
        -- apply app_inj_tail in Hgone as [-> ->].
           rewrite app_assoc, <- Hq', <- Hq, <- (used_queue _ Hwf).
           unfold within in Hw. lia.
        -- rewrite app_comm_cons, app_assoc in Hgone.
           apply app_inj_tail in Hgone as [-> ->].
           by eapply Hover.
Qed.

Lemma evict_returns lru :
  wf lru → (0 ≤ capacity lru)%Z →
  ∃ lru' calls, evict lru = Done (lru', calls) ∧ evicted_to lru lru' calls.
Proof.
  intros Hwf Hcap. destruct (evict_loop lru Hwf) as [[? _]|?]; [lia|done].
Qed.

Lemma evict_Done lru lru' calls :
  wf lru → evict lru = Done (lru', calls) → evicted_to lru lru' calls.
Proof.
  intros Hwf Hev.
  destruct (evict_loop lru Hwf) as [[_ ?]|(s & c & Hev' & Hto)];
    [congruence|].
  rewrite Hev in Hev'. by injection Hev' as <- <-.
Qed.

(** *** The methods on well-formed caches *)

Lemma seg_touch lru k e :
  wf lru → cache lru !! k = Some e →
  ∃ h l1 l2,
    q lru = l1 ++ mkElement h (mkRef k (size e)) :: l2 ∧
    MoveToFront (position e) (q lru)
    = Done (mkElement h (mkRef k (size e)) :: l1 ++ l2).
Proof.
  intros Hwf He.
  destruct (seg_wf_position _ _ _ Hwf He) as (h & Hh & Hin).
  destruct (unlink_elem _ _ (wf_ids _ Hwf) Hin) as (l1 & l2 & Hq & Hu).
  exists h, l1, l2. split; [done|].
  rewrite Hh. unfold MoveToFront. simpl in Hu. by rewrite Hu.
Qed.

Lemma seg_Get_absent lru k :
  cache lru !! k = None → Get k lru = Done (None, false, lru).
Proof. intros Hk. unfold Get. by rewrite Hk. Qed.

Lemma Get_present lru k e :
  wf lru → cache lru !! k = Some e →
  ∃ h l1 l2,
    q lru = l1 ++ mkElement h (mkRef k (size e)) :: l2 ∧
    Get k lru =
      Done (data e, true,
            mkCache (capacity lru) (usedCapacity lru) (cache lru)
                    (mkElement h (mkRef k (size e)) :: l1 ++ l2)
                    (evictedCallback lru) (fresh lru)).
Proof.
  intros Hwf He.
  destruct (seg_touch _ _ _ Hwf He) as (h & l1 & l2 & Hq & Hm).
  exists h, l1, l2. split; [done|].
  unfold Get. rewrite He, Hm. done.
Qed.

Lemma seg_Add_present lru k e d w :
  wf lru → cache lru !! k = Some e →
  ∃ h l1 l2,
    q lru = l1 ++ mkElement h (mkRef k (size e)) :: l2 ∧
    Add k d w lru =
      Done (mkCache (capacity lru) (usedCapacity lru)
              (<[k := mkEntry (SegmentCache.key e) (size e) d
                              (position e)]> (cache lru))
              (mkElement h (mkRef k (size e)) :: l1 ++ l2)
              (evictedCallback lru) (fresh lru), []).
Proof.
  intros Hwf He.
  destruct (seg_touch _ _ _ Hwf He) as (h & l1 & l2 & Hq & Hm).
  exists h, l1, l2. split; [done|].
  unfold Add. rewrite He, Hm. done.
Qed.

(** The cache [Add] hands to [evict] for a key that is not present. *)
Definition inserted k d w lru : t V :=
  mkCache (capacity lru) (wrap64 (usedCapacity lru + w))
          (<[k := mkEntry k w d (Some (fresh lru))]> (cache lru))
          (PushFront (mkRef k w) (fresh lru) (q lru))
          (evictedCallback lru) (Pos.succ (fresh lru)).

Lemma seg_Add_absent lru k d w :
  cache lru !! k = None → Add k d w lru = evict (inserted k d w lru).
Proof. intros Hk. unfold Add. by rewrite Hk. Qed.

(** *** Every call keeps the invariant, and returns when the
    capacity is not negative *)

Definition kept lru lru' : Prop :=
  wf lru' ∧ capacity lru' = capacity lru ∧
  evictedCallback lru' = evictedCallback lru ∧
  (within lru → within lru').

Lemma seg_kept_refl lru : wf lru → kept lru lru.
Proof. by intros Hwf. Qed.

Lemma seg_Get_kept lru k :
  wf lru → ∃ v ok lru', Get k lru = Done (v, ok, lru') ∧ kept lru lru'.
Proof.
  intros Hwf. destruct (cache lru !! k) as [e|] eqn:He.
  - destruct (Get_present _ _ _ Hwf He) as (h & l1 & l2 & Hq & ->).
    eexists _, _, _. split; [done|].
    unfold kept. split_and!; simpl; try done.
    apply seg_wf_reorder; [done|]. rewrite Hq. by rewrite Permutation_middle.
  - rewrite (seg_Get_absent _ _ He).
    eexists _, _, _. split; [done|]. by apply seg_kept_refl.
Qed.

Lemma seg_Add_kept lru k d w lru' calls :
  wf lru → Add k d w lru = Done (lru', calls) → kept lru lru'.
Proof.
  intros Hwf. destruct (cache lru !! k) as [e|] eqn:He.
  - destruct (seg_Add_present _ _ _ d w Hwf He) as (h & l1 & l2 & Hq & ->).
    intros [= <- <-]. unfold kept. split_and!; simpl; try done.
    apply (seg_wf_reorder
             (mkCache (capacity lru) (usedCapacity lru) _ (q lru)
                      (evictedCallback lru) (fresh lru))).
    + by apply seg_wf_set_data.
    + simpl. rewrite Hq. by rewrite Permutation_middle.
  - rewrite (seg_Add_absent _ _ _ _ He). intros Hev.
    apply evict_Done in Hev; [|by apply seg_wf_pushed].
    destruct Hev as (gone & _ & _ & Hwf' & Hw' & Hc' & Hcb' & _).
    unfold kept. by split_and!.
Qed.

Lemma Add_returns lru k d w :
  wf lru → (0 ≤ capacity lru)%Z → ∃ a, Add k d w lru = Done a.
Proof.
  intros Hwf Hcap. destruct (cache lru !! k) as [e|] eqn:He.
  - destruct (seg_Add_present _ _ _ d w Hwf He) as (h & l1 & l2 & Hq & ->).
    eauto.
  - rewrite (seg_Add_absent _ _ _ _ He).
    destruct (evict_returns (inserted k d w lru))
      as (lru' & calls & -> & _); [by apply seg_wf_pushed | done | eauto].
Qed.

Lemma seg_invoke_kept c lru r lru' calls :
  wf lru → invoke c lru = Done (r, lru', calls) → kept lru lru'.
Proof.
  intros Hwf. destruct c as [| | |k|k|k d w|]; simpl;
    try (intros [= <- <- <-]; by apply seg_kept_refl).
  - destruct (seg_Get_kept lru k Hwf) as (v & ok & s & -> & Hk).
    simpl. by intros [= <- <- <-].
  - destruct (Add k d w lru) as [[s calls']|] eqn:Hadd; simpl; [|done].
    intros [= <- <- <-]. by eapply seg_Add_kept.
Qed.

Lemma invoke_returns c lru :
  wf lru → (0 ≤ capacity lru)%Z → ∃ a, invoke c lru = Done a.
Proof.
  intros Hwf Hcap. destruct c as [| | |k|k|k d w|]; simpl; eauto.
  - destruct (seg_Get_kept lru k Hwf) as (v & ok & s & -> & Hk).
    simpl. eauto.
  - destruct (Add_returns lru k d w Hwf Hcap) as [[s calls] ->].
    simpl. eauto.
Qed.

Lemma seg_run_kept cs lru lru' calls :
  wf lru → run cs lru = Done (lru', calls) → kept lru lru'.
Proof.
  revert lru calls. induction cs as [|c cs IH]; intros lru calls Hwf; simpl.
  - intros [= <- <-]. by apply seg_kept_refl.
  - destruct (invoke c lru) as [[[r s1] calls1]|] eqn:Hinv; simpl; [|done].
    destruct (run cs s1) as [[s2 calls2]|] eqn:Hrun; simpl; [|done].
    intros [= <- <-].
    destruct (seg_invoke_kept _ _ _ _ _ Hwf Hinv) as (Hwf1 & Hc1 & Hcb1 & Hw1).
    destruct (IH _ _ Hwf1 Hrun) as (Hwf2 & Hc2 & Hcb2 & Hw2).
    unfold kept. split_and!; try done; try congruence. tauto.
Qed.

Lemma run_returns cs lru :
  wf lru → (0 ≤ capacity lru)%Z → ∃ a, run cs lru = Done a.
Proof.
  revert lru. induction cs as [|c cs IH]; intros lru Hwf Hcap; simpl.
  - eauto.
  - destruct (invoke_returns c lru Hwf Hcap) as [[[r s1] calls1] Hinv].
    rewrite Hinv. simpl.
    destruct (seg_invoke_kept _ _ _ _ _ Hwf Hinv) as (Hwf1 & Hc1 & _).
    destruct (IH s1 Hwf1) as [[s2 calls2] ->]; [lia|]. simpl. eauto.
Qed.

(** *** Weights that are not negative *)

Lemma weight_of_nonneg (m : gmap string (cacheSegmentEntry V)) :
  (∀ k e, m !! k = Some e → (0 ≤ size e)%Z) → (0 ≤ weight_of m)%Z.
Proof.
  induction m as [|k e m Hk IH] using map_ind; intros Hm.
  - done.
  - rewrite weight_of_insert by done.
    assert (0 ≤ size e)%Z by (apply (Hm k); by rewrite lookup_insert_eq).
    assert (0 ≤ weight_of m)%Z; [|lia].
    apply IH. intros k' e' He'. apply (Hm k').
    rewrite lookup_insert_ne; [done|]. intros ->. congruence.
Qed.

Lemma invoke_nonneg c lru r lru' calls :
  wf lru → admissible c → weights_nonneg lru →
  invoke c lru = Done (r, lru', calls) → weights_nonneg lru'.
Proof.
  intros Hwf Hadm Hnn.
  destruct c as [| | |k|k|k d w|]; simpl;
    try (by intros [= <- <- <-]).
  - destruct (cache lru !! k) as [e|] eqn:He.
    + destruct (Get_present _ _ _ Hwf He) as (h & l1 & l2 & Hq & ->).
      simpl. by intros [= <- <- <-].
    + rewrite (seg_Get_absent _ _ He). simpl. by intros [= <- <- <-].
  - destruct (cache lru !! k) as [e|] eqn:He.
    + destruct (seg_Add_present _ _ _ d w Hwf He) as (h & l1 & l2 & Hq & ->).
      simpl. intros [= <- <- <-]. intros k' e'. simpl.
      destruct (decide (k = k')) as [<-|Hne].
      * rewrite lookup_insert_eq. intros [= <-]. simpl. by apply (Hnn k).
      * rewrite lookup_insert_ne by done. apply Hnn.
    + rewrite (seg_Add_absent _ _ _ _ He).
      destruct (evict (inserted k d w lru)) as [[s calls']|] eqn:Hev;
        simpl; [|done].
      intros [= <- <- <-].
      apply evict_Done in Hev; [|by apply seg_wf_pushed].
      destruct Hev as (gone & _ & _ & _ & _ & _ & _ & Hsub & _).
      intros k' e' He'.
      eapply lookup_weaken in He'; [|done]. simpl in He'.
      destruct (decide (k = k')) as [<-|Hne].
      * rewrite lookup_insert_eq in He'. injection He' as <-. simpl.
        by apply Hadm.
      * rewrite lookup_insert_ne in He' by done. by apply (Hnn k').
Qed.

Lemma run_nonneg cs lru lru' calls :
  wf lru → Forall admissible cs → weights_nonneg lru →
  run cs lru = Done (lru', calls) → weights_nonneg lru'.
Proof.
  intros Hwf Hadm. revert lru calls Hwf.
  induction Hadm as [|c cs Hc Hcs IH]; intros lru calls Hwf Hnn; simpl.
  - by intros [= <- <-].
  - destruct (invoke c lru) as [[[r s1] calls1]|] eqn:Hinv; simpl; [|done].
    destruct (run cs s1) as [[s2 calls2]|] eqn:Hrun; simpl; [|done].
    intros [= <- <-].
    destruct (seg_invoke_kept _ _ _ _ _ Hwf Hinv) as (Hwf1 & _).
    apply (IH s1 calls2 Hwf1); [|done].
    by apply (invoke_nonneg c lru r s1 calls1).
Qed.

(** *** Reachable caches *)

Lemma seg_reachable_kept cap cb lru :
  reachable cap cb lru →
  wf lru ∧ capacity lru = cap ∧ evictedCallback lru = cb ∧
  weights_nonneg lru ∧ ((0 ≤ cap)%Z → within lru).
Proof.
  intros (cs & calls & Hadm & Hrun).
  pose proof (wf_NewSegmentCache cap cb) as Hwf0.
  destruct (seg_run_kept _ _ _ _ Hwf0 Hrun) as (Hwf & Hc & Hcb & Hw).
  do 3 (split; [done|]). split.
  - apply (run_nonneg cs _ _ calls Hwf0 Hadm); [|done].
    intros k e He. simpl in He. by rewrite lookup_empty in He.
  - intros Hcap. apply Hw. unfold within. simpl. lia.
Qed.

Lemma run_snoc cs c lru s calls r lru' calls' :
  run cs lru = Done (s, calls) → invoke c s = Done (r, lru', calls') →
  run (cs ++ [c]) lru = Done (lru', calls ++ calls').
Proof.
  revert lru calls. induction cs as [|c' cs IH]; intros s0 calls0; simpl.
  - intros [= -> <-] ->. simpl. by rewrite app_nil_r.
  - destruct (invoke c' s0) as [[[r1 s1] calls1]|]; simpl; [|done].
    destruct (run cs s1) as [[s2 calls2]|] eqn:Hrun; simpl; [|done].
    intros [= -> <-] Hinv. rewrite (IH s1 calls2 Hrun Hinv). simpl.
    by rewrite app_assoc.
Qed.

Lemma seg_reachable_step cap cb lru c r lru' calls :
  reachable cap cb lru → admissible c →
  invoke c lru = Done (r, lru', calls) →
  reachable cap cb lru'.
Proof.
  intros (cs & calls0 & Hadm & Hrun) Hc Hinv.
  exists (cs ++ [c]), (calls0 ++ calls). split.
  - apply Forall_app. split; [done|]. by apply Forall_singleton.
  - by eapply run_snoc.
Qed.

(** *** The index read off the queue *)

Lemma dom_cache lru :
  wf lru →
  dom (cache lru)
  = list_to_set (C:=gset string) ((λ x, ref_key (Value x)) <$> q lru).
Proof.
  intros Hwf. apply set_eq. intros k.
  rewrite elem_of_dom, elem_of_list_to_set, list_elem_of_fmap. split.
  - intros [e He]. destruct (seg_wf_position _ _ _ Hwf He) as (h & _ & Hin).
    by exists (mkElement h (mkRef k (size e))).
  - intros (x & -> & Hx).
    destruct (seg_wf_elem _ _ Hwf Hx) as (e & He & _). by exists e.
Qed.

Lemma queue_weight_nonneg (l : list (Element entryRef)) :
  (∀ x, x ∈ l → (0 ≤ ref_size (Value x))%Z) → (0 ≤ queue_weight l)%Z.
Proof.
  induction l as [|x l IH]; intros Hl; simpl; [done|].
  assert (0 ≤ ref_size (Value x))%Z by (apply Hl, elem_of_cons; by left).
  assert (0 ≤ queue_weight l)%Z; [|lia].
  apply IH. intros y Hy. apply Hl, elem_of_cons. by right.
Qed.

Lemma queue_nonneg lru x :
  wf lru → weights_nonneg lru → x ∈ q lru →
  (0 ≤ ref_size (Value x))%Z.
Proof.
  intros Hwf Hnn Hx. destruct (seg_wf_elem _ _ Hwf Hx) as (e & He & <- & _).
  by apply (Hnn _ _ He).
Qed.

(** *** What [evict] leaves of a freshly inserted entry *)

Lemma inserted_nonneg lru k d w :
  weights_nonneg lru → (0 ≤ w ≤ int64_max)%Z →
  weights_nonneg (inserted k d w lru).
Proof.
  intros Hnn Hw k' e'. simpl. destruct (decide (k = k')) as [<-|Hne].
  - rewrite lookup_insert_eq. by intros [= <-].
  - rewrite lookup_insert_ne by done. apply Hnn.
Qed.

(** An entry whose weight fits the capacity survives its own
    insertion. *)
Lemma seg_Add_absent_stays lru k d w lru' calls :
  wf lru → cache lru !! k = None → is_int64 w → (w ≤ capacity lru)%Z →
  Add k d w lru = Done (lru', calls) →
  wf lru' ∧ cache lru' !! k = Some (mkEntry k w d (Some (fresh lru))).
Proof.
  intros Hwf Hk Hw Hfit. rewrite (seg_Add_absent _ _ _ _ Hk). intros Hev.
  apply evict_Done in Hev; [|by apply seg_wf_pushed].
  destruct Hev as (gone & _ & Hq & Hwf' & _ & _ & _ & Hsub & Hover).
  split; [done|]. simpl in Hq. unfold PushFront in Hq.
  destruct (q lru') as [|y l'] eqn:Hq'.
  - simpl in Hq. symmetry in Hq.
    specialize (Hover [] _ _ Hq). simpl in Hover.
    rewrite Z.add_0_r, wrap64_id in Hover by done. lia.
  - injection Hq as <- _.
    assert (mkElement (fresh lru) (mkRef k w) ∈ q lru') as Hin.
    { rewrite Hq'. apply elem_of_cons. by left. }
    destruct (seg_wf_elem _ _ Hwf' Hin) as (e & He & _). simpl in He.
    rewrite He. f_equal.
    eapply lookup_weaken in He; [|done]. simpl in He.
    rewrite lookup_insert_eq in He. by injection He.
Qed.

(** An entry heavier than the whole capacity empties the cache, as
    long as the exact sum of the weights is an [int64]. *)
Lemma Add_oversized lru k d w :
  wf lru → weights_nonneg lru → (0 ≤ capacity lru)%Z →
  cache lru !! k = None → (0 ≤ w ≤ int64_max)%Z →
  (capacity lru < w)%Z → (total_weight lru + w ≤ int64_max)%Z →
  ∃ lru' calls,
    Add k d w lru = Done (lru', calls) ∧
    q lru' = [] ∧ cache lru' = ∅ ∧ usedCapacity lru' = 0%Z.
Proof.
  intros Hwf Hnn Hcap Hk Hw Hbig Hfits.
  rewrite (seg_Add_absent _ _ _ _ Hk).
  pose proof (seg_wf_pushed lru k d w Hwf Hk) as Hwfm.
  fold (inserted k d w lru) in Hwfm.
  destruct (evict_returns (inserted k d w lru) Hwfm Hcap)
    as (lru' & calls & Hev & gone & _ & Hq & Hwf' & Hw' & Hc' & _).
  exists lru', calls. split; [done|].
  assert (q lru' = []) as Hempty.
  { destruct (q lru') as [|y l'] eqn:Hq'; [done|]. exfalso.
    simpl in Hq. unfold PushFront in Hq. injection Hq as <- Hq.
    pose proof (inserted_nonneg lru k d w Hnn Hw) as Hnnm.
    assert (total_weight (inserted k d w lru)
            = (w + total_weight lru)%Z) as Htot.
    { unfold total_weight. simpl. by rewrite weight_of_insert. }
    rewrite (total_weight_queue _ Hwfm) in Htot. simpl in Htot.
    rewrite Hq, queue_weight_app in Htot.
    assert (0 ≤ queue_weight l')%Z.
    { apply queue_weight_nonneg. intros x Hx.
      apply (queue_nonneg (inserted k d w lru)); [done..|].
      simpl. unfold PushFront. rewrite Hq, elem_of_cons, elem_of_app.
      tauto. }
    assert (0 ≤ queue_weight gone)%Z.
    { apply queue_weight_nonneg. intros x Hx.
      apply (queue_nonneg (inserted k d w lru)); [done..|].
      simpl. unfold PushFront. rewrite Hq, elem_of_cons, elem_of_app.
      tauto. }
    unfold within in Hw'. rewrite (used_queue _ Hwf'), Hq' in Hw'.
    simpl in Hw'. rewrite wrap64_id in Hw'.
    - simpl in Hc'. lia.
    - unfold is_int64, int64_min, int64_max in *. lia. }
  split; [done|]. split.
  - by apply wf_empty_queue.
  - by apply empty_queue_within.
Qed.

(** *** The caches [evict] goes through *)

(** The caches on which the condition of the loop is evaluated: a
    cache between two calls, the cache [Add] hands to [evict], and
    the cache each iteration leaves. *)
Inductive visited (cap : Z) (cb : bool) : t V → Prop :=
| visited_between lru :
    reachable cap cb lru → visited cap cb lru
| visited_inserted lru k d w :
    reachable cap cb lru → cache lru !! k = None →
    (0 ≤ w ≤ int64_max)%Z →
    visited cap cb (inserted k d w lru)
| visited_iteration s l x :
    visited cap cb s → ¬ within s → q s = l ++ [x] →
    visited cap cb (evict_body x l s).

Lemma visited_wf cap cb s :
  visited cap cb s → wf s ∧ capacity s = cap.
Proof.
  induction 1 as [lru Hr|lru k d w Hr Hk Hw|s l x Hv [IH1 IH2] Hw Hq].
  - apply seg_reachable_kept in Hr. tauto.
  - apply seg_reachable_kept in Hr as (Hwf & Hc & _).
    split; [by apply seg_wf_pushed | done].
  - split; [by apply wf_evict_body | done].
Qed.

(** The loop needs no more iterations than the queue has elements. *)
Lemma evict_upto_length n lru :
  wf lru → (0 ≤ capacity lru)%Z → (length (q lru) ≤ n)%nat →
  evict_upto n lru = Some (evict lru).
Proof.
  revert lru. induction n as [|n IH]; intros lru Hwf Hcap Hn.
  - assert (q lru = []) as Hq by (apply nil_length_inv; lia).
    assert (within lru) as Hw.
    { unfold within. rewrite (empty_queue_within _ Hwf Hq). lia. }
    rewrite (seg_evict_within _ Hw). simpl.
    unfold within in Hw. rewrite bool_decide_eq_false_2; [done|lia].
  - destruct (decide (within lru)) as [Hw|Hw].
    + rewrite (seg_evict_within _ Hw). simpl.
      unfold within in Hw. rewrite bool_decide_eq_false_2; [done|lia].
    + destruct (q lru) as [|y l _] eqn:Hq using rev_ind.
      { exfalso. apply Hw. unfold within.
        rewrite (empty_queue_within _ Hwf Hq). lia. }
      rewrite (seg_evict_over _ _ _ Hwf Hq Hw). simpl.
      unfold within in Hw. rewrite bool_decide_eq_true_2 by lia.
      assert (Back (q lru) = Some y) as Hback.
      { unfold Back. rewrite Hq. apply last_snoc. }
      destruct (Remove_Back _ _ (wf_ids _ Hwf) Hback) as (l' & Hq' & Hrem).
      rewrite Hq in Hq'. apply app_inj_tail in Hq' as [<- _].
      unfold Remove in Hrem. rewrite Hback, Hrem.
      rewrite IH; [done| by apply wf_evict_body | done |].
      simpl. rewrite length_app in Hn. simpl in Hn. lia.
Qed.

(** *** The evictions of one [Add], as a client sees them *)

Lemma evicted_in_order mid lru' calls :
  wf mid → evicted_to mid lru' calls →
  evicts_in_order (evictedCallback mid)
    ((λ x, ref_key (Value x)) <$> q mid)
    ((λ x, ref_key (Value x)) <$> q lru')
    (dom (cache mid)) (dom (cache lru')) calls.
Proof.
  intros Hwf (gone & -> & Hq & Hwf' & _ & _ & _ & _ & _).
  pose proof (seg_wf_keys_NoDup _ Hwf) as Hnd.
  rewrite Hq, fmap_app in Hnd.
  apply NoDup_app in Hnd as (_ & Hdisj & Hnd).
  exists ((λ x, ref_key (Value x)) <$> gone). split_and!.
  - by rewrite Hq, fmap_app.
  - unfold callbacks. by rewrite fmap_reverse.
  - done.
  - rewrite (dom_cache _ Hwf), (dom_cache _ Hwf'), Hq, fmap_app.
    rewrite list_to_set_app_L. apply set_eq. intros k.
    rewrite elem_of_difference, elem_of_union, !elem_of_list_to_set.
    split; [|tauto]. intros Hk. split; [tauto|]. by apply Hdisj.
  - intros k Hk. rewrite (dom_cache _ Hwf), Hq, fmap_app.
    rewrite elem_of_list_to_set, elem_of_app. tauto.
Qed.

(** *** Invariants of runs *)

Lemma seg_run_invariant (P : t V → Prop) (ok : call V → Prop) :
  (∀ c (s : t V) r s' calls,
     ok c → P s → invoke c s = Done (r, s', calls) → P s') →
  ∀ cs (s s' : t V) calls,
    Forall ok cs → P s → run cs s = Done (s', calls) → P s'.
Proof.
  intros Hstep cs. induction cs as [|c cs IH]; intros s s' calls Hok Hs; simpl.
  - by intros [= <- <-].
  - apply Forall_cons in Hok as [Hc Hcs].
    destruct (invoke c s) as [[[r s1] calls1]|] eqn:Hinv; simpl; [|done].
    destruct (run cs s1) as [[s2 calls2]|] eqn:Hrun; simpl; [|done].
    intros [= <- <-]. eapply IH; [done| |done]. by eapply Hstep.
Qed.

(** The index changes only in [Add]: the other calls, and [Get],
    leave it as it is. *)
Lemma seg_Get_cache lru k v ok lru' :
  Get k lru = Done (v, ok, lru') → cache lru' = cache lru.
Proof.
  unfold Get. destruct (cache lru !! k) as [e0|].
  - destruct (MoveToFront _ _); simpl; [|done]. by intros [= _ _ <-].
  - by intros [= _ _ <-].
Qed.

(** A stored weight is a weight some [Add] supplied. *)
Lemma invoke_weights (P : Z → Prop) c lru r lru' calls :
  wf lru → (∀ w, call_weight c = Some w → P w) →
  (∀ k e, cache lru !! k = Some e → P (size e)) →
  invoke c lru = Done (r, lru', calls) →
  ∀ k e, cache lru' !! k = Some e → P (size e).
Proof.
  intros Hwf Hc HP.
  destruct c as [| | |k|k|k d w|]; simpl;
    try (by intros [= <- <- <-]).
  - destruct (Get k lru) as [[[v ok] s]|] eqn:Hget; simpl; [|done].
    intros [= <- <- <-]. by rewrite (seg_Get_cache _ _ _ _ _ Hget).
  - destruct (cache lru !! k) as [e|] eqn:He.
    + destruct (seg_Add_present _ _ _ d w Hwf He) as (h & l1 & l2 & Hq & ->).
      simpl. intros [= <- <- <-]. intros k' e'. simpl.
      destruct (decide (k = k')) as [<-|Hne].
      * rewrite lookup_insert_eq. intros [= <-]. simpl. by apply (HP k).
      * rewrite lookup_insert_ne by done. apply HP.
    + rewrite (seg_Add_absent _ _ _ _ He).
      destruct (evict (inserted k d w lru)) as [[s calls']|] eqn:Hev;
        simpl; [|done].
      intros [= <- <- <-].
      apply evict_Done in Hev; [|by apply seg_wf_pushed].
      destruct Hev as (gone & _ & _ & _ & _ & _ & _ & Hsub & _).
      intros k' e' He'.
      eapply lookup_weaken in He'; [|done]. simpl in He'.
      destruct (decide (k = k')) as [<-|Hne].
      * rewrite lookup_insert_eq in He'. injection He' as <-. simpl.
        by apply Hc.
      * rewrite lookup_insert_ne in He' by done. by apply (HP k').
Qed.

(** *** Counting entries on the queue *)

Lemma Len_queue lru : wf lru → Len lru = Z.of_nat (length (q lru)).
Proof.
  intros Hwf. unfold Len. f_equal.
  rewrite <- size_dom, (dom_cache _ Hwf).
  rewrite size_list_to_set by by apply seg_wf_keys_NoDup.
  by rewrite length_fmap.
Qed.

Lemma queue_weight_length (l : list (Element entryRef)) :
  (∀ x, x ∈ l → (1 ≤ ref_size (Value x))%Z) →
  (Z.of_nat (length l) ≤ queue_weight l)%Z.
Proof.
  induction l as [|x l IH]; intros Hl; simpl; [done|].
  assert (1 ≤ ref_size (Value x))%Z by (apply Hl, elem_of_cons; by left).
  assert (Z.of_nat (length l) ≤ queue_weight l)%Z; [|lia].
  apply IH. intros y Hy. apply Hl, elem_of_cons. by right.
Qed.

(** *** Exact accounting *)

(** What the loop of [evict] leaves when the exact sum of the
    weights it starts from is an [int64]: the used capacity is the
    exact sum of the weights left, and that sum is at most the
    capacity. *)
Lemma evicted_weights mid lru' calls :
  wf mid → weights_nonneg mid → (total_weight mid ≤ int64_max)%Z →
  evicted_to mid lru' calls →
  (0 ≤ total_weight lru' ≤ total_weight mid)%Z ∧
  usedCapacity lru' = total_weight lru' ∧
  (total_weight lru' ≤ capacity mid)%Z.
Proof.
  intros Hwf Hnn Hfits (gone & _ & Hq & Hwf' & Hw' & Hc' & _).
  rewrite (total_weight_queue _ Hwf), (total_weight_queue _ Hwf') in *.
  rewrite Hq, queue_weight_app in *.
  assert (0 ≤ queue_weight (q lru'))%Z.
  { apply queue_weight_nonneg. intros x Hx.
    apply (queue_nonneg mid); [done..|].
    rewrite Hq, elem_of_app. tauto. }
  assert (0 ≤ queue_weight gone)%Z.
  { apply queue_weight_nonneg. intros x Hx.
    apply (queue_nonneg mid); [done..|].
    rewrite Hq, elem_of_app. tauto. }
  assert (usedCapacity lru' = queue_weight (q lru')) as Hused.
  { rewrite (used_queue _ Hwf'). apply wrap64_id.
    unfold is_int64, int64_min, int64_max in *. lia. }
  split; [lia|]. split; [done|].
  unfold within in Hw'. lia.
Qed.

(** The caches whose weights, summed exactly, fit the capacity. *)
Definition exact lru : Prop :=
  wf lru ∧ weights_nonneg lru ∧
  (0 ≤ total_weight lru ≤ capacity lru)%Z ∧
  usedCapacity lru = total_weight lru.

(** A call whose weight is not negative and, added to the capacity,
    is an [int64]. *)
Definition fits (cap : Z) (c : call V) : Prop :=
  ∀ w, call_weight c = Some w → (0 ≤ w ∧ cap + w ≤ int64_max)%Z.

Lemma invoke_exact c lru r lru' calls :
  fits (capacity lru) c → exact lru →
  invoke c lru = Done (r, lru', calls) →
  exact lru' ∧ capacity lru' = capacity lru.
Proof.
  intros Hc (Hwf & Hnn & Htot & Hused) Hinv.
  assert (admissible c) as Hadm.
  { intros w Hw. destruct (Hc w Hw). lia. }
  destruct (seg_invoke_kept _ _ _ _ _ Hwf Hinv) as (Hwf' & Hcap' & _).
  pose proof (invoke_nonneg _ _ _ _ _ Hwf Hadm Hnn Hinv) as Hnn'.
  split; [|done]. unfold exact. do 2 (split; [done|]). rewrite Hcap'.
  destruct c as [| | |k|k|k d w|]; simpl in Hinv;
    try (injection Hinv as [= _ <- _]; done).
  - destruct (Get k lru) as [[[v ok] s]|] eqn:Hget; simpl in Hinv; [|done].
    injection Hinv as [= _ <- _].
    pose proof (seg_Get_cache _ _ _ _ _ Hget) as Hcache.
    assert (total_weight s = total_weight lru) as Hsame
      by (unfold total_weight; by rewrite Hcache).
    rewrite Hsame. split; [done|].
    rewrite (wf_used _ Hwf'), Hsame. by rewrite <- (wf_used _ Hwf).
  - destruct (cache lru !! k) as [e|] eqn:He.
    + destruct (seg_Add_present _ _ _ d w Hwf He)
        as (h & l1 & l2 & Hq & Hadd).
      rewrite Hadd in Hinv. simpl in Hinv. injection Hinv as [= _ <- _].
      unfold total_weight. simpl. rewrite (weight_of_set_data _ _ _ _ He).
      done.
    + rewrite (seg_Add_absent _ _ _ _ He) in Hinv.
      destruct (evict (inserted k d w lru)) as [[s calls']|] eqn:Hev;
        simpl in Hinv; [|done].
      injection Hinv as [= _ <- _].
      pose proof (seg_wf_pushed lru k d w Hwf He) as Hwfm.
      fold (inserted k d w lru) in Hwfm.
      apply (evict_Done _ _ _ Hwfm) in Hev.
      destruct (Hc w eq_refl) as [Hw0 Hwfit].
      assert (total_weight (inserted k d w lru)
              = (w + total_weight lru)%Z) as Hmid.
      { unfold total_weight. simpl. by rewrite weight_of_insert. }
      assert (weights_nonneg (inserted k d w lru)) as Hnnm.
      { apply inserted_nonneg; [done|]. by apply Hadm. }
      assert (total_weight (inserted k d w lru) ≤ int64_max)%Z as Hfit
        by (rewrite Hmid; lia).
      destruct (evicted_weights _ _ _ Hwfm Hnnm Hfit Hev)
        as (Hrange & Hu & Hle).
      simpl in Hle. split; [lia|done].
Qed.

Lemma run_exact cap cb cs lru calls :
  (0 ≤ cap)%Z → Forall (fits cap) cs →
  run cs (NewSegmentCache cap cb) = Done (lru, calls) →
  exact lru ∧ capacity lru = cap.
Proof.
  intros Hcap Hcs Hrun.
  apply (seg_run_invariant (λ s, exact s ∧ capacity s = cap) (fits cap)
           ) with (cs := cs) (s := NewSegmentCache cap cb) (calls := calls);
    [|done| |done].
  - intros c s r s' calls' Hc [Hs Hcs'] Hinv.
    destruct (invoke_exact c s r s' calls') as [? ?]; [by rewrite Hcs'|done..|].
    split; [done|congruence].
  - split; [|done]. unfold exact. split; [apply wf_NewSegmentCache|].
    split.
    + intros k e He. simpl in He. by rewrite lookup_empty in He.
    + unfold total_weight. simpl. split; [|done].
      change (weight_of (V:=V) ∅) with 0%Z. lia.
Qed.

(** *** A capacity below zero *)

(** With a negative capacity [Add] on the new cache panics: what it
    pushed is evicted, the used capacity, zero, is still above the
    capacity, and the loop takes the back of an empty queue. *)
Lemma Add_new_panics cap cb k d w :
  (cap < 0)%Z → (0 ≤ w ≤ int64_max)%Z →
  Add k d w (NewSegmentCache (V:=V) cap cb) = Panic.
Proof.
  intros Hcap Hw.
  pose proof (wf_NewSegmentCache cap cb) as Hwf.
  rewrite seg_Add_absent by apply lookup_empty.
  pose proof (seg_wf_pushed _ k d w Hwf (lookup_empty _)) as Hwfm.
  fold (inserted k d w (NewSegmentCache cap cb)) in Hwfm.
  destruct (evict_loop _ Hwfm)
    as [[_ ?]|(s & calls & _ & gone & _ & Hq & Hwf' & Hw' & Hc' & _)];
    [done|exfalso].
  unfold within in Hw'. rewrite (used_queue _ Hwf'), Hc' in Hw'.
  simpl in Hq, Hw'. unfold PushFront in Hq.
  destruct (q s) as [|y [|z l]]; simpl in *.
  - change (wrap64 0) with 0%Z in Hw'. lia.
  - injection Hq as <- _. simpl in Hw'.
    rewrite Z.add_0_r, wrap64_id in Hw';
      unfold is_int64, int64_min, int64_max in *; lia.
  - injection Hq as _ Hq. done.
Qed.

Lemma negative_capacity_new cap cb lru :
  (cap < 0)%Z → reachable cap cb lru → lru = NewSegmentCache cap cb.
Proof.
  intros Hcap (cs & calls & Hadm & Hrun). revert calls Hrun.
  assert (∀ c : call V, admissible c →
            invoke c (NewSegmentCache cap cb) = Panic ∨
            ∃ r, invoke c (NewSegmentCache cap cb)
                 = Done (r, NewSegmentCache cap cb, [])) as Hstep.
  { intros c Hc. destruct c as [| | |k|k|k d w|];
      try (right; eexists; reflexivity).
    left. unfold invoke.
    rewrite Add_new_panics; [done|done|by apply Hc]. }
  induction Hadm as [|c cs Hc Hcs IH]; intros calls.
  - by intros [= <- _].
  - cbn [run]. destruct (Hstep c Hc) as [->|[r ->]]; simpl; [done|].
    destruct (run cs _) as [[s2 calls2]|] eqn:Hrun; simpl; [|done].
    intros [= <- _]. by eapply IH.
Qed.
End facts.
End SegmentFacts.

(** * The properties of the specification *)

Section specification.
Context {V : Type}.

(** C10.  A freshly constructed cache is empty.  Right after [NewCache]
    or [NewSegmentCache], for every key [Get] returns [(nil, false)]
    and leaves the cache as it is, [HasKey] is false, [Len] is zero,
    the queue is empty, the used capacity is zero and [IsPinned]
    returns an error; the size, the capacity and the callback are
    stored as given, whatever they are. *)
Theorem new_caches_are_empty (size capacity : Z) (cb : bool) (key : string) :
  let lru := Cache.NewCache (V:=V) size cb in
  let seg := SegmentCache.NewSegmentCache (V:=V) capacity cb in
  (Cache.Get key lru = Done (None, false, lru) ∧
   Cache.HasKey key lru = false ∧
   Cache.Len lru = 0%Z ∧
   Cache.q lru = [] ∧
   (∃ err, Cache.IsPinned key lru = (false, Some err)) ∧
   Cache.Size lru = size ∧
   Cache.evictedCallback lru = cb) ∧
  (SegmentCache.Get key seg = Done (None, false, seg) ∧
   SegmentCache.HasKey key seg = false ∧
   SegmentCache.Len seg = 0%Z ∧
   SegmentCache.q seg = [] ∧
   SegmentCache.UsedCapacity seg = 0%Z ∧
   SegmentCache.Capacity seg = capacity ∧
   SegmentCache.evictedCallback seg = cb).
Proof.
  simpl. split; split_and!; try done.
  unfold Cache.IsPinned. simpl. rewrite lookup_empty. eauto.
Qed.

(** C9.  [IsPinned] returns an error exactly when the key is absent,
    returns the pinned flag and no error when it is present, and
    leaves the cache as it is; no other public call of either cache
    returns an error. *)
Theorem only_IsPinned_fails :
  (∀ (lru : Cache.t V) key,
     match Cache.cache lru !! key with
     | Some e => Cache.IsPinned key lru = (Cache.pinned e, None)
     | None => ∃ err, Cache.IsPinned key lru = (false, Some err)
     end ∧
     (is_Some (Cache.IsPinned key lru).2 ↔ Cache.HasKey key lru = false) ∧
     Cache.invoke (Cache.CallIsPinned key) lru
     = Done (RetChecked (Cache.IsPinned key lru).1
                        (Cache.IsPinned key lru).2, lru, [])) ∧
  (∀ (lru : Cache.t V) c r lru' calls,
     Cache.invoke c lru = Done (r, lru', calls) →
     is_Some (reply_error r) →
     ∃ key, c = Cache.CallIsPinned key ∧ Cache.HasKey key lru = false) ∧
  (∀ (seg : SegmentCache.t V) c r seg' calls,
     SegmentCache.invoke c seg = Done (r, seg', calls) →
     reply_error r = None).
Proof.
  assert (∀ (lru : Cache.t V) key,
            is_Some (Cache.IsPinned key lru).2 ↔
            Cache.HasKey key lru = false) as Hiff.
  { intros lru key. unfold Cache.IsPinned, Cache.HasKey.
    destruct (Cache.cache lru !! key) as [e|]; simpl.
    - split; [by intros [? ?] | done].
    - split; [done | eauto]. }
  split_and!.
  - intros lru key. split_and!.
    + unfold Cache.IsPinned.
      destruct (Cache.cache lru !! key); [done | eauto].
    + apply Hiff.
    + simpl. by destruct (Cache.IsPinned key lru).
  - intros lru c r lru' calls Hinv Herr.
    destruct c as [| |k|k|k d|k|k|k|]; simpl in Hinv;
      try (injection Hinv as [= <- _ _]; by destruct Herr).
    + destruct (Cache.Get k lru) as [[[v ok] s]|]; [|done].
      injection Hinv as [= <- _ _]. by destruct Herr.
    + destruct (Cache.Add k d lru) as [[s cs]|]; [|done].
      injection Hinv as [= <- _ _]. by destruct Herr.
    + destruct (Cache.Pin k lru) as [s|]; [|done].
      injection Hinv as [= <- _ _]. by destruct Herr.
    + destruct (Cache.Unpin k lru) as [[s cs]|]; [|done].
      injection Hinv as [= <- _ _]. by destruct Herr.
    + exists k. split; [done|]. apply Hiff.
      destruct (Cache.IsPinned k lru) as [b err].
      injection Hinv as [= <- _ _]. done.
  - intros seg c r seg' calls Hinv.
    destruct c as [| | |k|k|k d w|]; simpl in Hinv;
      try (by injection Hinv as [= <- _ _]).
    + destruct (SegmentCache.Get k seg) as [[[v ok] s]|]; [|done].
      by injection Hinv as [= <- _ _].
    + destruct (SegmentCache.Add k d w seg) as [[s cs]|]; [|done].
      by injection Hinv as [= <- _ _].
Qed.

(** C7.  [Get] on a present key returns the stored value and [true]
    and moves the entry to the front of the queue (in [Cache] only
    when it is not pinned); the index, hence the set of keys, every
    stored value and [Len], and the configuration and used capacity
    are as before, and the other elements of the queue keep their
    order.  [Get] on an absent key returns [(nil, false)] and leaves
    the cache as it is. *)
Theorem Get_frame :
  (∀ sz cb (lru : Cache.t V) key,
     Cache.reachable sz cb lru →
     match Cache.cache lru !! key with
     | None => Cache.Get key lru = Done (None, false, lru)
     | Some e =>
         ∃ lru',
           Cache.Get key lru = Done (Cache.data e, true, lru') ∧
           Cache.cache lru' = Cache.cache lru ∧
           Cache.Len lru' = Cache.Len lru ∧
           Cache.size lru' = Cache.size lru ∧
           Cache.evictedCallback lru' = Cache.evictedCallback lru ∧
           if Cache.pinned e then lru' = lru
           else ∃ h l1 l2,
               Cache.q lru = l1 ++ mkElement h key :: l2 ∧
               Cache.q lru' = mkElement h key :: l1 ++ l2
     end) ∧
  (∀ cap cb (seg : SegmentCache.t V) key,
     SegmentCache.reachable cap cb seg →
     match SegmentCache.cache seg !! key with
     | None => SegmentCache.Get key seg = Done (None, false, seg)
     | Some e =>
         ∃ seg' h l1 l2,
           SegmentCache.Get key seg
           = Done (SegmentCache.data e, true, seg') ∧
           SegmentCache.cache seg' = SegmentCache.cache seg ∧
           SegmentCache.Len seg' = SegmentCache.Len seg ∧
           SegmentCache.UsedCapacity seg' = SegmentCache.UsedCapacity seg ∧
           SegmentCache.capacity seg' = SegmentCache.capacity seg ∧
           SegmentCache.evictedCallback seg'
           = SegmentCache.evictedCallback seg ∧
           SegmentCache.q seg
           = l1 ++ mkElement h (SegmentCache.mkRef key (SegmentCache.size e))
                :: l2 ∧
           SegmentCache.q seg'
           = mkElement h (SegmentCache.mkRef key (SegmentCache.size e))
               :: l1 ++ l2
     end).
Proof.
  split.
  - intros sz cb lru key (Hwf & _)%CacheFacts.reachable_kept.
    destruct (Cache.cache lru !! key) as [e|] eqn:He.
    + destruct (Cache.pinned e) eqn:Hp.
      * exists lru. by rewrite (CacheFacts.Get_pinned _ _ _ He Hp).
      * destruct (CacheFacts.Get_unpinned _ _ _ Hwf He Hp)
          as (h & l1 & l2 & Hq & ->).
        eexists. split; [done|]. simpl. split_and!; try done. eauto.
    + by apply CacheFacts.Get_absent.
  - intros cap cb seg key (Hwf & _)%SegmentFacts.seg_reachable_kept.
    destruct (SegmentCache.cache seg !! key) as [e|] eqn:He.
    + destruct (SegmentFacts.Get_present _ _ _ Hwf He)
        as (h & l1 & l2 & Hq & ->).
      eexists _, h, l1, l2. split; [done|]. simpl. by split_and!.
    + by apply SegmentFacts.seg_Get_absent.
Qed.

(** C3.  In every cache reachable from [NewCache] with a size that is
    not negative: the queue holds no key twice and its keys are
    exactly the keys of the unpinned entries of the index, so the two
    are in one-to-one correspondence; the pinned entries are the
    entries without a queue position and never appear in the queue;
    the queue is no longer than the size; and [Len] is the length of
    the queue plus the number of pinned entries, so it exceeds the
    size by no more than that number. *)
Theorem Cache_invariants sz cb (lru : Cache.t V) :
  (0 ≤ sz)%Z → Cache.reachable sz cb lru →
  NoDup (Value <$> Cache.q lru) ∧
  (∀ key, key ∈ Value <$> Cache.q lru ↔
          ∃ e, Cache.cache lru !! key = Some e ∧ Cache.pinned e = false) ∧
  (∀ key e, Cache.cache lru !! key = Some e →
            (Cache.pinned e = true ↔ Cache.position e = None) ∧
            (Cache.pinned e = true → key ∉ Value <$> Cache.q lru)) ∧
  (ContainerList.Len (Cache.q lru) ≤ Cache.Size lru)%Z ∧
  Cache.Size lru = sz ∧
  Cache.Len lru
  = (ContainerList.Len (Cache.q lru)
     + Z.of_nat (CacheFacts.pinned_count lru))%Z ∧
  (Cache.Len lru ≤ sz + Z.of_nat (CacheFacts.pinned_count lru))%Z.
Proof.
  intros Hsz (Hwf & Hsize & _ & Hb)%CacheFacts.reachable_kept.
  specialize (Hb Hsz). unfold CacheFacts.bounded in Hb.
  assert (∀ key, key ∈ Value <$> Cache.q lru ↔
            ∃ e, Cache.cache lru !! key = Some e ∧ Cache.pinned e = false)
    as Hkeys.
  { intros key. rewrite list_elem_of_fmap. split.
    - intros (x & -> & Hx).
      destruct (CacheFacts.wf_elem _ _ Hwf Hx) as (e & He & Hp & _).
      eauto.
    - intros (e & He & Hp).
      destruct (CacheFacts.wf_position _ _ _ Hwf He Hp) as (h & _ & Hin).
      by exists (mkElement h key). }
  pose proof (CacheFacts.Len_split lru Hwf) as Hlen.
  split_and!; try done.
  - by apply CacheFacts.wf_keys_NoDup.
  - intros key e He.
    destruct (CacheFacts.wf_index _ Hwf _ _ He) as [_ Hpos]. split; [done|].
    intros Hp (e' & He' & Hp')%Hkeys. congruence.
  - unfold Cache.Size in *. lia.
Qed.

(** What [evict] does to the cache [mid] it is handed: a queue no
    longer than the size is left alone and no callback is called;
    otherwise the back element alone is unlinked, its entry deleted
    from the index and the callback, if set, called with its key.  At
    most one callback call is made, and when [sz] is not negative the
    queue left is within the size. *)
Definition one_step (sz : Z) (mid : Cache.t V) : Prop :=
  ((ContainerList.Len (Cache.q mid) ≤ Cache.size mid)%Z ∧
   Cache.evict mid = Done (mid, [])
   ∨
   (Cache.size mid < ContainerList.Len (Cache.q mid))%Z ∧
   ∃ l x,
     Cache.q mid = l ++ [x] ∧
     Cache.evict mid
     = Done (Cache.mkCache (Cache.size mid)
               (delete (Value x) (Cache.cache mid)) l
               (Cache.evictedCallback mid) (Cache.fresh mid),
             if Cache.evictedCallback mid then [Value x] else [])) ∧
  ∀ lru' calls,
    Cache.evict mid = Done (lru', calls) →
    (length calls ≤ 1)%nat ∧
    ((0 ≤ sz)%Z →
     (ContainerList.Len (Cache.q lru') ≤ Cache.size lru')%Z).

(** C2, as the code has it.  [evict] runs after [Add] of a key that is
    not present and after [Unpin] of a pinned key, on the cache with
    the entry pushed at the front of the queue, and it is a single
    step, not a loop: see [one_step].  When the size is not negative
    the queue is at most one element over the size at that point, and
    the one step brings it back within the size. *)
Theorem evict_is_one_step sz cb (lru : Cache.t V) key :
  Cache.reachable sz cb lru →
  (∀ data,
     Cache.cache lru !! key = None →
     let mid :=
       Cache.mkCache (Cache.size lru)
         (<[key := Cache.mkEntry key data false (Some (Cache.fresh lru))]>
            (Cache.cache lru))
         (PushFront key (Cache.fresh lru) (Cache.q lru))
         (Cache.evictedCallback lru) (Pos.succ (Cache.fresh lru)) in
     Cache.Add key data lru = Cache.evict mid ∧ one_step sz mid) ∧
  (∀ e,
     Cache.cache lru !! key = Some e → Cache.pinned e = true →
     let mid :=
       Cache.mkCache (Cache.size lru)
         (<[key := Cache.mkEntry key (Cache.data e) false
                     (Some (Cache.fresh lru))]> (Cache.cache lru))
         (PushFront key (Cache.fresh lru) (Cache.q lru))
         (Cache.evictedCallback lru) (Pos.succ (Cache.fresh lru)) in
     Cache.Unpin key lru = Cache.evict mid ∧ one_step sz mid).
Proof.
  intros (Hwf & Hsize & _ & Hb)%CacheFacts.reachable_kept.
  assert (∀ mid,
            CacheFacts.wf mid → Cache.size mid = Cache.size lru →
            Cache.evictedCallback mid = Cache.evictedCallback lru →
            (∃ x, Cache.q mid = x :: Cache.q lru) →
            one_step sz mid) as Hstep.
  { intros mid Hwfm Hsz Hcb Hq. split.
    - destruct (CacheFacts.evict_spec mid Hwfm)
        as [[Hbm Hev]|(Hbm & l & x & Hl & Hev)].
      + destruct Hq as [x ->]. done.
      + left. done.
      + right. unfold CacheFacts.bounded in Hbm. split; [lia|].
        exists l, x. split; [done|]. by rewrite Hev.
    - intros lru' calls Hev.
      destruct (CacheFacts.evict_kept lru mid Hwfm Hsz Hcb Hq)
        as (s & cs & Hev' & (_ & _ & _ & Hb') & Hlen).
      rewrite Hev in Hev'. injection Hev' as [= <- <-].
      split; [done|]. intros Hnn. apply Hb', Hb. lia. }
  split.
  - intros d Hk mid. split; [by apply CacheFacts.Add_absent|].
    apply Hstep; try done; [|by eexists].
    apply CacheFacts.wf_pushed; try done. intros e0. by rewrite Hk.
  - intros e He Hp mid.
    destruct (CacheFacts.wf_index _ Hwf _ _ He) as [Hkey _]. split.
    + rewrite (CacheFacts.Unpin_pinned _ _ _ He Hp). by rewrite Hkey.
    + apply Hstep; try done; [|by eexists].
      apply CacheFacts.wf_pushed; try done.
      intros e0. rewrite He. by intros [= <-].
Qed.

(** C6.  [SegmentCache.Add] on a key that is present moves its entry
    to the front of the queue and replaces its value; the stored
    weight, the used capacity, the set of keys and every other entry
    are as before, whatever weight is supplied, the other elements of
    the queue keep their order, and no eviction runs: no callback is
    called.  [Add] on a key that is not present pushes the entry at
    the front, adds the weight to the used capacity in [int64]
    arithmetic, files the entry in the index and then runs [evict]. *)
Theorem Add_existing_key_frame cap cb (lru : SegmentCache.t V)
    key data weight :
  SegmentCache.reachable cap cb lru →
  match SegmentCache.cache lru !! key with
  | Some e =>
      ∃ lru' h l1 l2,
        SegmentCache.Add key data weight lru = Done (lru', []) ∧
        SegmentCache.q lru
        = l1 ++ mkElement h (SegmentCache.mkRef key (SegmentCache.size e))
             :: l2 ∧
        SegmentCache.q lru'
        = mkElement h (SegmentCache.mkRef key (SegmentCache.size e))
            :: l1 ++ l2 ∧
        SegmentCache.cache lru' !! key
        = Some (SegmentCache.mkEntry (SegmentCache.key e)
                  (SegmentCache.size e) data (SegmentCache.position e)) ∧
        (∀ k, k ≠ key →
              SegmentCache.cache lru' !! k = SegmentCache.cache lru !! k) ∧
        dom (SegmentCache.cache lru') = dom (SegmentCache.cache lru) ∧
        SegmentCache.usedCapacity lru' = SegmentCache.usedCapacity lru ∧
        SegmentCache.total_weight lru' = SegmentCache.total_weight lru ∧
        SegmentCache.capacity lru' = SegmentCache.capacity lru
  | None =>
      ∃ mid,
        SegmentCache.Add key data weight lru = SegmentCache.evict mid ∧
        SegmentCache.q mid
        = mkElement (SegmentCache.fresh lru)
            (SegmentCache.mkRef key weight) :: SegmentCache.q lru ∧
        SegmentCache.usedCapacity mid
        = wrap64 (SegmentCache.usedCapacity lru + weight) ∧
        SegmentCache.cache mid
        = <[key := SegmentCache.mkEntry key weight data
                     (Some (SegmentCache.fresh lru))]>
            (SegmentCache.cache lru) ∧
        SegmentCache.capacity mid = SegmentCache.capacity lru ∧
        SegmentCache.evictedCallback mid = SegmentCache.evictedCallback lru
  end.
Proof.
  intros (Hwf & _)%SegmentFacts.seg_reachable_kept.
  destruct (SegmentCache.cache lru !! key) as [e|] eqn:He.
  - destruct (SegmentFacts.seg_Add_present _ _ _ data weight Hwf He)
      as (h & l1 & l2 & Hq & ->).
    eexists _, h, l1, l2. split; [done|]. simpl. split_and!; try done.
    + by rewrite lookup_insert_eq.
    + intros k Hk. by rewrite lookup_insert_ne.
    + rewrite dom_insert_L. apply elem_of_dom_2 in He.
      apply set_eq. intros k. rewrite elem_of_union, elem_of_singleton.
      split; [intros [->|?]; done | tauto].
    + unfold SegmentCache.total_weight. simpl.
      by apply SegmentFacts.weight_of_set_data.
  - exists (SegmentFacts.inserted key data weight lru).
    split; [by apply SegmentFacts.seg_Add_absent | done].
Qed.

(** C1, as the code has it.  In every cache reachable from
    [NewSegmentCache] with a capacity that is not negative, by calls
    whose weights are not negative: the used capacity is the [int64]
    that the exact sum of the weights of the entries of the index
    wraps to, hence that sum itself whenever it is an [int64]; and the
    used capacity is at most the capacity.  An [Add], for a key that
    is not present, of a weight above the whole capacity returns, as
    long as the exact sum with the new weight is an [int64], with an
    empty cache whose used capacity is zero. *)
Theorem used_capacity_invariant cap cb (lru : SegmentCache.t V) :
  (0 ≤ cap)%Z → SegmentCache.reachable cap cb lru →
  SegmentCache.UsedCapacity lru = wrap64 (SegmentCache.total_weight lru) ∧
  ((SegmentCache.total_weight lru ≤ int64_max)%Z →
   SegmentCache.UsedCapacity lru = SegmentCache.total_weight lru) ∧
  (SegmentCache.UsedCapacity lru ≤ SegmentCache.Capacity lru)%Z ∧
  SegmentCache.Capacity lru = cap ∧
  ∀ key data weight,
    SegmentCache.cache lru !! key = None →
    (0 ≤ weight ≤ int64_max)%Z → (cap < weight)%Z →
    (SegmentCache.total_weight lru + weight ≤ int64_max)%Z →
    ∃ lru' calls,
      SegmentCache.Add key data weight lru = Done (lru', calls) ∧
      SegmentCache.Len lru' = 0%Z ∧
      SegmentCache.q lru' = [] ∧
      SegmentCache.UsedCapacity lru' = 0%Z.
Proof.
  intros Hcap (Hwf & Hc & _ & Hnn & Hw)%SegmentFacts.seg_reachable_kept.
  specialize (Hw Hcap). unfold SegmentCache.UsedCapacity.
  split_and!; try done.
  - apply (SegmentFacts.wf_used _ Hwf).
  - intros Hfits. rewrite (SegmentFacts.wf_used _ Hwf). apply wrap64_id.
    assert (0 ≤ SegmentCache.total_weight lru)%Z.
    { apply SegmentFacts.weight_of_nonneg. intros k e He.
      by apply (Hnn k e He). }
    unfold is_int64, int64_min, int64_max in *. lia.
  - intros key data weight Hk Hwt Hbig Hfits.
    destruct (SegmentFacts.Add_oversized lru key data weight)
      as (lru' & calls & Hadd & Hq & Hcache & Hused); try done; try lia.
    exists lru', calls. split_and!; try done.
    unfold SegmentCache.Len. by rewrite Hcache.
Qed.

(** C4, as the code has it.  [Add] followed at once by [Get] of the
    same key returns the value just added and [true], unless the [Add]
    itself evicted the new entry.  In [Cache] that takes a size of
    zero or less; in [SegmentCache] it takes a weight above the
    capacity, which any capacity allows.  A key that was present
    before the [Add] is never evicted by it. *)
Theorem Add_then_Get :
  (∀ sz cb (lru : Cache.t V) key data,
     Cache.reachable sz cb lru →
     (0 < sz)%Z ∨ is_Some (Cache.cache lru !! key) →
     ∃ lru' calls lru'',
       Cache.Add key data lru = Done (lru', calls) ∧
       Cache.Get key lru' = Done (data, true, lru'')) ∧
  (∀ cap cb (seg : SegmentCache.t V) key data weight,
     (0 ≤ cap)%Z → SegmentCache.reachable cap cb seg → is_int64 weight →
     (weight ≤ cap)%Z ∨ is_Some (SegmentCache.cache seg !! key) →
     ∃ seg' calls seg'',
       SegmentCache.Add key data weight seg = Done (seg', calls) ∧
       SegmentCache.Get key seg' = Done (data, true, seg'')).
Proof.
  split.
  - intros sz cb lru key data Hr Hcase.
    apply CacheFacts.reachable_kept in Hr as (Hwf & Hsize & _ & Hb).
    destruct (CacheFacts.Add_kept lru key data Hwf)
      as (lru' & calls & Hadd & (Hwf' & _) & _).
    exists lru', calls.
    assert (∃ e, Cache.cache lru' !! key = Some e ∧ Cache.data e = data)
      as (e & He & <-).
    { destruct (Cache.cache lru !! key) as [e|] eqn:Hk.
      - destruct (CacheFacts.Add_present _ _ _ data Hwf Hk)
          as (q' & Hadd' & _).
        rewrite Hadd in Hadd'. injection Hadd' as [= ->]. simpl.
        rewrite lookup_insert_eq. eauto.
      - destruct Hcase as [Hsz|[? ?]]; [|done].
        destruct (CacheFacts.Add_absent_stays lru key data lru' calls Hwf)
          as [_ He]; [apply Hb; lia | lia | done | done | eauto]. }
    destruct (Cache.pinned e) eqn:Hp.
    + exists lru'. split; [done|]. by apply CacheFacts.Get_pinned.
    + destruct (CacheFacts.Get_unpinned _ _ _ Hwf' He Hp)
        as (h & l1 & l2 & _ & Hget). eauto.
  - intros cap cb seg key data weight Hcap Hr Hwt Hcase.
    apply SegmentFacts.seg_reachable_kept in Hr as (Hwf & Hc & _).
    destruct (SegmentFacts.Add_returns seg key data weight Hwf)
      as [[seg' calls] Hadd]; [lia|].
    pose proof (SegmentFacts.seg_Add_kept _ _ _ _ _ _ Hwf Hadd)
      as (Hwf' & _).
    exists seg', calls.
    assert (∃ e, SegmentCache.cache seg' !! key = Some e ∧
                 SegmentCache.data e = data) as (e & He & <-).
    { destruct (SegmentCache.cache seg !! key) as [e|] eqn:Hk.
      - destruct (SegmentFacts.seg_Add_present _ _ _ data weight Hwf Hk)
          as (h & l1 & l2 & _ & Hadd').
        rewrite Hadd in Hadd'. injection Hadd' as [= ->]. simpl.
        rewrite lookup_insert_eq. eauto.
      - destruct Hcase as [Hfit|[? ?]]; [|done].
        destruct (SegmentFacts.seg_Add_absent_stays
                    seg key data weight seg' calls Hwf)
          as [_ He]; [done | done | lia | done | eauto]. }
    destruct (SegmentFacts.Get_present _ _ _ Hwf' He)
      as (h & l1 & l2 & _ & Hget). eauto.
Qed.

(** C5.  In both caches the callback, when it is not nil, is called
    once for each evicted entry, with the key of that entry, in the
    order of eviction, which goes from the back of the queue to its
    front: see [evicts_in_order].  The calls are among the results of
    the [Add] or [Unpin] that evicted, so they are made before it
    returns; an [Add] of a key that is present, an [Unpin] of a key
    that is absent or not pinned, and every other public call make no
    callback call. *)
Theorem callback_once_per_eviction :
  (∀ sz cb (lru : Cache.t V) key data lru' calls,
     Cache.reachable sz cb lru →
     Cache.Add key data lru = Done (lru', calls) →
     match Cache.cache lru !! key with
     | Some _ =>
         calls = [] ∧ dom (Cache.cache lru') = dom (Cache.cache lru)
     | None =>
         evicts_in_order cb
           (key :: (Value <$> Cache.q lru)) (Value <$> Cache.q lru')
           ({[key]} ∪ dom (Cache.cache lru)) (dom (Cache.cache lru'))
           calls
     end) ∧
  (∀ sz cb (lru : Cache.t V) key lru' calls,
     Cache.reachable sz cb lru →
     Cache.Unpin key lru = Done (lru', calls) →
     match Cache.cache lru !! key with
     | Some e =>
         if Cache.pinned e then
           evicts_in_order cb
             (key :: (Value <$> Cache.q lru)) (Value <$> Cache.q lru')
             (dom (Cache.cache lru)) (dom (Cache.cache lru')) calls
         else calls = [] ∧ lru' = lru
     | None => calls = [] ∧ lru' = lru
     end) ∧
  (∀ cap cb (seg : SegmentCache.t V) key data weight seg' calls,
     SegmentCache.reachable cap cb seg →
     SegmentCache.Add key data weight seg = Done (seg', calls) →
     match SegmentCache.cache seg !! key with
     | Some _ =>
         calls = [] ∧
         dom (SegmentCache.cache seg') = dom (SegmentCache.cache seg)
     | None =>
         evicts_in_order cb
           (key :: ((λ x, SegmentCache.ref_key (Value x))
                      <$> SegmentCache.q seg))
           ((λ x, SegmentCache.ref_key (Value x)) <$> SegmentCache.q seg')
           ({[key]} ∪ dom (SegmentCache.cache seg))
           (dom (SegmentCache.cache seg')) calls
     end) ∧
  (∀ (lru : Cache.t V) c r lru' calls,
     Cache.invoke c lru = Done (r, lru', calls) → calls ≠ [] →
     (∃ key data, c = Cache.CallAdd key data) ∨
     (∃ key, c = Cache.CallUnpin key)) ∧
  (∀ (seg : SegmentCache.t V) c r seg' calls,
     SegmentCache.invoke c seg = Done (r, seg', calls) → calls ≠ [] →
     ∃ key data weight, c = SegmentCache.CallAdd key data weight).
Proof.
  split_and!.
  - intros sz cb lru key data lru' calls Hr Hadd.
    apply CacheFacts.reachable_kept in Hr as (Hwf & _ & Hcb & _).
    destruct (Cache.cache lru !! key) as [e|] eqn:Hk.
    + destruct (CacheFacts.Add_present _ _ _ data Hwf Hk)
        as (q' & Hadd' & _).
      rewrite Hadd in Hadd'. injection Hadd' as [= -> ->]. simpl.
      split; [done|]. rewrite dom_insert_L. apply elem_of_dom_2 in Hk.
      apply set_eq. intros k. rewrite elem_of_union, elem_of_singleton.
      split; [intros [->|?]; done | tauto].
    + rewrite (CacheFacts.Add_absent _ _ _ Hk) in Hadd.
      apply CacheFacts.evict_in_order in Hadd; simpl in *.
      * by rewrite dom_insert_L, Hcb in Hadd.
      * apply CacheFacts.wf_pushed; try done. intros e0. by rewrite Hk.
      * done.
  - intros sz cb lru key lru' calls Hr Hun.
    apply CacheFacts.reachable_kept in Hr as (Hwf & _ & Hcb & _).
    destruct (Cache.cache lru !! key) as [e|] eqn:Hk.
    + destruct (Cache.pinned e) eqn:Hp.
      * destruct (CacheFacts.wf_index _ Hwf _ _ Hk) as [Hkey _].
        rewrite (CacheFacts.Unpin_pinned _ _ _ Hk Hp), Hkey in Hun.
        apply CacheFacts.evict_in_order in Hun; simpl in *.
        -- rewrite dom_insert_L, Hcb in Hun. apply elem_of_dom_2 in Hk.
           replace ({[key]} ∪ dom (Cache.cache lru))
             with (dom (Cache.cache lru)) in Hun; [done|].
           apply set_eq. intros k.
           rewrite elem_of_union, elem_of_singleton.
           split; [tauto | intros [->|?]; done].
        -- apply CacheFacts.wf_pushed; try done.
           intros e0. rewrite Hk. by intros [= <-].
        -- done.
      * rewrite CacheFacts.Unpin_noop in Hun.
        -- by injection Hun as [= <- <-].
        -- intros e0. rewrite Hk. by intros [= <-].
    + rewrite CacheFacts.Unpin_noop in Hun.
      * by injection Hun as [= <- <-].
      * intros e0. by rewrite Hk.
  - intros cap cb seg key data weight seg' calls Hr Hadd.
    apply SegmentFacts.seg_reachable_kept in Hr as (Hwf & _ & Hcb & _).
    destruct (SegmentCache.cache seg !! key) as [e|] eqn:Hk.
    + destruct (SegmentFacts.seg_Add_present _ _ _ data weight Hwf Hk)
        as (h & l1 & l2 & _ & Hadd').
      rewrite Hadd in Hadd'. injection Hadd' as [= -> ->]. simpl.
      split; [done|]. rewrite dom_insert_L. apply elem_of_dom_2 in Hk.
      apply set_eq. intros k. rewrite elem_of_union, elem_of_singleton.
      split; [intros [->|?]; done | tauto].
    + rewrite (SegmentFacts.seg_Add_absent _ _ _ _ Hk) in Hadd.
      pose proof (SegmentFacts.seg_wf_pushed seg key data weight Hwf Hk)
        as Hwfm.
      apply SegmentFacts.evict_Done in Hadd; [|done].
      apply SegmentFacts.evicted_in_order in Hadd; [|done].
      simpl in Hadd. by rewrite dom_insert_L, Hcb in Hadd.
  - intros lru c r lru' calls Hinv Hcalls.
    destruct c as [| |k|k|k d|k|k|k|]; simpl in Hinv; eauto;
      try (by injection Hinv as [= _ _ <-]).
    + destruct (Cache.Get k lru) as [[[v ok] s]|]; [|done].
      by injection Hinv as [= _ _ <-].
    + destruct (Cache.Pin k lru) as [s|]; [|done].
      by injection Hinv as [= _ _ <-].
    + destruct (Cache.IsPinned k lru).
      by injection Hinv as [= _ _ <-].
  - intros seg c r seg' calls Hinv Hcalls.
    destruct c as [| | |k|k|k d w|]; simpl in Hinv; eauto;
      try (by injection Hinv as [= _ _ <-]).
    destruct (SegmentCache.Get k seg) as [[[v ok] s]|]; [|done].
    by injection Hinv as [= _ _ <-].
Qed.

(** X14.  Termination, the mutex apart.  With a capacity that is not
    negative and weights that are not negative, whenever the condition
    of the loop of [SegmentCache.evict] holds the queue is not empty,
    so the loop never removes the back of an empty queue: it returns,
    after no more iterations than the queue has elements.  Hence every
    public call of [SegmentCache] returns, whatever weight it
    supplies; and so does every public call of the copy of [Cache]
    without mutex, whatever its size. *)
Theorem operations_terminate :
  (∀ cap cb (s : SegmentCache.t V),
     (0 ≤ cap)%Z → SegmentFacts.visited cap cb s →
     ((SegmentCache.capacity s < SegmentCache.usedCapacity s)%Z →
      SegmentCache.q s ≠ []) ∧
     ∃ r, SegmentCache.evict s = Done r ∧
          SegmentCache.evict_upto (length (SegmentCache.q s)) s
          = Some (Done r)) ∧
  (∀ cap cb (seg : SegmentCache.t V) c,
     (0 ≤ cap)%Z → SegmentCache.reachable cap cb seg →
     ∃ r, SegmentCache.invoke c seg = Done r) ∧
  (∀ sz cb (lru : Cache.t V) c,
     Cache.reachable sz cb lru → ∃ r, Cache.invoke c lru = Done r).
Proof.
  split_and!.
  - intros cap cb s Hcap [Hwf Hc]%SegmentFacts.visited_wf. split.
    + intros Hover Hq.
      rewrite (SegmentFacts.empty_queue_within _ Hwf Hq) in Hover. lia.
    + destruct (SegmentFacts.evict_returns s Hwf)
        as (s' & calls & Hev & _); [lia|].
      exists (s', calls). split; [done|].
      rewrite SegmentFacts.evict_upto_length; try done; [|lia].
      by rewrite Hev.
  - intros cap cb seg c Hcap (Hwf & Hc & _)%SegmentFacts.seg_reachable_kept.
    apply SegmentFacts.invoke_returns; [done | lia].
  - intros sz cb lru c (Hwf & _)%CacheFacts.reachable_kept.
    destruct (CacheFacts.invoke_kept c lru Hwf) as (r & s & cs & Hinv & _).
    eauto.
Qed.

(** C8, where the code falls short of it.  In the copy of [Cache]
    with a mutex, [Unpin] of a key that is absent or not pinned
    returns without releasing the mutex it took: the cache is as it
    was but for the mutex, which is held.  Every public call made
    after that waits in [Lock] and does not return, so no sequence of
    calls that goes on after such an [Unpin] comes to an end. *)
Theorem locked_Unpin_keeps_the_mutex (lru : LockedCache.t V) key c cs :
  LockedCache.lock lru = false →
  (∀ e, Cache.cache (LockedCache.fields lru) !! key = Some e →
        Cache.pinned e = false) →
  ∃ lru',
    LockedCache.Unpin key lru = Returns (lru', []) ∧
    LockedCache.fields lru' = LockedCache.fields lru ∧
    LockedCache.lock lru' = true ∧
    LockedCache.invoke c lru' = Blocks ∧
    LockedCache.run (Cache.CallUnpin key :: c :: cs) lru = Blocks.
Proof.
  destruct lru as [s held]. simpl. intros -> Hkey.
  pose proof (LockedFacts.locked_Unpin_noop key s Hkey) as Hunpin.
  exists (LockedCache.mkLocked s true). split; [done|].
  do 2 (split; [done|]). split.
  - apply LockedFacts.invoke_held.
  - change (LockedCache.run (Cache.CallUnpin key :: c :: cs)
              (LockedCache.mkLocked s false))
      with ('(_, lru', calls) ←
              ('(lru', calls) ← LockedCache.Unpin key
                                  (LockedCache.mkLocked s false);
               Returns (RetNothing, lru', calls));
            '(lru'', calls') ← LockedCache.run (c :: cs) lru';
            Returns (lru'', calls ++ calls')).
    rewrite Hunpin. simpl. by rewrite LockedFacts.invoke_held.
Qed.
End specification.

(** * Further properties of [Cache] *)

Module CacheLaws.
Import Cache CacheFacts.

Section laws.
Context {V : Type}.
Implicit Types (lru : t V) (e : cacheEntry V) (k key : string).

(** X1.  [Pin] touches one entry and one queue element.  On a key that
    is absent or already pinned it leaves the cache as it is.  On an
    unpinned key it marks the entry pinned and clears its position,
    keeping its key and value; every other entry, the set of keys
    and [Len] are as before; the element of the key leaves the
    queue and the other elements keep their order. *)
Theorem Pin_frame sz cb lru key :
  reachable sz cb lru →
  match cache lru !! key with
  | None => Pin key lru = Done lru
  | Some e =>
      if pinned e then Pin key lru = Done lru
      else
        ∃ lru' h l1 l2,
          Pin key lru = Done lru' ∧
          q lru = l1 ++ mkElement h key :: l2 ∧
          q lru' = l1 ++ l2 ∧
          cache lru' !! key
          = Some (mkEntry (Cache.key e) (data e) true None) ∧
          (∀ k, k ≠ key → cache lru' !! k = cache lru !! k) ∧
          dom (cache lru') = dom (cache lru) ∧
          Len lru' = Len lru ∧
          Size lru' = Size lru
  end.
Proof.
  intros (Hwf & _)%reachable_kept.
  destruct (cache lru !! key) as [e|] eqn:He.
  - destruct (pinned e) eqn:Hp.
    + apply Pin_noop. intros e'. rewrite He. by intros [= <-].
    + destruct (Pin_unpinned _ _ _ Hwf He Hp) as (h & l1 & l2 & Hq & ->).
      eexists _, h, l1, l2. split; [done|]. simpl. split_and!; try done.
      * by rewrite lookup_insert_eq.
      * intros k Hk. by rewrite lookup_insert_ne.
      * rewrite dom_insert_L. apply elem_of_dom_2 in He.
        apply set_eq. intros k. rewrite elem_of_union, elem_of_singleton.
        split; [intros [->|?]; done | tauto].
      * unfold Len. simpl. f_equal.
        rewrite map_size_insert_Some; [done|]. by rewrite He.
  - apply Pin_noop. intros e'. by rewrite He.
Qed.

(** X2.  After [Pin] of a present key, [IsPinned] returns [true] and no
    error, and a second [Pin] changes nothing. *)
Theorem Pin_then_IsPinned sz cb lru key :
  reachable sz cb lru → HasKey key lru = true →
  ∃ lru',
    Pin key lru = Done lru' ∧
    IsPinned key lru' = (true, None) ∧
    Pin key lru' = Done lru'.
Proof.
  intros (Hwf & _)%reachable_kept Hkey.
  unfold HasKey in Hkey. apply bool_decide_eq_true in Hkey as [e He].
  assert (∀ s, (∃ e', cache s !! key = Some e' ∧ pinned e' = true) →
               IsPinned key s = (true, None) ∧ Pin key s = Done s)
    as Hpinned.
  { intros s (e' & He' & Hp'). split.
    - unfold IsPinned. by rewrite He', Hp'.
    - apply Pin_noop. intros e''. rewrite He'. by intros [= <-]. }
  destruct (pinned e) eqn:Hp.
  - exists lru. split; [|apply Hpinned; eauto].
    apply Pin_noop. intros e'. rewrite He. by intros [= <-].
  - destruct (Pin_unpinned _ _ _ Hwf He Hp) as (h & l1 & l2 & Hq & ->).
    eexists. split; [done|]. apply Hpinned. simpl.
    rewrite lookup_insert_eq. eauto.
Qed.

(** X3.  A pinned entry is never evicted.  Through any sequence of public
    calls that does not [Unpin] the key, the key stays in the
    cache, pinned, and the callback is never called with it; and if
    the sequence does not [Add] the key either, its value is as
    before. *)
Theorem pinned_is_never_evicted sz cb lru key e cs lru' calls :
  reachable sz cb lru →
  cache lru !! key = Some e → pinned e = true →
  (∀ c, c ∈ cs → c ≠ CallUnpin key) →
  run cs lru = Done (lru', calls) →
  (key ∉ calls) ∧
  ∃ e', cache lru' !! key = Some e' ∧ pinned e' = true ∧
        ((∀ c d, c ∈ cs → c ≠ CallAdd key d) → data e' = data e).
Proof.
  intros (Hwf & _)%reachable_kept. clear sz cb.
  revert lru e calls Hwf.
  induction cs as [|c cs IH]; intros lru e calls Hwf He Hp Hcs; simpl.
  - intros [= <- <-]. split; [apply not_elem_of_nil | eauto].
  - destruct (invoke c lru) as [[[r s1] calls1]|] eqn:Hinv; simpl; [|done].
    destruct (run cs s1) as [[s2 calls2]|] eqn:Hrun; simpl; [|done].
    intros [= <- <-].
    destruct (invoke_kept c lru Hwf) as (r' & s' & cs' & Hinv' & Hwf1 & _).
    rewrite Hinv in Hinv'. injection Hinv' as [= <- <- <-].
    destruct (invoke_keeps_pinned c lru r s1 calls1 key e Hwf He Hp)
      as (Hnot1 & e1 & He1 & Hp1 & Hd1); [|done|].
    { apply Hcs, elem_of_cons. by left. }
    destruct (IH s1 e1 calls2 Hwf1 He1 Hp1) as (Hnot2 & e2 & He2 & Hp2 & Hd2);
      [|done|].
    { intros c' Hc'. apply Hcs, elem_of_cons. by right. }
    split.
    + rewrite elem_of_app. tauto.
    + exists e2. split_and!; try done. intros Hadd.
      rewrite Hd2, Hd1; [done| |].
      * intros d. apply Hadd, elem_of_cons. by left.
      * intros c' d Hc'. apply Hadd, elem_of_cons. by right.
Qed.

(** X4.  [Pin] followed by [Unpin] of an unpinned key, in a cache whose
    size is not negative, evicts nothing: no callback is called, the
    keys and every other entry are as before, the entry keeps its
    value and is unpinned again, and the key is now at the front of
    the queue, ahead of the other keys in their old order. *)
Theorem Pin_then_Unpin sz cb lru key e :
  (0 ≤ sz)%Z → reachable sz cb lru →
  cache lru !! key = Some e → pinned e = false →
  ∃ lru1 lru2 h l1 l2,
    Pin key lru = Done lru1 ∧
    Unpin key lru1 = Done (lru2, []) ∧
    q lru = l1 ++ mkElement h key :: l2 ∧
    Value <$> q lru2 = key :: (Value <$> l1 ++ l2) ∧
    (∃ e2, cache lru2 !! key = Some e2 ∧ pinned e2 = false ∧
           data e2 = data e) ∧
    (∀ k, k ≠ key → cache lru2 !! k = cache lru !! k) ∧
    dom (cache lru2) = dom (cache lru).
Proof.
  intros Hsz (Hwf & Hsize & _ & Hb)%reachable_kept He Hp.
  specialize (Hb Hsz).
  destruct (Pin_unpinned _ _ _ Hwf He Hp) as (h & l1 & l2 & Hq & Hpin).
  pose proof (wf_pinned _ _ _ _ _ _ Hwf He Hp Hq) as Hwf1.
  destruct (wf_index _ Hwf _ _ He) as [Hkey _].
  eexists _, _, h, l1, l2. split; [exact Hpin|].
  set (lru1 := mkCache _ _ (l1 ++ l2) _ _) in *.
  assert (cache lru1 !! key = Some (mkEntry (Cache.key e) (data e) true None))
    as He1 by (simpl; by rewrite lookup_insert_eq).
  rewrite (Unpin_pinned lru1 key _ He1 eq_refl). simpl.
  rewrite evict_within.
  - split; [done|]. simpl. split_and!; try done.
    + unfold PushFront. by rewrite Hkey.
    + rewrite lookup_insert_eq. eauto.
    + intros k Hk. by rewrite !lookup_insert_ne.
    + rewrite !dom_insert_L. apply elem_of_dom_2 in He.
      apply set_eq. intros k. rewrite !elem_of_union, elem_of_singleton.
      split; [intros [->|[->|?]]; done | tauto].
  - unfold bounded, ContainerList.Len in *. simpl.
    rewrite Hq in Hb. rewrite !length_app in *. simpl in Hb. lia.
Qed.

(** X5.  Pinned members do not count in the size: after [Pin] of an
    unpinned key, in a cache whose size is not negative, an [Add]
    of a new key evicts nothing and [Len] grows by one. *)
Theorem Pin_frees_a_slot sz cb lru key e key' data' :
  (0 ≤ sz)%Z → reachable sz cb lru →
  cache lru !! key = Some e → pinned e = false →
  cache lru !! key' = None →
  ∃ lru1 lru2,
    Pin key lru = Done lru1 ∧
    Add key' data' lru1 = Done (lru2, []) ∧
    Len lru2 = (Len lru + 1)%Z ∧
    dom (cache lru2) = {[key']} ∪ dom (cache lru).
Proof.
  intros Hsz (Hwf & Hsize & _ & Hb)%reachable_kept He Hp Hnew.
  specialize (Hb Hsz).
  destruct (Pin_unpinned _ _ _ Hwf He Hp) as (h & l1 & l2 & Hq & Hpin).
  eexists _, _. split; [exact Hpin|].
  assert (key' ≠ key) as Hne by congruence.
  rewrite Add_absent by (simpl; by rewrite lookup_insert_ne).
  rewrite evict_within.
  - split; [done|]. simpl. split.
    + unfold Len. simpl.
      rewrite map_size_insert_None by by rewrite lookup_insert_ne.
      rewrite map_size_insert_Some by by rewrite He. lia.
    + rewrite !dom_insert_L. apply elem_of_dom_2 in He.
      apply set_eq. intros k. rewrite !elem_of_union, !elem_of_singleton.
      split; [intros [->|[->|?]]; tauto | tauto].
  - unfold bounded, ContainerList.Len in *. simpl.
    rewrite Hq in Hb. rewrite !length_app in *. simpl in Hb. lia.
Qed.

(** X6.  A size of zero or less is not refused, and the cache then keeps
    nothing: every reachable cache is empty, and [Add] evicts the
    very entry it adds, calling the callback with its key. *)
Theorem nonpositive_size_keeps_nothing sz cb lru :
  (sz ≤ 0)%Z → reachable sz cb lru →
  Len lru = 0%Z ∧ q lru = [] ∧
  ∀ key data,
    ∃ lru',
      Add key data lru = Done (lru', if cb then [key] else []) ∧
      Len lru' = 0%Z ∧ HasKey key lru' = false.
Proof.
  intros Hsz (cs & calls & Hrun).
  set (P := λ s : t V, cache s = ∅ ∧ q s = [] ∧ size s = sz ∧
                       evictedCallback s = cb).
  assert (∀ s key data,
            P s →
            ∃ s', Add key data s = Done (s', if cb then [key] else []) ∧
                  P s') as Hadd.
  { intros s key data (Hc & Hq & Hs & Hcb).
    unfold Add, evict, notify. rewrite Hc, lookup_empty. simpl.
    rewrite Hq, Hs, Hcb. unfold ContainerList.Len. simpl.
    rewrite bool_decide_eq_true_2 by lia.
    rewrite decide_True by done. simpl.
    eexists. split; [done|]. unfold P. simpl.
    rewrite insert_empty, delete_singleton_eq. done. }
  assert (P lru) as Hlru.
  { apply (run_invariant P) with (cs := cs) (s := NewCache sz cb)
                                 (calls := calls); [|done|done].
    intros c s r s' calls' Hs.
    pose proof Hs as (Hc & Hq & Hsize & Hcb).
    destruct c as [| |k|k|k d|k|k|k|]; simpl;
      try (by intros [= _ <- _]).
    - unfold Get. rewrite Hc, lookup_empty. by intros [= _ <- _].
    - destruct (Hadd s k d Hs) as (s1 & -> & Hs1). simpl.
      by intros [= _ <- _].
    - unfold Pin. rewrite Hc, lookup_empty. simpl. by intros [= _ <- _].
    - unfold Unpin. rewrite Hc, lookup_empty. simpl. by intros [= _ <- _].
    - destruct (IsPinned k s). by intros [= _ <- _]. }
  pose proof Hlru as (Hc & Hq & _).
  split; [by unfold Len; rewrite Hc|]. split; [done|].
  intros key data. destruct (Hadd lru key data Hlru) as (s' & Hs' & Hc' & _).
  exists s'. split; [done|]. unfold Len, HasKey. rewrite Hc'.
  split; [done|]. rewrite lookup_empty.
  apply bool_decide_eq_false_2. by intros [? ?].
Qed.

(** X7.  A key that was just read survives the next insertion when the
    size is at least two: after [Get] of a present key, [Add] of any
    key leaves the key that was read in the cache and does not call
    the callback with it. *)
Theorem read_key_survives_next_Add sz cb lru key key' data' :
  (2 ≤ sz)%Z → reachable sz cb lru → HasKey key lru = true →
  ∃ v lru1 lru2 calls,
    Get key lru = Done (v, true, lru1) ∧
    Add key' data' lru1 = Done (lru2, calls) ∧
    HasKey key lru2 = true ∧ (key ∉ calls).
Proof.
  intros Hsz (Hwf & Hsize & _)%reachable_kept Hkey.
  unfold HasKey in Hkey. apply bool_decide_eq_true in Hkey as [e He].
  assert (∀ s : t V, is_Some (cache s !! key) → HasKey key s = true) as Hhas.
  { intros s Hs. unfold HasKey. by apply bool_decide_eq_true. }
  destruct (pinned e) eqn:Hp.
  - exists (data e), lru. rewrite (Get_pinned _ _ _ He Hp).
    destruct (Add_kept lru key' data' Hwf) as (lru2 & calls & Hadd & _).
    exists lru2, calls. split; [done|]. split; [done|].
    destruct (invoke_keeps_pinned (CallAdd key' data') lru RetNothing
                lru2 calls key e Hwf He Hp)
      as (Hnot & e' & He' & _); [done|by simpl; rewrite Hadd|].
    split; [|done]. apply Hhas. eauto.
  - destruct (Get_unpinned _ _ _ Hwf He Hp) as (h & l1 & l2 & Hq & Hget).
    pose (lru1 := mkCache (size lru) (cache lru)
                    (mkElement h key :: l1 ++ l2)
                    (evictedCallback lru) (fresh lru)).
    exists (data e), lru1. rewrite Hget.
    assert (wf lru1) as Hwf1.
    { apply wf_reorder; [done|]. rewrite Hq. by rewrite Permutation_middle. }
    destruct (cache lru !! key') as [e'|] eqn:He'.
    + destruct (Add_present lru1 key' e' data' Hwf1 He') as (q' & Hadd & _).
      eexists _, _. split; [done|]. split; [exact Hadd|].
      split; [|apply not_elem_of_nil]. apply Hhas. simpl.
      destruct (decide (key' = key)) as [->|Hne].
      * rewrite lookup_insert_eq. eauto.
      * rewrite lookup_insert_ne by done. eauto.
    + assert (key' ≠ key) as Hne by congruence.
      pose proof (Add_absent lru1 key' data' He') as Hadd.
      set (mid := mkCache _ _ _ _ _) in Hadd.
      assert (wf mid) as Hwfm.
      { apply wf_pushed; try done. intros e0. simpl. by rewrite He'. }
      destruct (evict_spec mid Hwfm) as [[_ Hev]|(Hnb & l & x & Hl & Hev)];
        [done| |]; rewrite Hev in Hadd; eexists _, _; (split; [done|]);
        (split; [exact Hadd|]).
      * split; [|apply not_elem_of_nil]. apply Hhas. simpl.
        rewrite lookup_insert_ne by done. eauto.
      * assert (Value x ≠ key) as Hx.
        { intros Hvx.
          assert (x = mkElement h key) as ->.
          { apply (wf_keys_inj mid); try done.
            - rewrite Hl. apply elem_of_app. right.
              by apply elem_of_cons; left.
            - simpl. unfold PushFront. rewrite !elem_of_cons. tauto. }
          simpl in Hl. unfold PushFront in Hl.
          destruct l as [|a l]; [done|]. simpl in Hl.
          injection Hl as <- Hl.
          destruct l as [|y l]; simpl in Hl.
          - injection Hl as Hl. apply app_eq_nil in Hl as [-> ->].
            unfold bounded, ContainerList.Len in Hnb. simpl in Hnb. lia.
          - injection Hl as <- Hl.
            pose proof (wf_ids _ Hwfm) as Hnd. simpl in Hnd.
            unfold PushFront in Hnd. rewrite Hl in Hnd. simpl in Hnd.
            apply NoDup_cons in Hnd as [_ [Hnot _]%NoDup_cons].
            apply Hnot. rewrite fmap_app. apply elem_of_app. right.
            simpl. apply elem_of_cons. by left. }
        split.
        -- apply Hhas. simpl. rewrite lookup_delete_ne by done.
           rewrite lookup_insert_ne by done. eauto.
        -- unfold notify. destruct (evictedCallback mid).
           ++ intros ->%list_elem_of_singleton. done.
           ++ apply not_elem_of_nil.
Qed.

(** X8.  First in, first out.  After [Add] of distinct keys to a new
    cache, with no other call in between, the queue holds the keys
    added last, the newest first, as many as the size allows, and
    the callback, when there is one, was called with the other keys,
    the oldest first. *)
Theorem Adds_are_first_in_first_out sz cb (kvs : list (string * option V))
    lru calls :
  NoDup kvs.*1 →
  run ((λ kv, CallAdd kv.1 kv.2) <$> kvs) (NewCache sz cb)
  = Done (lru, calls) →
  Value <$> q lru = take (Z.to_nat sz) (reverse kvs.*1) ∧
  calls = (if cb then take (length kvs - Z.to_nat sz) kvs.*1 else []) ∧
  dom (cache lru) = list_to_set (Value <$> q lru).
Proof.
  intros Hnd Hrun.
  assert (wf lru ∧ size lru = sz ∧ evictedCallback lru = cb ∧
          (∀ k e, cache lru !! k = Some e → pinned e = false) ∧
          ∃ gone,
            calls = (if cb then gone else []) ∧
            (Value <$> q lru) ++ reverse gone = reverse kvs.*1 ∧
            length (q lru) = Nat.min (Z.to_nat sz) (length kvs))
    as (Hwf & _ & _ & Hunp & gone & Hcalls & Hq & Hlen).
  { revert lru calls Hrun.
    induction kvs as [|[k d] kvs IH] using rev_ind; intros lru calls.
    - simpl. intros [= <- <-]. split; [apply wf_NewCache|].
      do 2 (split; [done|]). split.
      + intros k e. simpl. by rewrite lookup_empty.
      + exists []. simpl. split; [by destruct cb|].
        split; [done|]. by rewrite Nat.min_0_r.
    - rewrite fmap_app in Hnd. apply NoDup_app in Hnd as (Hnd & Hnew & _).
      rewrite fmap_app, run_app. simpl.
      destruct (run _ (NewCache sz cb)) as [[s0 calls0]|] eqn:Hrun0;
        simpl; [|done].
      destruct (IH Hnd s0 calls0 eq_refl)
        as (Hwf0 & Hsz0 & Hcb0 & Hunp0 & gone & -> & Hq0 & Hlen0).
      assert (cache s0 !! k = None) as Hk.
      { destruct (cache s0 !! k) as [e|] eqn:He; [|done]. exfalso.
        destruct (wf_position _ _ _ Hwf0 He (Hunp0 _ _ He)) as (h & _ & Hin).
        apply (Hnew k); [|simpl; apply elem_of_cons; by left].
        apply elem_of_reverse. rewrite <- Hq0. apply elem_of_app. left.
        apply list_elem_of_fmap. by exists (mkElement h k). }
      rewrite (Add_absent _ _ _ Hk). set (mid := mkCache _ _ _ _ _).
      assert (wf mid) as Hwfm.
      { apply wf_pushed; try done. intros e0. by rewrite Hk. }
      assert (∀ k' e, cache mid !! k' = Some e → pinned e = false) as Hunpm.
      { intros k' e. simpl. destruct (decide (k = k')) as [<-|Hne].
        - rewrite lookup_insert_eq. by intros [= <-].
        - rewrite lookup_insert_ne by done. apply Hunp0. }
      assert (reverse (kvs ++ [(k, d)]).*1 = k :: reverse kvs.*1) as Hrev.
      { rewrite fmap_app. simpl. by rewrite reverse_snoc. }
      assert (length (kvs ++ [(k, d)]) = S (length kvs)) as Hlensnoc.
      { rewrite length_app. simpl. lia. }
      rewrite Hrev, Hlensnoc.
      destruct (evict_spec mid Hwfm) as [[Hb Hev]|(Hnb & l & x & Hl & Hev)];
        [done| |]; rewrite Hev; simpl; intros [= <- <-].
      + split; [done|]. do 2 (split; [done|]). split; [done|].
        exists gone. rewrite app_nil_r. split; [done|].
        unfold bounded, ContainerList.Len, mid, PushFront in Hb.
        unfold mid, PushFront. simpl in Hb. simpl.
        split; [f_equal; exact Hq0|]. lia.
      + split; [by apply (wf_evicted mid)|]. do 2 (split; [done|]). split.
        { intros k' e He. simpl in He.
          apply lookup_delete_Some in He as [_ He]. by apply (Hunpm k'). }
        exists (gone ++ [Value x]). split.
        { unfold notify. simpl. rewrite Hcb0. by destruct cb. }
        unfold bounded, ContainerList.Len, mid, PushFront in Hnb.
        unfold mid, PushFront in Hl. simpl in Hl, Hnb.
        assert (k :: (Value <$> q s0) = (Value <$> l) ++ [Value x]) as Hkeys.
        { change (k :: (Value <$> q s0))
            with (Value <$> (mkElement (fresh s0) k :: q s0)).
          by rewrite Hl, fmap_app. }
        split.
        * rewrite reverse_snoc.
          rewrite <- Hq0, app_comm_cons, Hkeys, <- app_assoc. done.
        * apply (f_equal length) in Hl. simpl in Hl.
          rewrite length_app in Hl. simpl in Hl. simpl. lia. }
  assert (length (Value <$> q lru)
          = Nat.min (Z.to_nat sz) (length (reverse kvs.*1))) as Hlen'.
  { by rewrite length_fmap, length_reverse, length_fmap. }
  assert (Value <$> q lru = take (Z.to_nat sz) (reverse kvs.*1)) as Hqueue.
  { rewrite <- Hq.
    destruct (decide (Z.to_nat sz ≤ length (Value <$> q lru))) as [Hle|Hgt].
    - rewrite take_app_le by done. rewrite take_ge; [done|].
      rewrite Hlen'. lia.
    - rewrite take_ge; [|rewrite <- Hq in Hlen'; rewrite length_app in *; lia].
      assert (length (reverse gone) = 0) as Hnil.
      { rewrite <- Hq in Hlen'. rewrite length_app in Hlen'. lia. }
      apply nil_length_inv in Hnil. rewrite Hnil. by rewrite app_nil_r. }
  split; [done|]. split.
  - rewrite Hcalls. destruct cb; [|done].
    rewrite <- (reverse_involutive gone).
    assert (reverse gone = drop (Z.to_nat sz) (reverse kvs.*1)) as ->.
    { rewrite <- Hq.
      destruct (decide (Z.to_nat sz ≤ length (Value <$> q lru))) as [Hle|Hgt].
      - assert (length (Value <$> q lru) = Z.to_nat sz) as Heq
          by (rewrite Hlen'; lia).
        by rewrite <- Heq, drop_app_length.
      - assert (length (reverse gone) = 0) as Hnil.
        { rewrite <- Hq in Hlen'. rewrite length_app in Hlen'. lia. }
        apply nil_length_inv in Hnil. rewrite Hnil, app_nil_r.
        rewrite drop_ge; [done|lia]. }
    rewrite reverse_drop, reverse_involutive.
    by rewrite length_reverse, length_fmap.
  - apply set_eq. intros k.
    rewrite elem_of_dom, elem_of_list_to_set, list_elem_of_fmap. split.
    + intros [e He].
      destruct (wf_position _ _ _ Hwf He (Hunp _ _ He)) as (h & _ & Hin).
      by exists (mkElement h k).
    + intros (x & -> & Hx).
      destruct (wf_elem _ _ Hwf Hx) as (e & He & _). by exists e.
Qed.
End laws.
End CacheLaws.

(** * Further properties of [SegmentCache] *)

Module SegmentLaws.
Import SegmentCache SegmentFacts.

Section laws.
Context {V : Type}.
Implicit Types (lru : t V) (e : cacheSegmentEntry V) (k key : string).

(** X9.  A cache made with a negative capacity never stores anything.
    Every [Add] of a weight that is not negative panics: the loop of
    [evict] removes the entry just pushed, finds the used capacity,
    zero, still above the capacity, and passes the [nil] back of the
    empty queue to [Remove].  So the only cache a client can observe
    is the new one. *)
Theorem negative_capacity_Add_panics cap cb lru :
  (cap < 0)%Z → reachable cap cb lru →
  lru = NewSegmentCache cap cb ∧
  ∀ key data w, (0 ≤ w ≤ int64_max)%Z → Add key data w lru = Panic.
Proof.
  intros Hcap Hreach.
  pose proof (negative_capacity_new _ _ _ Hcap Hreach) as ->.
  split; [done|]. intros key data w Hw. by apply Add_new_panics.
Qed.

(** X10.  Without overflow the accounting is exact.  When the capacity is
    not negative and every weight supplied is not negative and,
    added to the capacity, still an [int64], then after any sequence
    of calls the used capacity is the exact sum of the weights of
    the entries of the index, and that sum is at most the
    capacity. *)
Theorem used_capacity_is_exact_sum cap cb cs lru calls :
  (0 ≤ cap)%Z → Forall (fits cap) cs →
  run cs (NewSegmentCache cap cb) = Done (lru, calls) →
  UsedCapacity lru = total_weight lru ∧
  (0 ≤ total_weight lru ≤ cap)%Z.
Proof.
  intros Hcap Hcs Hrun.
  destruct (run_exact _ _ _ _ _ Hcap Hcs Hrun)
    as [(_ & _ & Htot & Hused) Hc].
  split; [done|]. by rewrite <- Hc.
Qed.

(** X11.  [Len] is at most the capacity when every weight counts.
    When the capacity is not negative and every weight supplied is
    at least one and, added to the capacity, still an [int64], the
    cache never holds more entries than its capacity. *)
Theorem Len_at_most_capacity cap cb cs lru calls :
  (0 ≤ cap)%Z → Forall (fits cap) cs →
  Forall (λ c, ∀ w, call_weight c = Some w → (1 ≤ w)%Z) cs →
  run cs (NewSegmentCache cap cb) = Done (lru, calls) →
  (Len lru ≤ cap)%Z.
Proof.
  intros Hcap Hcs Hone Hrun.
  destruct (run_exact _ _ _ _ _ Hcap Hcs Hrun)
    as [(Hwf & _ & Htot & _) Hc].
  assert (∀ k e, cache lru !! k = Some e → (1 ≤ size e)%Z) as Hsizes.
  { apply (seg_run_invariant
             (λ s, wf s ∧ ∀ k e, cache s !! k = Some e → (1 ≤ size e)%Z)
             (λ c, ∀ w, call_weight c = Some w → (1 ≤ w)%Z))
      with (cs := cs) (s := NewSegmentCache cap cb) (calls := calls);
      [|done| |done].
    - intros c s r s' calls' Hc1 [Hwfs Hs] Hinv. split.
      + by destruct (seg_invoke_kept _ _ _ _ _ Hwfs Hinv).
      + by apply (invoke_weights (λ w, 1 ≤ w)%Z c s r s' calls').
    - split; [apply wf_NewSegmentCache|].
      intros k e He. simpl in He. by rewrite lookup_empty in He. }
  rewrite (Len_queue _ Hwf). rewrite (total_weight_queue _ Hwf) in Htot.
  assert (Z.of_nat (length (q lru)) ≤ queue_weight (q lru))%Z; [|lia].
  apply queue_weight_length. intros x Hx.
  destruct (seg_wf_elem _ _ Hwf Hx) as (e & He & <- & _).
  by apply (Hsizes _ _ He).
Qed.

(** X12.  A segment that was just read survives the next insertion when
    the two weights together fit the capacity: after [Get] of a
    present key, [Add] of any key with such a weight returns, leaves
    the key that was read in the cache and does not call the
    callback with it. *)
Theorem read_segment_survives_next_Add cap cb lru key e key' data' w :
  reachable cap cb lru → cache lru !! key = Some e →
  (0 ≤ w)%Z → (size e + w ≤ cap)%Z →
  ∃ lru1 lru2 calls,
    Get key lru = Done (data e, true, lru1) ∧
    Add key' data' w lru1 = Done (lru2, calls) ∧
    HasKey key lru2 = true ∧ (key ∉ calls).
Proof.
  intros (Hwf & Hc & Hcb & Hnn & _)%seg_reachable_kept He Hw Hfit.
  assert (∀ s : t V, is_Some (cache s !! key) → HasKey key s = true) as Hhas.
  { intros s Hs. unfold HasKey. by apply bool_decide_eq_true. }
  pose proof (Hnn _ _ He) as Hsize.
  destruct (Get_present _ _ _ Hwf He) as (h & l1 & l2 & Hq & Hget).
  pose (x := mkElement h (mkRef key (size e))).
  pose (lru1 := mkCache (capacity lru) (usedCapacity lru) (cache lru)
                  (x :: l1 ++ l2) (evictedCallback lru) (fresh lru)).
  exists lru1.
  assert (wf lru1) as Hwf1.
  { apply seg_wf_reorder; [done|]. rewrite Hq. by rewrite Permutation_middle. }
  destruct (cache lru !! key') as [e'|] eqn:He'.
  - destruct (seg_Add_present lru1 key' e' data' w Hwf1 He')
      as (h' & l1' & l2' & _ & Hadd).
    eexists _, _. split; [exact Hget|]. split; [exact Hadd|].
    split; [|apply not_elem_of_nil]. apply Hhas. simpl.
    destruct (decide (key' = key)) as [->|Hne].
    + rewrite lookup_insert_eq. eauto.
    + rewrite lookup_insert_ne by done. eauto.
  - pose proof (seg_Add_absent lru1 key' data' w He') as Hadd.
    pose proof (seg_wf_pushed lru1 key' data' w Hwf1 He') as Hwfm.
    fold (inserted key' data' w lru1) in Hwfm.
    destruct (evict_returns (inserted key' data' w lru1) Hwfm)
      as (lru2 & calls & Hev & gone & Hcalls & Hq2 & Hwf2 & _ & _ & _
          & _ & Hover); [simpl; lia|].
    rewrite Hev in Hadd. exists lru2, calls.
    split; [exact Hget|]. split; [exact Hadd|].
    pose (a := mkElement (fresh lru) (mkRef key' w)).
    assert (q (inserted key' data' w lru1) = a :: x :: l1 ++ l2) as Hqm
      by done.
    rewrite Hqm in Hq2.
    assert (NoDup (a :: x :: l1 ++ l2)) as Hnd.
    { rewrite <- Hqm. eapply NoDup_fmap_1. apply (wf_ids _ Hwfm). }
    assert (x ∉ gone) as Hstays.
    { intros (p & s & ->)%list_elem_of_split.
      assert (q lru2 ++ p = [a]) as Hpre.
      { rewrite app_assoc in Hq2.
        destruct (q lru2 ++ p) as [|b [|c pre]]; simpl in Hq2.
        - assert (a = x) as Hax
            by exact (inj Some _ _ (f_equal head Hq2)).
          rewrite Hax in Hnd.
          apply NoDup_cons in Hnd as [Hnot _].
          exfalso. apply Hnot. by apply elem_of_cons; left.
        - f_equal. symmetry. exact (inj Some _ _ (f_equal head Hq2)).
        - pose proof (f_equal (drop 2) Hq2) as Hrest.
          change (l1 ++ l2 = pre ++ x :: s) in Hrest.
          apply NoDup_cons in Hnd as [_ [Hnot _]%NoDup_cons].
          exfalso. apply Hnot. rewrite Hrest.
          apply elem_of_app. right. apply elem_of_cons.
          by left. }
      specialize (Hover p x s eq_refl).
      rewrite app_assoc, Hpre in Hover. simpl in Hover.
      pose proof (wrap64_range (w + (size e + 0))) as Hrange.
      destruct (decide (w + (size e + 0) ≤ int64_max)%Z) as [Hsmall|Hbig].
      - rewrite wrap64_id in Hover;
          unfold is_int64, int64_min, int64_max in *; lia.
      - unfold is_int64 in Hrange. lia. }
    assert (x ∈ q lru2) as Hin.
    { assert (x ∈ q lru2 ++ gone) as Hx.
      { rewrite <- Hq2. apply elem_of_cons. right.
        apply elem_of_cons. by left. }
      apply elem_of_app in Hx as [?|?]; done. }
    split.
    + apply Hhas. destruct (seg_wf_elem _ _ Hwf2 Hin) as (e2 & He2 & _).
      simpl in He2. eauto.
    + rewrite Hcalls. unfold callbacks.
      destruct (evictedCallback _); [|apply not_elem_of_nil].
      intros (y & Hy & Hyin)%list_elem_of_fmap.
      rewrite elem_of_reverse in Hyin.
      assert (y = x) as ->; [|done].
      apply (seg_wf_keys_inj (inserted key' data' w lru1)); [done|..].
      * rewrite Hqm, Hq2. apply elem_of_app. by right.
      * rewrite Hqm. apply elem_of_cons. right. apply elem_of_cons.
        by left.
      * by simpl.
Qed.

(** X13.  [Add] evicts no more than it has to.  As long as the exact sum
    of the weights with the new one is an [int64], what [Add] of a
    key that is not present removes is a suffix of the queue with
    the new entry in front; what is left fits the capacity; and no
    shorter suffix would do: the queue up to and including any
    evicted element weighs more than the capacity. *)
Theorem Add_evicts_no_more_than_needed cap cb lru key data w lru' calls :
  reachable cap cb lru → cache lru !! key = None →
  (0 ≤ w)%Z → (total_weight lru + w ≤ int64_max)%Z →
  Add key data w lru = Done (lru', calls) →
  ∃ gone,
    mkElement (fresh lru) (mkRef key w) :: q lru = q lru' ++ gone ∧
    (queue_weight (q lru') ≤ cap)%Z ∧
    ∀ p x s, gone = p ++ x :: s →
             (cap < queue_weight (q lru' ++ p ++ [x]))%Z.
Proof.
  intros (Hwf & Hc & Hcb & Hnn & _)%seg_reachable_kept Hk Hw Hfit Hadd.
  rewrite (seg_Add_absent _ _ _ _ Hk) in Hadd.
  pose proof (seg_wf_pushed lru key data w Hwf Hk) as Hwfm.
  fold (inserted key data w lru) in Hwfm.
  pose proof (evict_Done _ _ _ Hwfm Hadd) as Hev.
  assert (0 ≤ total_weight lru)%Z as Htot0.
  { apply weight_of_nonneg. intros k e He. by apply (Hnn _ _ He). }
  assert (weights_nonneg (inserted key data w lru)) as Hnnm.
  { apply inserted_nonneg; [done|]. lia. }
  assert (total_weight (inserted key data w lru)
          = (w + total_weight lru)%Z) as Hmid.
  { unfold total_weight. simpl. by rewrite weight_of_insert. }
  assert (total_weight (inserted key data w lru) ≤ int64_max)%Z as Hfitm
    by (rewrite Hmid; lia).
  destruct (evicted_weights _ _ _ Hwfm Hnnm Hfitm Hev) as (_ & _ & Hle).
  destruct Hev as (gone & _ & Hq & Hwf' & _ & _ & _ & _ & Hover).
  exists gone. split; [exact Hq|]. split.
  { rewrite <- (total_weight_queue _ Hwf'). simpl in Hle. lia. }
  intros p x s ->. specialize (Hover p x s eq_refl). simpl in Hover.
  rewrite (total_weight_queue _ Hwfm), Hq in Hfitm.
  replace (q lru' ++ p ++ x :: s) with ((q lru' ++ p ++ [x]) ++ s)
    in Hfitm, Hq by (by rewrite <- !app_assoc).
  rewrite queue_weight_app in Hfitm.
  assert (0 ≤ queue_weight (q lru' ++ p ++ [x]))%Z.
  { apply queue_weight_nonneg. intros y Hy.
    apply (queue_nonneg (inserted key data w lru)); [done..|].
    rewrite Hq. apply elem_of_app. by left. }
  assert (0 ≤ queue_weight s)%Z.
  { apply queue_weight_nonneg. intros y Hy.
    apply (queue_nonneg (inserted key data w lru)); [done..|].
    rewrite Hq. apply elem_of_app. by right. }
  rewrite wrap64_id in Hover; [lia|].
  unfold is_int64, int64_min, int64_max in *. lia.
Qed.
End laws.
End SegmentLaws.

(** * Further properties of the locked copy of [Cache] *)

Module LockedLaws.
Import LockedCache LockedFacts.

Section laws.
Context {V : Type}.
Implicit Types (lru : t V) (key : string).

(** X15.  The mutex changes nothing else.  With the mutex free, a
    public call of the locked copy, unless it is an [Unpin] of a key
    that is absent or not pinned, does what the same call of the
    copy without mutex does, returning or panicking as it does, and
    leaves the mutex free. *)
Theorem locked_call_is_the_unlocked_call (c : Cache.call V) lru :
  lock lru = false →
  (∀ key, c = Cache.CallUnpin key →
          ∃ e, Cache.cache (fields lru) !! key = Some e ∧
               Cache.pinned e = true) →
  (∀ r s calls,
     Cache.invoke c (fields lru) = Done (r, s, calls) →
     invoke c lru = Returns (r, mkLocked s false, calls)) ∧
  (Cache.invoke c (fields lru) = Panic → invoke c lru = Panics).
Proof.
  destruct lru as [s0 held]. simpl. intros -> Hc.
  rewrite (invoke_free c s0 Hc). split.
  - by intros r s calls ->.
  - by intros ->.
Qed.

(** X16.  A client that never calls [Unpin] is never kept waiting:
    from a cache the copy without mutex can reach, with the mutex
    free, every sequence of calls without [Unpin] returns, with the
    cache and the callback calls of the copy without mutex, and the
    mutex free. *)
Theorem without_Unpin_nothing_blocks sz cb (s : Cache.t V) cs :
  Cache.reachable sz cb s →
  (∀ key, Cache.CallUnpin key ∉ cs) →
  ∃ s' calls,
    Cache.run cs s = Done (s', calls) ∧
    run cs (mkLocked s false) = Returns (mkLocked s' false, calls).
Proof.
  intros (Hwf & _)%CacheFacts.reachable_kept. revert s Hwf.
  induction cs as [|c cs IH]; intros s Hwf Hcs.
  - by exists s, [].
  - destruct (CacheFacts.invoke_kept c s Hwf)
      as (r & s1 & calls1 & Hinv & Hwf1 & _).
    destruct (IH s1 Hwf1) as (s2 & calls2 & Hrun & Hlocked).
    { intros key Hin. apply (Hcs key), elem_of_cons. by right. }
    exists s2, (calls1 ++ calls2). split.
    + simpl. rewrite Hinv. simpl. by rewrite Hrun.
    + cbn [run]. rewrite invoke_free.
      * rewrite Hinv. simpl. by rewrite Hlocked.
      * intros key ->. exfalso. apply (Hcs key), elem_of_cons. by left.
Qed.
End laws.
End LockedLaws.

(** * The tests of the repository, run on the embedding *)

Module Tests.
Definition add (key value : string) : Cache.call string :=
  Cache.CallAdd key (Some value).

Definition seg_add (key value : string) (weight : Z)
  : SegmentCache.call string :=
  SegmentCache.CallAdd key (Some value) weight.

(** The keys of the queue, front first, the entry count, and the keys
    the callback was called with. *)
Definition observe (r : outcome (Cache.t string * list string))
  : option (list string * Z * list string) :=
  match r with
  | Done (lru, calls) => Some (Value <$> Cache.q lru, Cache.Len lru, calls)
  | Panic => None
  end.

Definition seg_observe (r : outcome (SegmentCache.t string * list string))
  : option (list string * Z * Z * list string) :=
  match r with
  | Done (lru, calls) =>
      Some ((λ x, SegmentCache.ref_key (Value x)) <$> SegmentCache.q lru,
            SegmentCache.Len lru, SegmentCache.UsedCapacity lru, calls)
  | Panic => None
  end.

(** lru_test.go, [TestCache], up to the first eviction ... *)
Definition test_cache_1 : list (Cache.call string) :=
  [add "1" "one"; add "2" "two"; add "3" "three"; Cache.CallLen;
   Cache.CallGet "0"; Cache.CallGet "1"; add "4" "four"; Cache.CallGet "2"].

(** ... then pinning ["3"], adding ["5"] and unpinning ["3"] ... *)
Definition test_cache_2 : list (Cache.call string) :=
  test_cache_1 ++
  [Cache.CallPin "3"; Cache.CallGet "3"; add "5" "five";
   Cache.CallHasKey "1"; Cache.CallUnpin "3"].

(** ... and to its end. *)
Definition test_cache_3 : list (Cache.call string) :=
  test_cache_2 ++
  [add "1" "one"; add "2" "two";
   Cache.CallPin "2"; Cache.CallPin "1"; Cache.CallPin "3";
   add "4" "four"; Cache.CallLen; Cache.CallPin "4"; add "5" "five";
   Cache.CallLen;
   Cache.CallUnpin "1"; Cache.CallUnpin "2"; Cache.CallUnpin "3";
   Cache.CallUnpin "4"].

Example TestCache_first_eviction :
  observe (Cache.run test_cache_1 (Cache.NewCache 3 true))
  = Some (["4"; "1"; "3"], 3%Z, ["2"]).
Proof. vm_compute. reflexivity. Qed.

Example TestCache_pin_unpin :
  observe (Cache.run test_cache_2 (Cache.NewCache 3 true))
  = Some (["3"; "5"; "4"], 3%Z, ["2"; "1"]).
Proof. vm_compute. reflexivity. Qed.

Example TestCache_whole :
  observe (Cache.run test_cache_3 (Cache.NewCache 3 true))
  = Some (["4"; "3"; "2"], 3%Z, ["2"; "1"; "4"; "5"; "5"; "1"]).
Proof. vm_compute. reflexivity. Qed.

(** lru_segment_test.go, [TestSegmentCache]. *)
Definition test_segment_1 : list (SegmentCache.call string) :=
  [seg_add "1" "one" 1; seg_add "2" "two" 1; seg_add "3" "three" 1;
   SegmentCache.CallLen; SegmentCache.CallGet "0"; SegmentCache.CallGet "1";
   seg_add "4" "four" 2; SegmentCache.CallGet "2"].

Definition test_segment_2 : list (SegmentCache.call string) :=
  test_segment_1 ++
  [seg_add "5" "five" 1; SegmentCache.CallHasKey "5";
   seg_add "1" "one" 1; seg_add "2" "two" 1;
   seg_add "4" "four" 2; SegmentCache.CallLen;
   seg_add "5" "five" 1; SegmentCache.CallLen].

Example TestSegmentCache_first_eviction :
  seg_observe
    (SegmentCache.run test_segment_1 (SegmentCache.NewSegmentCache 3 true))
  = Some (["4"; "1"], 2%Z, 3%Z, ["2"; "3"]).
Proof. vm_compute. reflexivity. Qed.

Example TestSegmentCache_whole :
  seg_observe
    (SegmentCache.run test_segment_2 (SegmentCache.NewSegmentCache 3 true))
  = Some (["5"; "4"], 2%Z, 3%Z, ["2"; "3"; "1"; "4"; "5"; "1"; "2"]).
Proof. vm_compute. reflexivity. Qed.
End Tests.

(** * The properties at concrete caches *)

Module Concrete.
Import Tests.

(** A [Cache] of size 3 that holds ["5"], ["4"], ["1"] in its queue
    and ["3"] pinned. *)
Definition cache_calls : list (Cache.call string) :=
  [add "1" "one"; add "2" "two"; add "3" "three"; Cache.CallGet "1";
   add "4" "four"; Cache.CallPin "3"; add "5" "five"].

Definition cache_run : Cache.t string * list string :=
  match Cache.run cache_calls (Cache.NewCache 3 true) with
  | Done r => r
  | Panic => (Cache.NewCache 3 true, [])
  end.

Definition cache_demo : Cache.t string := cache_run.1.

(** A [SegmentCache] of capacity 3 that holds ["3"], ["2"], ["1"],
    each of weight 1. *)
Definition segment_calls : list (SegmentCache.call string) :=
  [seg_add "1" "one" 1; seg_add "2" "two" 1; seg_add "3" "three" 1].

Definition segment_run : SegmentCache.t string * list string :=
  match SegmentCache.run segment_calls
          (SegmentCache.NewSegmentCache 3 true) with
  | Done r => r
  | Panic => (SegmentCache.NewSegmentCache 3 true, [])
  end.

Definition segment_demo : SegmentCache.t string := segment_run.1.

(** Closes a goal [Cache.reachable _ _ demo] by running the calls. *)
Ltac by_running cs log := exists cs, log; vm_compute; reflexivity.

(** Closes a goal [SegmentCache.reachable _ _ demo]: the weights are
    admissible, and running the calls gives the cache. *)
Ltac by_running_weights cs log :=
  exists cs, log; split;
  [ unfold cs;
    repeat (apply List.Forall_cons;
            [intros w Hw; cbv in Hw; injection Hw as <-;
             unfold int64_max; lia|]);
    apply List.Forall_nil
  | vm_compute; reflexivity ].

Lemma Cache_invariants_witness :
  NoDup (Value <$> Cache.q cache_demo) ∧
  (∀ key, key ∈ Value <$> Cache.q cache_demo ↔
          ∃ e, Cache.cache cache_demo !! key = Some e ∧
               Cache.pinned e = false) ∧
  (∀ key e, Cache.cache cache_demo !! key = Some e →
            (Cache.pinned e = true ↔ Cache.position e = None) ∧
            (Cache.pinned e = true → key ∉ Value <$> Cache.q cache_demo)) ∧
  (ContainerList.Len (Cache.q cache_demo) ≤ Cache.Size cache_demo)%Z ∧
  Cache.Size cache_demo = 3%Z ∧
  Cache.Len cache_demo
  = (ContainerList.Len (Cache.q cache_demo)
     + Z.of_nat (CacheFacts.pinned_count cache_demo))%Z ∧
  (Cache.Len cache_demo
   ≤ 3 + Z.of_nat (CacheFacts.pinned_count cache_demo))%Z.
Proof.
  apply (Cache_invariants 3 true cache_demo); [lia|].
  by_running cache_calls cache_run.2.
Defined.

Lemma only_IsPinned_fails_witness :
  (∃ key, Cache.CallIsPinned (V:=string) "0" = Cache.CallIsPinned key ∧
          Cache.HasKey key cache_demo = false) ∧
  reply_error (V:=string) (RetFound None false) = None.
Proof.
  destruct (@only_IsPinned_fails string) as (_ & Hcache & Hseg). split.
  - apply (Hcache cache_demo (Cache.CallIsPinned "0")
             (RetChecked false (Some "0: not in cache")) cache_demo []).
    + vm_compute. reflexivity.
    + simpl. eauto.
  - apply (Hseg segment_demo (SegmentCache.CallGet "0")
             (RetFound None false) segment_demo []).
    vm_compute. reflexivity.
Defined.

Lemma Get_frame_witness :
  (∃ lru',
     Cache.Get "1" cache_demo = Done (Some "one", true, lru') ∧
     Cache.cache lru' = Cache.cache cache_demo ∧
     Cache.Len lru' = Cache.Len cache_demo ∧
     Cache.size lru' = Cache.size cache_demo ∧
     Cache.evictedCallback lru' = Cache.evictedCallback cache_demo ∧
     ∃ h l1 l2,
       Cache.q cache_demo = l1 ++ mkElement h "1" :: l2 ∧
       Cache.q lru' = mkElement h "1" :: l1 ++ l2) ∧
  SegmentCache.Get "0" segment_demo = Done (None, false, segment_demo).
Proof.
  destruct (@Get_frame string) as [Hcache Hseg]. split.
  - assert (Cache.cache cache_demo !! "1"
            = Some (Cache.mkEntry "1" (Some "one") false (Some 1%positive)))
      as Hlook by (vm_compute; reflexivity).
    pose proof (Hcache 3%Z true cache_demo "1") as Hget.
    rewrite Hlook in Hget. apply Hget.
    by_running cache_calls cache_run.2.
  - assert (SegmentCache.cache segment_demo !! "0" = None) as Hlook
      by (vm_compute; reflexivity).
    pose proof (Hseg 3%Z true segment_demo "0") as Hget.
    rewrite Hlook in Hget. apply Hget.
    by_running_weights segment_calls segment_run.2.
Defined.

Lemma evict_is_one_step_witness :
  let mid :=
    Cache.mkCache (Cache.size cache_demo)
      (<["9" := Cache.mkEntry "9" (Some "nine") false
                  (Some (Cache.fresh cache_demo))]> (Cache.cache cache_demo))
      (PushFront "9" (Cache.fresh cache_demo) (Cache.q cache_demo))
      (Cache.evictedCallback cache_demo)
      (Pos.succ (Cache.fresh cache_demo)) in
  Cache.Add "9" (Some "nine") cache_demo = Cache.evict mid ∧
  one_step 3 mid.
Proof.
  apply (evict_is_one_step 3 true cache_demo "9").
  - by_running cache_calls cache_run.2.
  - vm_compute. reflexivity.
Defined.

Lemma Add_existing_key_frame_witness :
  (∃ lru' h l1 l2,
     SegmentCache.Add "1" (Some "uno") 7 segment_demo = Done (lru', []) ∧
     SegmentCache.q segment_demo
     = l1 ++ mkElement h (SegmentCache.mkRef "1" 1) :: l2 ∧
     SegmentCache.q lru'
     = mkElement h (SegmentCache.mkRef "1" 1) :: l1 ++ l2 ∧
     SegmentCache.cache lru' !! "1"
     = Some (SegmentCache.mkEntry "1" 1 (Some "uno") (Some 1%positive)) ∧
     (∀ k, k ≠ "1" →
           SegmentCache.cache lru' !! k
           = SegmentCache.cache segment_demo !! k) ∧
     dom (SegmentCache.cache lru') = dom (SegmentCache.cache segment_demo) ∧
     SegmentCache.usedCapacity lru'
     = SegmentCache.usedCapacity segment_demo ∧
     SegmentCache.total_weight lru'
     = SegmentCache.total_weight segment_demo ∧
     SegmentCache.capacity lru' = SegmentCache.capacity segment_demo) ∧
  (∃ mid,
     SegmentCache.Add "9" (Some "nine") 2 segment_demo
     = SegmentCache.evict mid ∧
     SegmentCache.q mid
     = mkElement (SegmentCache.fresh segment_demo)
         (SegmentCache.mkRef "9" 2) :: SegmentCache.q segment_demo ∧
     SegmentCache.usedCapacity mid
     = wrap64 (SegmentCache.usedCapacity segment_demo + 2) ∧
     SegmentCache.cache mid
     = <["9" := SegmentCache.mkEntry "9" 2 (Some "nine")
                  (Some (SegmentCache.fresh segment_demo))]>
         (SegmentCache.cache segment_demo) ∧
     SegmentCache.capacity mid = SegmentCache.capacity segment_demo ∧
     SegmentCache.evictedCallback mid
     = SegmentCache.evictedCallback segment_demo).
Proof.
  split.
  - assert (SegmentCache.cache segment_demo !! "1"
            = Some (SegmentCache.mkEntry "1" 1 (Some "one")
                      (Some 1%positive))) as Hlook
      by (vm_compute; reflexivity).
    pose proof (Add_existing_key_frame 3 true segment_demo
                  "1" (Some "uno") 7) as Hadd.
    rewrite Hlook in Hadd. apply Hadd.
    by_running_weights segment_calls segment_run.2.
  - assert (SegmentCache.cache segment_demo !! "9" = None) as Hlook
      by (vm_compute; reflexivity).
    pose proof (Add_existing_key_frame 3 true segment_demo
                  "9" (Some "nine") 2) as Hadd.
    rewrite Hlook in Hadd. apply Hadd.
    by_running_weights segment_calls segment_run.2.
Defined.

Lemma used_capacity_invariant_witness :
  SegmentCache.UsedCapacity segment_demo
  = wrap64 (SegmentCache.total_weight segment_demo) ∧
  ((SegmentCache.total_weight segment_demo ≤ int64_max)%Z →
   SegmentCache.UsedCapacity segment_demo
   = SegmentCache.total_weight segment_demo) ∧
  (SegmentCache.UsedCapacity segment_demo
   ≤ SegmentCache.Capacity segment_demo)%Z ∧
  SegmentCache.Capacity segment_demo = 3%Z ∧
  ∀ key data weight,
    SegmentCache.cache segment_demo !! key = None →
    (0 ≤ weight ≤ int64_max)%Z → (3 < weight)%Z →
    (SegmentCache.total_weight segment_demo + weight ≤ int64_max)%Z →
    ∃ lru' calls,
      SegmentCache.Add key data weight segment_demo = Done (lru', calls) ∧
      SegmentCache.Len lru' = 0%Z ∧
      SegmentCache.q lru' = [] ∧
      SegmentCache.UsedCapacity lru' = 0%Z.
Proof.
  apply (used_capacity_invariant 3 true segment_demo); [lia|].
  by_running_weights segment_calls segment_run.2.
Defined.

Lemma Add_then_Get_witness :
  (∃ lru' calls lru'',
     Cache.Add "9" (Some "nine") cache_demo = Done (lru', calls) ∧
     Cache.Get "9" lru' = Done (Some "nine", true, lru'')) ∧
  (∃ seg' calls seg'',
     SegmentCache.Add "9" (Some "nine") 2 segment_demo
     = Done (seg', calls) ∧
     SegmentCache.Get "9" seg' = Done (Some "nine", true, seg'')).
Proof.
  destruct (@Add_then_Get string) as [Hcache Hseg]. split.
  - apply (Hcache 3%Z true); [|left; lia].
    by_running cache_calls cache_run.2.
  - apply (Hseg 3%Z true); [lia| |vm_compute; by split|left; lia].
    by_running_weights segment_calls segment_run.2.
Defined.

(** The cache and the callback calls [Add] of a new key leaves. *)
Definition cache_next : Cache.t string * list string :=
  match Cache.Add "9" (Some "nine") cache_demo with
  | Done r => r
  | Panic => (cache_demo, [])
  end.

Lemma callback_once_per_eviction_witness :
  evicts_in_order true
    ("9" :: (Value <$> Cache.q cache_demo)) (Value <$> Cache.q cache_next.1)
    ({["9"]} ∪ dom (Cache.cache cache_demo)) (dom (Cache.cache cache_next.1))
    cache_next.2.
Proof.
  destruct (@callback_once_per_eviction string) as (Hadd & _).
  assert (Cache.cache cache_demo !! "9" = None) as Hlook
    by (vm_compute; reflexivity).
  pose proof (Hadd 3%Z true cache_demo "9" (Some "nine")
                cache_next.1 cache_next.2) as Hev.
  rewrite Hlook in Hev. apply Hev.
  - by_running cache_calls cache_run.2.
  - vm_compute. reflexivity.
Defined.

Lemma operations_terminate_witness :
  (let s := SegmentFacts.inserted "9" (Some "nine") 5 segment_demo in
   ((SegmentCache.capacity s < SegmentCache.usedCapacity s)%Z →
    SegmentCache.q s ≠ []) ∧
   ∃ r, SegmentCache.evict s = Done r ∧
        SegmentCache.evict_upto (length (SegmentCache.q s)) s
        = Some (Done r)) ∧
  (∃ r, SegmentCache.invoke (seg_add "9" "nine" 5) segment_demo = Done r) ∧
  (∃ r, Cache.invoke (Cache.CallUnpin "3") cache_demo = Done r).
Proof.
  destruct (@operations_terminate string) as (Hloop & Hseg & Hcache).
  split_and!.
  - apply (Hloop 3%Z true); [lia|].
    apply SegmentFacts.visited_inserted.
    + by_running_weights segment_calls segment_run.2.
    + vm_compute. reflexivity.
    + vm_compute. by split.
  - apply (Hseg 3%Z true); [lia|].
    by_running_weights segment_calls segment_run.2.
  - apply (Hcache 3%Z true). by_running cache_calls cache_run.2.
Defined.

Lemma locked_Unpin_keeps_the_mutex_witness :
  ∃ lru',
    LockedCache.Unpin "nope" (LockedCache.NewCache (V:=string) 3 true)
    = Returns (lru', []) ∧
    LockedCache.fields lru'
    = LockedCache.fields (LockedCache.NewCache 3 true) ∧
    LockedCache.lock lru' = true ∧
    LockedCache.invoke Cache.CallLen lru' = Blocks ∧
    LockedCache.run (V:=string) [Cache.CallUnpin "nope"; Cache.CallLen]
      (LockedCache.NewCache 3 true) = Blocks.
Proof.
  apply (locked_Unpin_keeps_the_mutex
           (LockedCache.NewCache 3 true) "nope" Cache.CallLen []).
  - reflexivity.
  - intros e He. simpl in He. rewrite lookup_empty in He. discriminate He.
Defined.

(** ** Where the specification and the code part *)

(** C1, as stated, fails: the used capacity is not always the sum of
    the weights.  With capacity [2^63 - 1], adding weight [2^63 - 1]
    and then weight [1] makes [usedCapacity += size] wrap around to
    [- 2^63], which is within the capacity, so nothing is evicted and
    the index holds weights that sum to [2^63]. *)
Definition overflow_calls : list (SegmentCache.call string) :=
  [seg_add "a" "x" int64_max; seg_add "b" "y" 1].

Lemma used_capacity_wraps_around :
  ∃ lru calls,
    Forall SegmentCache.admissible overflow_calls ∧
    (0 ≤ int64_max)%Z ∧
    SegmentCache.run overflow_calls
      (SegmentCache.NewSegmentCache int64_max true) = Done (lru, calls) ∧
    calls = [] ∧
    SegmentCache.UsedCapacity lru = int64_min ∧
    SegmentCache.total_weight lru = (2 ^ 63)%Z ∧
    SegmentCache.UsedCapacity lru ≠ SegmentCache.total_weight lru.
Proof.
  eexists _, _. split_and!.
  - unfold overflow_calls.
    repeat (apply List.Forall_cons;
              [intros w Hw; cbv in Hw; injection Hw as <-;
               unfold int64_max; lia|]).
    apply List.Forall_nil.
  - done.
  - vm_compute. reflexivity.
  - reflexivity.
  - vm_compute. reflexivity.
  - vm_compute. reflexivity.
  - vm_compute. discriminate.
Qed.

(** C2, as stated, fails: [evict] does not go on until the queue is
    within the size.  With size [-1], [Add] pushes the entry, which
    puts the length of the queue two above the size; [evict] unlinks
    that one entry and returns, the length still above the size. *)
Lemma evict_stops_after_one :
  ∃ lru',
    Cache.Add "a" (Some "x") (Cache.NewCache (-1) true)
    = Done (lru', ["a"]) ∧
    Cache.q lru' = [] ∧
    ¬ (ContainerList.Len (Cache.q lru') ≤ Cache.Size lru')%Z.
Proof.
  eexists. split_and!.
  - vm_compute. reflexivity.
  - reflexivity.
  - vm_compute. by intros H.
Qed.

(** C4, as stated, fails: with capacity 3, which is positive, an [Add]
    of weight 5 evicts its own entry, and the [Get] that follows does
    not find the key. *)
Lemma oversized_Add_evicts_itself :
  ∃ seg',
    SegmentCache.Add "a" (Some "x") 5
      (SegmentCache.NewSegmentCache 3 true) = Done (seg', ["a"]) ∧
    SegmentCache.Get "a" seg' = Done (None, false, seg') ∧
    (0 < SegmentCache.Capacity seg')%Z.
Proof.
  eexists. split_and!.
  - vm_compute. reflexivity.
  - vm_compute. reflexivity.
  - vm_compute. reflexivity.
Qed.
End Concrete.

(** * The further properties at concrete caches *)

Module ConcreteLaws.
Import Tests Concrete.

Lemma Pin_frame_witness :
  match Cache.cache cache_demo !! "4" with
  | None => Cache.Pin "4" cache_demo = Done cache_demo
  | Some e =>
      if Cache.pinned e then Cache.Pin "4" cache_demo = Done cache_demo
      else
        ∃ lru' h l1 l2,
          Cache.Pin "4" cache_demo = Done lru' ∧
          Cache.q cache_demo = l1 ++ mkElement h "4" :: l2 ∧
          Cache.q lru' = l1 ++ l2 ∧
          Cache.cache lru' !! "4"
          = Some (Cache.mkEntry (Cache.key e) (Cache.data e) true None) ∧
          (∀ k, k ≠ "4" →
                Cache.cache lru' !! k = Cache.cache cache_demo !! k) ∧
          dom (Cache.cache lru') = dom (Cache.cache cache_demo) ∧
          Cache.Len lru' = Cache.Len cache_demo ∧
          Cache.Size lru' = Cache.Size cache_demo
  end.
Proof.
  apply (CacheLaws.Pin_frame 3 true cache_demo "4").
  by_running cache_calls cache_run.2.
Defined.

Lemma Pin_then_IsPinned_witness :
  ∃ lru',
    Cache.Pin "4" cache_demo = Done lru' ∧
    Cache.IsPinned "4" lru' = (true, None) ∧
    Cache.Pin "4" lru' = Done lru'.
Proof.
  apply (CacheLaws.Pin_then_IsPinned 3 true cache_demo "4").
  - by_running cache_calls cache_run.2.
  - vm_compute. reflexivity.
Defined.

(** Two more insertions, which evict twice, and a read of the pinned
    key. *)
Definition more_calls : list (Cache.call string) :=
  [add "6" "six"; Cache.CallGet "3"; add "7" "seven"].

Definition cache_more : Cache.t string * list string :=
  match Cache.run more_calls cache_demo with
  | Done r => r
  | Panic => (cache_demo, [])
  end.

Lemma pinned_is_never_evicted_witness :
  ("3" ∉ cache_more.2) ∧
  ∃ e',
    Cache.cache cache_more.1 !! "3" = Some e' ∧
    Cache.pinned e' = true ∧
    ((∀ c d, c ∈ more_calls → c ≠ Cache.CallAdd "3" d) →
     Cache.data e' = Some "three").
Proof.
  apply (CacheLaws.pinned_is_never_evicted 3 true cache_demo "3"
           (Cache.mkEntry "3" (Some "three") true None)
           more_calls cache_more.1 cache_more.2).
  - by_running cache_calls cache_run.2.
  - vm_compute. reflexivity.
  - reflexivity.
  - intros c Hc. unfold more_calls in Hc.
    repeat (apply elem_of_cons in Hc as [->|Hc]; [discriminate|]).
    by apply elem_of_nil in Hc.
  - vm_compute. reflexivity.
Defined.

Lemma Pin_then_Unpin_witness :
  ∃ lru1 lru2 h l1 l2,
    Cache.Pin "1" cache_demo = Done lru1 ∧
    Cache.Unpin "1" lru1 = Done (lru2, []) ∧
    Cache.q cache_demo = l1 ++ mkElement h "1" :: l2 ∧
    Value <$> Cache.q lru2 = "1" :: (Value <$> l1 ++ l2) ∧
    (∃ e2, Cache.cache lru2 !! "1" = Some e2 ∧
           Cache.pinned e2 = false ∧ Cache.data e2 = Some "one") ∧
    (∀ k, k ≠ "1" → Cache.cache lru2 !! k = Cache.cache cache_demo !! k) ∧
    dom (Cache.cache lru2) = dom (Cache.cache cache_demo).
Proof.
  apply (CacheLaws.Pin_then_Unpin 3 true cache_demo "1"
           (Cache.mkEntry "1" (Some "one") false (Some 1%positive))).
  - lia.
  - by_running cache_calls cache_run.2.
  - vm_compute. reflexivity.
  - reflexivity.
Defined.

Lemma Pin_frees_a_slot_witness :
  ∃ lru1 lru2,
    Cache.Pin "4" cache_demo = Done lru1 ∧
    Cache.Add "9" (Some "nine") lru1 = Done (lru2, []) ∧
    Cache.Len lru2 = (Cache.Len cache_demo + 1)%Z ∧
    dom (Cache.cache lru2) = {["9"]} ∪ dom (Cache.cache cache_demo).
Proof.
  apply (CacheLaws.Pin_frees_a_slot 3 true cache_demo "4"
           (Cache.mkEntry "4" (Some "four") false (Some 4%positive))).
  - lia.
  - by_running cache_calls cache_run.2.
  - vm_compute. reflexivity.
  - reflexivity.
  - vm_compute. reflexivity.
Defined.

(** A [Cache] of size 0 after two insertions. *)
Definition empty_calls : list (Cache.call string) :=
  [add "1" "one"; add "2" "two"].

Definition empty_run : Cache.t string * list string :=
  match Cache.run empty_calls (Cache.NewCache 0 true) with
  | Done r => r
  | Panic => (Cache.NewCache 0 true, [])
  end.

Lemma nonpositive_size_keeps_nothing_witness :
  Cache.Len empty_run.1 = 0%Z ∧ Cache.q empty_run.1 = [] ∧
  ∀ key data,
    ∃ lru',
      Cache.Add key data empty_run.1 = Done (lru', [key]) ∧
      Cache.Len lru' = 0%Z ∧ Cache.HasKey key lru' = false.
Proof.
  apply (CacheLaws.nonpositive_size_keeps_nothing 0 true empty_run.1).
  - lia.
  - by_running empty_calls empty_run.2.
Defined.

Lemma read_key_survives_next_Add_witness :
  ∃ v lru1 lru2 calls,
    Cache.Get "1" cache_demo = Done (v, true, lru1) ∧
    Cache.Add "9" (Some "nine") lru1 = Done (lru2, calls) ∧
    Cache.HasKey "1" lru2 = true ∧ ("1" ∉ calls).
Proof.
  apply (CacheLaws.read_key_survives_next_Add 3 true cache_demo "1" "9").
  - lia.
  - by_running cache_calls cache_run.2.
  - vm_compute. reflexivity.
Defined.

(** Five insertions into a new [Cache] of size 3. *)
Definition fifo_adds : list (string * option string) :=
  [("1", Some "one"); ("2", Some "two"); ("3", Some "three");
   ("4", Some "four"); ("5", Some "five")].

Definition fifo_run : Cache.t string * list string :=
  match Cache.run ((λ kv, Cache.CallAdd kv.1 kv.2) <$> fifo_adds)
          (Cache.NewCache 3 true) with
  | Done r => r
  | Panic => (Cache.NewCache 3 true, [])
  end.

Lemma Adds_are_first_in_first_out_witness :
  Value <$> Cache.q fifo_run.1 = take (Z.to_nat 3) (reverse fifo_adds.*1) ∧
  fifo_run.2 = take (length fifo_adds - Z.to_nat 3) fifo_adds.*1 ∧
  dom (Cache.cache fifo_run.1) = list_to_set (Value <$> Cache.q fifo_run.1).
Proof.
  apply (CacheLaws.Adds_are_first_in_first_out 3 true fifo_adds
           fifo_run.1 fifo_run.2).
  - refine (bool_decide_unpack _ _). vm_compute. exact I.
  - vm_compute. reflexivity.
Defined.

(** Closes a goal [Forall P cs] on calls whose weights are literals. *)
Ltac by_weights cs :=
  unfold cs;
  repeat (apply List.Forall_cons;
          [intros w Hw; cbv in Hw;
           first [discriminate Hw
                 | injection Hw as <-; unfold int64_max;
                   first [lia | split; lia]]|]);
  apply List.Forall_nil.

(** Reads on a new [SegmentCache] of capacity -1. *)
Definition negative_calls : list (SegmentCache.call string) :=
  [SegmentCache.CallGet "1"; SegmentCache.CallLen].

Definition negative_run : SegmentCache.t string * list string :=
  match SegmentCache.run negative_calls
          (SegmentCache.NewSegmentCache (-1) true) with
  | Done r => r
  | Panic => (SegmentCache.NewSegmentCache 0 true, [])
  end.

Lemma negative_capacity_Add_panics_witness :
  negative_run.1 = SegmentCache.NewSegmentCache (-1) true ∧
  ∀ key data w,
    (0 ≤ w ≤ int64_max)%Z →
    SegmentCache.Add key data w negative_run.1 = Panic.
Proof.
  apply (SegmentLaws.negative_capacity_Add_panics (-1) true negative_run.1).
  - lia.
  - exists negative_calls, negative_run.2. split.
    + by_weights negative_calls.
    + vm_compute. reflexivity.
Defined.

Lemma used_capacity_is_exact_sum_witness :
  SegmentCache.UsedCapacity segment_demo
  = SegmentCache.total_weight segment_demo ∧
  (0 ≤ SegmentCache.total_weight segment_demo ≤ 3)%Z.
Proof.
  apply (SegmentLaws.used_capacity_is_exact_sum 3 true segment_calls
           segment_demo segment_run.2).
  - lia.
  - by_weights segment_calls.
  - vm_compute. reflexivity.
Defined.

Lemma Len_at_most_capacity_witness :
  (SegmentCache.Len segment_demo ≤ 3)%Z.
Proof.
  apply (SegmentLaws.Len_at_most_capacity 3 true segment_calls
           segment_demo segment_run.2).
  - lia.
  - by_weights segment_calls.
  - by_weights segment_calls.
  - vm_compute. reflexivity.
Defined.

Lemma read_segment_survives_next_Add_witness :
  ∃ lru1 lru2 calls,
    SegmentCache.Get "1" segment_demo = Done (Some "one", true, lru1) ∧
    SegmentCache.Add "9" (Some "nine") 2 lru1 = Done (lru2, calls) ∧
    SegmentCache.HasKey "1" lru2 = true ∧ ("1" ∉ calls).
Proof.
  apply (SegmentLaws.read_segment_survives_next_Add 3 true segment_demo "1"
           (SegmentCache.mkEntry "1" 1 (Some "one") (Some 1%positive))
           "9" (Some "nine") 2).
  - by_running_weights segment_calls segment_run.2.
  - vm_compute. reflexivity.
  - lia.
  - simpl. lia.
Defined.

(** The cache and the callback calls [Add] of a new segment of
    weight 2 leaves. *)
Definition segment_next : SegmentCache.t string * list string :=
  match SegmentCache.Add "9" (Some "nine") 2 segment_demo with
  | Done r => r
  | Panic => (segment_demo, [])
  end.

Lemma Add_evicts_no_more_than_needed_witness :
  ∃ gone,
    mkElement (SegmentCache.fresh segment_demo) (SegmentCache.mkRef "9" 2)
      :: SegmentCache.q segment_demo
    = SegmentCache.q segment_next.1 ++ gone ∧
    (SegmentFacts.queue_weight (SegmentCache.q segment_next.1) ≤ 3)%Z ∧
    ∀ p x s,
      gone = p ++ x :: s →
      (3 < SegmentFacts.queue_weight
             (SegmentCache.q segment_next.1 ++ p ++ [x]))%Z.
Proof.
  apply (SegmentLaws.Add_evicts_no_more_than_needed 3 true segment_demo
           "9" (Some "nine") 2 segment_next.1 segment_next.2).
  - by_running_weights segment_calls segment_run.2.
  - vm_compute. reflexivity.
  - lia.
  - assert (SegmentCache.total_weight segment_demo = 3%Z) as ->
      by (vm_compute; reflexivity).
    unfold int64_max. lia.
  - vm_compute. reflexivity.
Defined.

Lemma locked_call_is_the_unlocked_call_witness :
  (∀ r s calls,
     Cache.invoke (Cache.CallUnpin "3") cache_demo = Done (r, s, calls) →
     LockedCache.invoke (Cache.CallUnpin "3")
       (LockedCache.mkLocked cache_demo false)
     = Returns (r, LockedCache.mkLocked s false, calls)) ∧
  (Cache.invoke (Cache.CallUnpin "3") cache_demo = Panic →
   LockedCache.invoke (Cache.CallUnpin "3")
     (LockedCache.mkLocked cache_demo false) = Panics).
Proof.
  apply (LockedLaws.locked_call_is_the_unlocked_call
           (Cache.CallUnpin "3") (LockedCache.mkLocked cache_demo false)).
  - reflexivity.
  - intros key Hkey. injection Hkey as <-.
    exists (Cache.mkEntry "3" (Some "three") true None).
    split; [vm_compute; reflexivity | reflexivity].
Defined.

Lemma without_Unpin_nothing_blocks_witness :
  ∃ s' calls,
    Cache.run more_calls cache_demo = Done (s', calls) ∧
    LockedCache.run more_calls (LockedCache.mkLocked cache_demo false)
    = Returns (LockedCache.mkLocked s' false, calls).
Proof.
  apply (LockedLaws.without_Unpin_nothing_blocks 3 true cache_demo
           more_calls).
  - by_running cache_calls cache_run.2.
  - intros key Hin. unfold more_calls in Hin.
    repeat (apply elem_of_cons in Hin as [Hin|Hin]; [discriminate Hin|]).
    by apply elem_of_nil in Hin.
Defined.
End ConcreteLaws.
